(** * The chat request parser of [pinnedContextContextKeys.ts]

    A shallow embedding of [ChatRequestParser] (the scanner
    [parseChatRequest] and its four matchers), of the JavaScript string and
    regular-expression operations it relies on, and the properties of the
    parse result that follow from the code. *)

From Stdlib Require Import String Ascii List Bool Arith NArith ZArith Lia.
Import ListNotations.

Set Implicit Arguments.

(** ** JavaScript strings

    A JavaScript string is a sequence of UTF-16 code units; [length],
    [charAt] and [slice] all count code units. *)

Definition char := N.
Definition jsstring := list char.

(** The code units of an ASCII literal. *)
Definition lit (s : string) : jsstring :=
  map N_of_ascii (list_ascii_of_string s).

(** The code unit of an ASCII character. *)
Definition chr (a : ascii) : char := N_of_ascii a.

(** [a === b] on strings. *)
Fixpoint jsstring_eqb (a b : jsstring) : bool :=
  match a, b with
  | [], [] => true
  | x :: a', y :: b' => (x =? y)%N && jsstring_eqb a' b'
  | _, _ => false
  end.

(** [s.charAt(i)]: the one-character string at index [i], or the empty
    string when [i] is out of range (in particular for [i = -1]). *)
Definition charAt (s : jsstring) (i : Z) : jsstring :=
  if (i <? 0)%Z then []
  else match nth_error s (Z.to_nat i) with
       | Some c => [c]
       | None => []
       end.

(** [s.slice(a)] and [s.slice(a, b)] for non-negative indices. *)
Definition slice_from (s : jsstring) (a : nat) : jsstring := skipn a s.
Definition slice (s : jsstring) (a b : nat) : jsstring :=
  firstn (b - a) (skipn a s).

(** *** Character classes *)

Definition in_range (lo hi c : N) : bool := ((lo <=? c) && (c <=? hi))%N.

(** [\s]: WhiteSpace and LineTerminator code units. *)
Definition isWhiteSpace (c : char) : bool :=
  (in_range 9 13 c || (c =? 32) || (c =? 160) || (c =? 5760)
   || in_range 8192 8202 c || (c =? 8232) || (c =? 8233) || (c =? 8239)
   || (c =? 8287) || (c =? 12288) || (c =? 65279))%N.

(** [\d] *)
Definition isDigit (c : char) : bool := in_range 48 57 c.

(** [\w]: with the [i] flag and without the [u] flag this is still exactly
    [A-Za-z0-9_]. *)
Definition isWordChar (c : char) : bool :=
  (in_range 65 90 c || in_range 97 122 c || isDigit c || (c =? 95))%N.

(** [[\w_\-]] *)
Definition isNameChar (c : char) : bool := (isWordChar c || (c =? 45))%N.

(** [[\w_\-\.]] *)
Definition isArgChar (c : char) : bool := (isNameChar c || (c =? 46))%N.

(** [s.trim()] *)
Fixpoint trimStart (s : jsstring) : jsstring :=
  match s with
  | c :: r => if isWhiteSpace c then trimStart r else s
  | [] => []
  end.
Definition trim (s : jsstring) : jsstring :=
  rev (trimStart (rev (trimStart s))).

Definition isEmpty (s : jsstring) : bool :=
  match s with [] => true | _ => false end.

(** [s.match(/\s/)] as a truth value. *)
Definition matchesWhiteSpace (s : jsstring) : bool := existsb isWhiteSpace s.

(** ** Regular expressions

    The fragment of JavaScript regular expressions used by the parser, with
    the backtracking semantics of the language: quantifiers are greedy and
    give characters back one at a time, a lookahead is atomic, and the
    captures of an alternative that was given up are discarded. *)

Inductive regex : Type :=
| Bos                                   (* ^ *)
| Eos                                   (* $ *)
| WordB                                 (* \b *)
| Chr (c : char)                        (* a literal character *)
| Cls (p : char -> bool)                (* one character of a class *)
| Star (p : char -> bool)               (* greedy star of a class *)
| Plus (p : char -> bool)               (* [class]+ *)
| Opt (r : regex)                       (* r? *)
| Alt (r1 r2 : regex)                   (* r1|r2 *)
| Seq (r1 r2 : regex)                   (* r1 r2 *)
| Grp (k : nat) (r : regex)             (* the k-th capture group *)
| Look (r : regex).                     (* (?=r) *)

Definition Captures := list (option jsstring).

Fixpoint setCapture (k : nat) (v : jsstring) (c : Captures) : Captures :=
  match k, c with
  | _, [] => []
  | 0, _ :: r => Some v :: r
  | S k', x :: r => x :: setCapture k' v r
  end.

(** The number of leading characters of [s] that belong to class [p]. *)
Fixpoint runLength (p : char -> bool) (s : jsstring) : nat :=
  match s with
  | c :: r => if p c then S (runLength p r) else 0
  | [] => 0
  end.

(** Greedy choice of a repetition count: [n] first, then [n-1], ..., down
    to [lo]. *)
Fixpoint greedy {A : Type} (lo n : nat) (f : nat -> option A) : option A :=
  if n <? lo then None
  else match f n with
       | Some r => Some r
       | None => match n with
                 | 0 => None
                 | S n' => greedy lo n' f
                 end
       end.

Definition wordAt (s : jsstring) (pos : nat) : bool :=
  match nth_error s pos with
  | Some c => isWordChar c
  | None => false
  end.
Definition wordBefore (s : jsstring) (pos : nat) : bool :=
  match pos with
  | 0 => false
  | S p => wordAt s p
  end.

Definition MatchEnd : Type := nat * Captures.

Fixpoint exec (r : regex) (s : jsstring) (pos : nat) (caps : Captures)
    (k : nat -> Captures -> option MatchEnd) : option MatchEnd :=
  match r with
  | Bos => if pos =? 0 then k pos caps else None
  | Eos => if pos =? length s then k pos caps else None
  | WordB => if xorb (wordBefore s pos) (wordAt s pos) then k pos caps else None
  | Chr c =>
      match nth_error s pos with
      | Some d => if (d =? c)%N then k (S pos) caps else None
      | None => None
      end
  | Cls p =>
      match nth_error s pos with
      | Some d => if p d then k (S pos) caps else None
      | None => None
      end
  | Star p => greedy 0 (runLength p (skipn pos s)) (fun n => k (pos + n) caps)
  | Plus p => greedy 1 (runLength p (skipn pos s)) (fun n => k (pos + n) caps)
  | Opt r1 =>
      match exec r1 s pos caps k with
      | Some e => Some e
      | None => k pos caps
      end
  | Alt r1 r2 =>
      match exec r1 s pos caps k with
      | Some e => Some e
      | None => exec r2 s pos caps k
      end
  | Seq r1 r2 => exec r1 s pos caps (fun p c => exec r2 s p c k)
  | Grp g r1 =>
      exec r1 s pos caps
        (fun p c => k p (setCapture (g - 1) (slice s pos p) c))
  | Look r1 =>
      match exec r1 s pos caps (fun p c => Some (p, c)) with
      | Some (_, c) => k pos c
      | None => None
      end
  end.

(** The array returned by [s.match(re)] for a regex without the [g] flag:
    the matched text, the captures, and the index of the match. *)
Record RegExpMatchArray : Type := {
  index : nat;
  full : jsstring;
  groups : Captures
}.

(** [m[k]] for [k >= 1]; [None] is [undefined]. *)
Definition group (m : RegExpMatchArray) (k : nat) : option jsstring :=
  match nth_error (groups m) (k - 1) with
  | Some g => g
  | None => None
  end.

(** The leftmost match: start positions are tried from [start] upwards. *)
Fixpoint searchFrom (r : regex) (ngroups : nat) (s : jsstring)
    (fuel start : nat) : option RegExpMatchArray :=
  match exec r s start (repeat None ngroups) (fun p c => Some (p, c)) with
  | Some (e, c) =>
      Some {| index := start; full := slice s start e; groups := c |}
  | None =>
      match fuel with
      | 0 => None
      | S fuel' => searchFrom r ngroups s fuel' (S start)
      end
  end.

(** [s.match(re)]: every start position [0 .. s.length] is tried. *)
Definition regexMatch (r : regex) (ngroups : nat) (s : jsstring)
    : option RegExpMatchArray :=
  searchFrom r ngroups s (length s) 0.

(** *** The four patterns of the parser *)

(** [(?=(\s|$|\b))] *)
Definition boundary (g : nat) : regex :=
  Look (Grp g (Alt (Cls isWhiteSpace) (Alt Eos WordB))).

(** [agentReg = /^!( [\w_\-]* )(?=(\s|$|\b))/i] (blanks added around the
    starred class). *)
Definition agentReg : regex :=
  Seq Bos (Seq (Chr (chr "!")) (Seq (Grp 1 (Star isNameChar)) (boundary 2))).

(** [variableReg = /^#([\w_\-]+)(:\d+)?(?=(\s|$|\b))/i] *)
Definition variableReg : regex :=
  Seq Bos (Seq (Chr (chr "#")) (Seq (Grp 1 (Plus isNameChar))
    (Seq (Opt (Grp 2 (Seq (Chr (chr ":")) (Plus isDigit)))) (boundary 3)))).

(** [slashReg = /\/([\w_\-]+)(?=(\s|$|\b))/i]: no [^] anchor. *)
Definition slashReg : regex :=
  Seq (Chr (chr "/")) (Seq (Grp 1 (Plus isNameChar)) (boundary 2)).

(** [variableWithArgReg = /\#([\w_\-]+):([\w_\-\.]+)(?=(\s|$|\b))/i]: no
    [^] anchor. *)
Definition variableWithArgReg : regex :=
  Seq (Chr (chr "#")) (Seq (Grp 1 (Plus isNameChar)) (Seq (Chr (chr ":"))
    (Seq (Grp 2 (Plus isArgChar)) (boundary 3)))).

(** [m[k] ?? ''], which is also what destructuring [[full, name] = m] gives
    for a group that always takes part in the match (see
    [group1_defined] below). *)
Definition capture (m : RegExpMatchArray) (k : nat) : jsstring :=
  match group m k with
  | Some g => g
  | None => []
  end.

(** ** Offsets, positions and ranges *)

(** Modelled from the spec: [OffsetRange], [Position] and [Range] are
    imported from [vs/editor/common/core], which is not among the sources.
    Following section 3 of the specification (an offset range
    [[start, endExclusive)] and a parallel editor range
    [(startLine, startCol, endLine, endCol)]) they are the plain records of
    their constructor arguments. The records check nothing: where a class
    rejects its arguments, as [OffsetRange] does a start beyond the end, the
    program throws and the model goes on. So every normal result of the
    program is a normal result of the model, and what holds of all of these
    holds of the program's. *)
Record OffsetRange : Type := {
  start : nat;
  endExclusive : nat
}.

Record Position : Type := {
  lineNumber : nat;
  column : nat
}.

Record Range : Type := {
  startLineNumber : nat;
  startColumn : nat;
  endLineNumber : nat;
  endColumn : nat
}.

(** Modelled from the spec: the leader constants are imported from
    [csChatParserTypes], which is not among the sources; section 4.1 and
    the glossary give [!] for agents, [#] for variables and file references
    and [/] for commands. *)
Definition chatAgentLeader : jsstring := lit "!".
Definition chatFileVariableLeader : jsstring := lit "#".
Definition chatSubcommandLeader : jsstring := lit "/".

(** [parts.at(-1)] *)
Definition at_last {A : Type} (l : list A) : option A :=
  nth_error l (length l - 1).

(** ** The services and the parsed parts *)

(** An entry of the session's dynamic-reference list: an editor range and
    an opaque payload ([r.range], [r.data]). *)
Record IDynamicReference (Data : Type) : Type := {
  reference_range : Range;
  reference_data : Data
}.

(** What the parser is constructed with: [agentService.getAgent],
    [variableService.hasVariable], [slashCommandService.getCommands] and an
    agent's asynchronous [provideSlashCommands], which either yields its
    list of sub-commands or fails with an error. The objects handed out by
    the services are opaque to the parser, apart from the [name] of an agent
    sub-command and the [command] of a standalone slash command. *)
Record Services : Type := {
  IChatAgent : Type;
  IChatAgentCommand : Type;
  agentCommand_name : IChatAgentCommand -> jsstring;
  ISlashCommand : Type;
  slashCommand_command : ISlashCommand -> jsstring;
  Data : Type;
  Error : Type;
  getAgent : jsstring -> option IChatAgent;
  hasVariable : jsstring -> bool;
  getCommands : list ISlashCommand;
  provideSlashCommands : IChatAgent -> Error + list IChatAgentCommand
}.

Section ChatRequestParser.

Variable svc : Services.

(** Modelled from the spec: the part classes are imported from
    [csChatParserTypes], which is not among the sources. Section 3 lists
    them as the cases of one variant type, each carrying its offset range
    and editor range; the further fields are the constructor arguments
    passed by the parser. [instanceof] therefore tells the cases apart. *)
Inductive IParsedChatRequestPart : Type :=
| ChatRequestTextPart (range : OffsetRange) (editorRange : Range)
    (text : jsstring)
| ChatRequestVariablePart (range : OffsetRange) (editorRange : Range)
    (variableName variableArg : jsstring)
| ChatRequestDynamicReferencePart (range : OffsetRange) (editorRange : Range)
    (name arg : jsstring) (data : Data svc)
| ChatRequestAgentPart (range : OffsetRange) (editorRange : Range)
    (agent : IChatAgent svc)
| ChatRequestAgentSubcommandPart (range : OffsetRange) (editorRange : Range)
    (command : IChatAgentCommand svc)
| ChatRequestSlashCommandPart (range : OffsetRange) (editorRange : Range)
    (slashCommand : ISlashCommand svc).

Definition range (p : IParsedChatRequestPart) : OffsetRange :=
  match p with
  | ChatRequestTextPart r _ _ | ChatRequestVariablePart r _ _ _
  | ChatRequestDynamicReferencePart r _ _ _ _ | ChatRequestAgentPart r _ _
  | ChatRequestAgentSubcommandPart r _ _ | ChatRequestSlashCommandPart r _ _
    => r
  end.

Definition editorRange (p : IParsedChatRequestPart) : Range :=
  match p with
  | ChatRequestTextPart _ r _ | ChatRequestVariablePart _ r _ _
  | ChatRequestDynamicReferencePart _ r _ _ _ | ChatRequestAgentPart _ r _
  | ChatRequestAgentSubcommandPart _ r _ | ChatRequestSlashCommandPart _ r _
    => r
  end.

(** [p instanceof ChatRequestTextPart] and the like. *)
Definition isTextPart (p : IParsedChatRequestPart) : bool :=
  match p with ChatRequestTextPart _ _ _ => true | _ => false end.
Definition isAgentPart (p : IParsedChatRequestPart) : bool :=
  match p with ChatRequestAgentPart _ _ _ => true | _ => false end.
Definition isSlashCommandPart (p : IParsedChatRequestPart) : bool :=
  match p with ChatRequestSlashCommandPart _ _ _ => true | _ => false end.
Definition isAgentSubcommandPart (p : IParsedChatRequestPart) : bool :=
  match p with ChatRequestAgentSubcommandPart _ _ _ => true | _ => false end.
Definition isVariablePart (p : IParsedChatRequestPart) : bool :=
  match p with ChatRequestVariablePart _ _ _ _ => true | _ => false end.
Definition isDynamicReferencePart (p : IParsedChatRequestPart) : bool :=
  match p with
  | ChatRequestDynamicReferencePart _ _ _ _ _ => true
  | _ => false
  end.

(** [p instanceof ChatRequestTextPart && p.text.trim() !== ''] *)
Definition isNonBlankTextPart (p : IParsedChatRequestPart) : bool :=
  match p with
  | ChatRequestTextPart _ _ text => negb (isEmpty (trim text))
  | _ => false
  end.

Record IParsedChatRequest : Type := {
  parts : list IParsedChatRequestPart;
  text : jsstring
}.

(** ** Asynchronous computations

    The parser runs against the variable service's store of dynamic
    references, one list per session, which other activity may replace at
    every suspension point of the parser: [future n] is the store as it
    stands after the [n]-th suspension. The journal records, in order, the
    service calls made and the suspension points passed. *)

Inductive Event : Type :=
| GetDynamicReferences (sessionId : jsstring)
| GetAgent (name : jsstring)
| HasVariable (name : jsstring)
| GetCommands
| ProvideSlashCommands (agent : IChatAgent svc)
| Suspend.

(** Modelled from the spec: [getDynamicReferences] belongs to the variable
    service, which is not among the sources; by section 6 of the
    specification it returns the session's ordered list of references. The
    store maps a session to its current list. *)
Definition Store : Type := jsstring -> list (IDynamicReference (Data svc)).

Record Runtime : Type := {
  store : Store;
  future : nat -> Store;
  suspensions : nat;
  journal : list Event
}.

(** A computation completes normally with a value or abruptly with a
    thrown error. *)
Inductive Completion (A : Type) : Type :=
| Normal (a : A)
| Throw (e : Error svc).
Arguments Throw {A} e.

Definition Async (A : Type) : Type := Runtime -> Completion A * Runtime.

Definition ret {A : Type} (a : A) : Async A := fun rt => (Normal a, rt).

Definition bind {A B : Type} (m : Async A) (f : A -> Async B) : Async B :=
  fun rt =>
    match m rt with
    | (Normal a, rt') => f a rt'
    | (Throw e, rt') => (Throw e, rt')
    end.

Definition emit (ev : Event) : Async unit :=
  fun rt =>
    (Normal tt,
     {| store := store rt; future := future rt;
        suspensions := suspensions rt; journal := journal rt ++ [ev] |}).

(** A suspension point: the journal notes it and the store moves on to
    whatever the rest of the system has made of it meanwhile. *)
Definition suspend : Async unit :=
  fun rt =>
    (Normal tt,
     {| store := future rt (suspensions rt); future := future rt;
        suspensions := S (suspensions rt);
        journal := journal rt ++ [Suspend] |}).

(** [await m]: [m] runs up to its completion, the caller is suspended, and
    resumes with that completion (a rejection is rethrown). *)
Definition await {A : Type} (m : Async A) : Async A :=
  fun rt =>
    match m rt with
    | (c, rt') => (c, snd (suspend rt'))
    end.

Local Notation "x <- m ;; k" := (bind m (fun x => k))
  (at level 61, m at next level, right associativity).

(** *** The service calls *)

Definition call_getDynamicReferences (sessionId : jsstring)
    : Async (list (IDynamicReference (Data svc))) :=
  fun rt =>
    match emit (GetDynamicReferences sessionId) rt with
    | (_, rt') => (Normal (store rt sessionId), rt')
    end.

Definition call_getAgent (name : jsstring) : Async (option (IChatAgent svc)) :=
  _ <- emit (GetAgent name) ;; ret (getAgent svc name).

Definition call_hasVariable (name : jsstring) : Async bool :=
  _ <- emit (HasVariable name) ;; ret (hasVariable svc name).

Definition call_getCommands : Async (list (ISlashCommand svc)) :=
  _ <- emit GetCommands ;; ret (getCommands svc).

(** [await agent.provideSlashCommands(CancellationToken.None)] *)
Definition await_provideSlashCommands (agent : IChatAgent svc)
    : Async (list (IChatAgentCommand svc)) :=
  await (fun rt =>
    match emit (ProvideSlashCommands agent) rt with
    | (_, rt') =>
        match provideSlashCommands svc agent with
        | inr subCommands => (Normal subCommands, rt')
        | inl e => (Throw e, rt')
        end
    end).

(** ** The matchers *)

Definition previousPartEnd (parts : list IParsedChatRequestPart) : nat :=
  match at_last parts with
  | Some previousPart => endExclusive (range previousPart)
  | None => 0
  end.

Definition tryToParseAgent (message fullMessage : jsstring) (offset : nat)
    (position : Position) (parts : list IParsedChatRequestPart)
    : Async (option IParsedChatRequestPart) :=
  match regexMatch agentReg 2 message with
  | None => ret None
  | Some nextVariableMatch =>
      let full := full nextVariableMatch in
      let name := capture nextVariableMatch 1 in
      let varRange :=
        {| start := offset; endExclusive := offset + length full |} in
      let varEditorRange :=
        {| startLineNumber := lineNumber position;
           startColumn := column position;
           endLineNumber := lineNumber position;
           endColumn := column position + length full |} in
      agent <- call_getAgent name ;;
      match agent with
      | None => ret None
      | Some agent =>
          if existsb isAgentPart parts then ret None
          else if existsb
                    (fun p => isNonBlankTextPart p || negb (isAgentPart p))
                    parts
          then ret None
          else
            let textSincePreviousPart :=
              slice fullMessage (previousPartEnd parts) offset in
            if negb (isEmpty (trim textSincePreviousPart)) then ret None
            else ret (Some (ChatRequestAgentPart varRange varEditorRange agent))
      end
  end.

Definition tryToParseVariable (message : jsstring) (offset : nat)
    (position : Position) (parts : list IParsedChatRequestPart)
    : Async (option IParsedChatRequestPart) :=
  match regexMatch variableReg 3 message with
  | None => ret None
  | Some nextVariableMatch =>
      let full := full nextVariableMatch in
      let name := capture nextVariableMatch 1 in
      let variableArg := capture nextVariableMatch 2 in
      let varRange :=
        {| start := offset; endExclusive := offset + length full |} in
      let varEditorRange :=
        {| startLineNumber := lineNumber position;
           startColumn := column position;
           endLineNumber := lineNumber position;
           endColumn := column position + length full |} in
      known <- call_hasVariable name ;;
      if known
      then ret (Some (ChatRequestVariablePart varRange varEditorRange
                        name variableArg))
      else ret None
  end.

Definition tryToParseSlashCommand (sessionId remainingMessage
    fullMessage : jsstring) (offset : nat) (position : Position)
    (parts : list IParsedChatRequestPart)
    : Async (option IParsedChatRequestPart) :=
  match regexMatch slashReg 2 remainingMessage with
  | None => ret None
  | Some nextSlashMatch =>
      if existsb isSlashCommandPart parts then ret None
      else
        let full := full nextSlashMatch in
        let command := capture nextSlashMatch 1 in
        let slashRange :=
          {| start := offset; endExclusive := offset + length full |} in
        let slashEditorRange :=
          {| startLineNumber := lineNumber position;
             startColumn := column position;
             endLineNumber := lineNumber position;
             endColumn := column position + length full |} in
        match find isAgentPart parts with
        | Some (ChatRequestAgentPart _ _ usedAgent) =>
            if existsb
                 (fun p => isNonBlankTextPart p
                           || (negb (isAgentPart p) && negb (isTextPart p)))
                 parts
            then ret None
            else
              let textSincePreviousPart :=
                slice fullMessage (previousPartEnd parts) offset in
              if negb (isEmpty (trim textSincePreviousPart)) then ret None
              else
                subCommands <- await_provideSlashCommands usedAgent ;;
                match find (fun c => jsstring_eqb (agentCommand_name svc c)
                                       command) subCommands with
                | Some subCommand =>
                    ret (Some (ChatRequestAgentSubcommandPart slashRange
                                 slashEditorRange subCommand))
                | None => ret None
                end
        | _ =>
            slashCommands <- call_getCommands ;;
            match find (fun c => jsstring_eqb (slashCommand_command svc c)
                                   command) slashCommands with
            | Some slashCommand =>
                ret (Some (ChatRequestSlashCommandPart slashRange
                             slashEditorRange slashCommand))
            | None => ret None
            end
        end
  end.

Definition tryToParseDynamicVariable (message : jsstring) (offset : nat)
    (position : Position) (references : list (IDynamicReference (Data svc)))
    : Async (option IParsedChatRequestPart) :=
  match regexMatch variableWithArgReg 3 message with
  | None => ret None
  | Some nextVarMatch =>
      let full := full nextVarMatch in
      let name := capture nextVarMatch 1 in
      let arg := capture nextVarMatch 2 in
      let range :=
        {| start := offset; endExclusive := offset + length full |} in
      let editorRange :=
        {| startLineNumber := lineNumber position;
           startColumn := column position;
           endLineNumber := lineNumber position;
           endColumn := column position + length full |} in
      match find (fun r =>
                    (startLineNumber (reference_range r)
                       =? lineNumber position)
                    && (startColumn (reference_range r) =? column position))
                 references with
      | Some refAtThisPosition =>
          ret (Some (ChatRequestDynamicReferencePart range editorRange
                       name arg (reference_data refAtThisPosition)))
      | None => ret None
      end
  end.

(** ** The scanner *)

Definition previousPartEditorRangeEndLine
    (parts : list IParsedChatRequestPart) : nat :=
  match at_last parts with
  | Some previousPart => endLineNumber (editorRange previousPart)
  | None => 1
  end.

Definition previousPartEditorRangeEndCol
    (parts : list IParsedChatRequestPart) : nat :=
  match at_last parts with
  | Some previousPart => endColumn (editorRange previousPart)
  | None => 1
  end.

(** The text part from the end of the last part up to offset [i]. *)
Definition textPartUpTo (message : jsstring) (i lineNumber column : nat)
    (parts : list IParsedChatRequestPart) : IParsedChatRequestPart :=
  ChatRequestTextPart
    {| start := previousPartEnd parts; endExclusive := i |}
    {| startLineNumber := previousPartEditorRangeEndLine parts;
       startColumn := previousPartEditorRangeEndCol parts;
       endLineNumber := lineNumber;
       endColumn := column |}
    (slice message (previousPartEnd parts) i).

(** [if (newPart) { if (i !== 0) { parts.push(text) } parts.push(newPart) }] *)
Definition pushNewPart (message : jsstring) (i lineNumber column : nat)
    (parts : list IParsedChatRequestPart)
    (newPart : option IParsedChatRequestPart)
    : list IParsedChatRequestPart :=
  match newPart with
  | Some newPart =>
      let parts :=
        if negb (i =? 0)
        then parts ++ [textPartUpTo message i lineNumber column parts]
        else parts in
      parts ++ [newPart]
  | None => parts
  end.

(** The matcher selected at offset [i], if any. *)
Definition candidate (sessionId message : jsstring)
    (references : list (IDynamicReference (Data svc)))
    (i lineNumber column : nat) (parts : list IParsedChatRequestPart)
    : Async (option IParsedChatRequestPart) :=
  let previousChar := charAt message (Z.of_nat i - 1) in
  let char := charAt message (Z.of_nat i) in
  let position := {| lineNumber := lineNumber; column := column |} in
  if matchesWhiteSpace previousChar || (i =? 0) then
    if jsstring_eqb char chatFileVariableLeader then
      variable <- tryToParseVariable (slice_from message i) i position parts ;;
      match variable with
      | Some part => ret (Some part)
      | None =>
          await (tryToParseDynamicVariable (slice_from message i) i position
                   references)
      end
    else if jsstring_eqb char chatAgentLeader then
      tryToParseAgent (slice_from message i) message i position parts
    else if jsstring_eqb char chatSubcommandLeader then
      await (tryToParseSlashCommand sessionId (slice_from message i) message
               i position parts)
    else ret None
  else ret None.

(** The state of the [for] loop besides [i]. *)
Record ScanState : Type := {
  scan_parts : list IParsedChatRequestPart;
  scan_lineNumber : nat;
  scan_column : nat
}.

(** The iterations [i, i+1, ..., i+n-1] of the [for] loop. *)
Fixpoint scan (sessionId message : jsstring)
    (references : list (IDynamicReference (Data svc)))
    (n i lineNumber column : nat) (parts : list IParsedChatRequestPart)
    : Async ScanState :=
  match n with
  | 0 =>
      ret {| scan_parts := parts; scan_lineNumber := lineNumber;
             scan_column := column |}
  | S n' =>
      newPart <- candidate sessionId message references i lineNumber column
                   parts ;;
      let parts := pushNewPart message i lineNumber column parts newPart in
      if jsstring_eqb (charAt message (Z.of_nat i)) (lit (String "010" ""))
      then scan sessionId message references n' (S i) (lineNumber + 1) 1 parts
      else scan sessionId message references n' (S i) lineNumber (column + 1)
             parts
  end.

(** The trailing text part, when the last part ends before the message. *)
Definition pushTrailingText (message : jsstring) (s : ScanState)
    : list IParsedChatRequestPart :=
  if previousPartEnd (scan_parts s) <? length message
  then scan_parts s
         ++ [textPartUpTo message (length message) (scan_lineNumber s)
               (scan_column s) (scan_parts s)]
  else scan_parts s.

Definition parseChatRequest (sessionId message : jsstring)
    : Async IParsedChatRequest :=
  references <- call_getDynamicReferences sessionId ;;
  s <- scan sessionId message references (length message) 0 1 1 [] ;;
  ret {| parts := pushTrailingText message s; text := message |}.

(** ** What the scanner can emit

    The scanner's gate at offset [i], and the conditions under which each
    kind of part is produced there, read off the matchers. *)

Definition atWordStart (message : jsstring) (i : nat) : bool :=
  matchesWhiteSpace (charAt message (Z.of_nat i - 1)) || (i =? 0).

Definition matchRange (offset : nat) (m : RegExpMatchArray) : OffsetRange :=
  {| start := offset; endExclusive := offset + length (full m) |}.

Definition matchEditorRange (position : Position) (m : RegExpMatchArray)
    : Range :=
  {| startLineNumber := lineNumber position;
     startColumn := column position;
     endLineNumber := lineNumber position;
     endColumn := column position + length (full m) |}.

Definition referenceAt (position : Position)
    (r : IDynamicReference (Data svc)) : bool :=
  (startLineNumber (reference_range r) =? lineNumber position)
  && (startColumn (reference_range r) =? column position).

(** The variable matcher declines on [message]. *)
Definition variableDeclines (message : jsstring) : Prop :=
  match regexMatch variableReg 3 message with
  | Some m => hasVariable svc (capture m 1) = false
  | None => True
  end.

Inductive Emits (message : jsstring)
    (references : list (IDynamicReference (Data svc))) (i : nat)
    (position : Position) (parts : list IParsedChatRequestPart)
    : IParsedChatRequestPart -> Prop :=
| Emits_variable m :
    charAt message (Z.of_nat i) = chatFileVariableLeader ->
    regexMatch variableReg 3 (slice_from message i) = Some m ->
    hasVariable svc (capture m 1) = true ->
    Emits message references i position parts
      (ChatRequestVariablePart (matchRange i m) (matchEditorRange position m)
         (capture m 1) (capture m 2))
| Emits_dynamicReference m r :
    charAt message (Z.of_nat i) = chatFileVariableLeader ->
    variableDeclines (slice_from message i) ->
    regexMatch variableWithArgReg 3 (slice_from message i) = Some m ->
    find (referenceAt position) references = Some r ->
    Emits message references i position parts
      (ChatRequestDynamicReferencePart (matchRange i m)
         (matchEditorRange position m) (capture m 1) (capture m 2)
         (reference_data r))
| Emits_agent m agent :
    charAt message (Z.of_nat i) = chatAgentLeader ->
    regexMatch agentReg 2 (slice_from message i) = Some m ->
    getAgent svc (capture m 1) = Some agent ->
    parts = [] ->
    trim (slice message 0 i) = [] ->
    Emits message references i position parts
      (ChatRequestAgentPart (matchRange i m) (matchEditorRange position m)
         agent)
| Emits_slashCommand m slashCommand :
    charAt message (Z.of_nat i) = chatSubcommandLeader ->
    regexMatch slashReg 2 (slice_from message i) = Some m ->
    existsb isSlashCommandPart parts = false ->
    existsb isAgentPart parts = false ->
    find (fun c => jsstring_eqb (slashCommand_command svc c) (capture m 1))
      (getCommands svc) = Some slashCommand ->
    Emits message references i position parts
      (ChatRequestSlashCommandPart (matchRange i m)
         (matchEditorRange position m) slashCommand)
| Emits_agentSubcommand m agent subCommands subCommand :
    charAt message (Z.of_nat i) = chatSubcommandLeader ->
    regexMatch slashReg 2 (slice_from message i) = Some m ->
    existsb isSlashCommandPart parts = false ->
    existsb isAgentPart parts = true ->
    existsb (fun p => isNonBlankTextPart p
                      || (negb (isAgentPart p) && negb (isTextPart p)))
      parts = false ->
    trim (slice message (previousPartEnd parts) i) = [] ->
    provideSlashCommands svc agent = inr subCommands ->
    find (fun c => jsstring_eqb (agentCommand_name svc c) (capture m 1))
      subCommands = Some subCommand ->
    Emits message references i position parts
      (ChatRequestAgentSubcommandPart (matchRange i m)
         (matchEditorRange position m) subCommand).

End ChatRequestParser.

Arguments GetDynamicReferences {svc} sessionId.
Arguments GetAgent {svc} name.
Arguments HasVariable {svc} name.
Arguments GetCommands {svc}.
Arguments ProvideSlashCommands {svc} agent.
Arguments Suspend {svc}.

Arguments Normal {svc A} a.
Arguments Throw {svc A} e.
Arguments ChatRequestTextPart {svc} range editorRange text.
Arguments ChatRequestVariablePart {svc} range editorRange
  variableName variableArg.
Arguments ChatRequestDynamicReferencePart {svc} range editorRange
  name arg data.
Arguments ChatRequestAgentPart {svc} range editorRange agent.
Arguments ChatRequestAgentSubcommandPart {svc} range editorRange command.
Arguments ChatRequestSlashCommandPart {svc} range editorRange slashCommand.

(** ** Auxiliary notions used in the statements *)

(** Capture index [idx] (group [idx + 1]) is set on every successful path
    through [r]. *)
Fixpoint alwaysCaptures (r : regex) (idx : nat) : bool :=
  match r with
  | Grp g r1 => (g - 1 =? idx) || alwaysCaptures r1 idx
  | Seq r1 r2 => alwaysCaptures r1 idx || alwaysCaptures r2 idx
  | Alt r1 r2 => alwaysCaptures r1 idx && alwaysCaptures r2 idx
  | Look r1 => alwaysCaptures r1 idx
  | _ => false
  end.

(** The characters that a match of [r] may consume. *)
Fixpoint consumes (r : regex) (ch : char) : bool :=
  match r with
  | Chr c => (ch =? c)%N
  | Cls p | Star p | Plus p => p ch
  | Opt r1 | Grp _ r1 => consumes r1 ch
  | Alt r1 r2 | Seq r1 r2 => consumes r1 ch || consumes r2 ch
  | Bos | Eos | WordB | Look _ => false
  end.

(** A lower bound on the number of characters that a match of [r]
    consumes. *)
Fixpoint minLength (r : regex) : nat :=
  match r with
  | Chr _ | Cls _ | Plus _ => 1
  | Grp _ r1 => minLength r1
  | Seq r1 r2 => minLength r1 + minLength r2
  | Alt r1 r2 => Nat.min (minLength r1) (minLength r2)
  | Bos | Eos | WordB | Star _ | Opt _ | Look _ => 0
  end.

(** The ranges [l] follow one another without gap from offset [a] to
    offset [b], and none of them is empty. *)
Fixpoint tiles (l : list OffsetRange) (a b : nat) : Prop :=
  match l with
  | [] => a = b
  | r :: l' => start r = a /\ a < endExclusive r /\ tiles l' (endExclusive r) b
  end.

(** Wherever the scanner tries the pattern of the slash-command matcher or
    of the dynamic-reference matcher on [message], its first occurrence in
    the rest of the message is at the scanner's offset. The slash-command
    pattern is tried at every [/] that stands at a word start, the
    dynamic-reference pattern at every [#] that stands at a word start and
    on which the variable matcher declines. *)
Definition anchored (svc : Services) (message : jsstring) : Prop :=
  forall i m,
    atWordStart message i = true ->
    (charAt message (Z.of_nat i) = chatSubcommandLeader /\
     regexMatch slashReg 2 (slice_from message i) = Some m) \/
    (charAt message (Z.of_nat i) = chatFileVariableLeader /\
     variableDeclines svc (slice_from message i) /\
     regexMatch variableWithArgReg 3 (slice_from message i) = Some m) ->
    index m = 0.

Definition captured (c : Captures) (idx : nat) : Prop :=
  exists v, nth_error c idx = Some (Some v).

(** The number denoted by a string of decimal digits, the reading of a
    captured argument as a "numeric value". *)
Fixpoint decimalFrom (acc : N) (s : jsstring) : option N :=
  match s with
  | [] => Some acc
  | c :: r => if isDigit c then decimalFrom (10 * acc + (c - 48))%N r else None
  end.

Definition numericValue (s : jsstring) : option N :=
  match s with
  | [] => None
  | _ => decimalFrom 0 s
  end.

Fixpoint strictlyIncreasing (l : list nat) : bool :=
  match l with
  | a :: (b :: _) as r => (a <? b) && strictlyIncreasing r
  | _ => true
  end.

Section Notions.

Variable svc : Services.

(** A slash command or an agent sub-command. *)
Definition isCommandPart (p : IParsedChatRequestPart svc) : bool :=
  isSlashCommandPart p || isAgentSubcommandPart p.

Definition singleAgentAndCommand (parts : list (IParsedChatRequestPart svc))
    : Prop :=
  length (filter (@isAgentPart svc) parts) <= 1 /\
  length (filter isCommandPart parts) <= 1 /\
  (existsb (@isAgentSubcommandPart svc) parts = true ->
   existsb (@isAgentPart svc) parts = true).

(** The name of the command that a slash-command or sub-command part was
    resolved to. *)
Definition commandName (p : IParsedChatRequestPart svc) : jsstring :=
  match p with
  | ChatRequestSlashCommandPart _ _ c => slashCommand_command svc c
  | ChatRequestAgentSubcommandPart _ _ c => agentCommand_name svc c
  | _ => []
  end.

(** The substring of the message covered by the offset range of a part. *)
Definition coveredText (message : jsstring) (p : IParsedChatRequestPart svc)
    : jsstring :=
  slice message (start (range p)) (endExclusive (range p)).

(** Offset [i] lies in the offset range of [p]. *)
Definition covers (p : IParsedChatRequestPart svc) (i : nat) : bool :=
  (start (range p) <=? i) && (i <? endExclusive (range p)).

(** The scanner's invariant on anchored messages: the parts so far tile
    the message up to the end of the last one, and the last part that is
    not text, if any, started before the current offset [i] and covers no
    white space. *)
Definition tiled (message : jsstring) (i : nat)
    (parts : list (IParsedChatRequestPart svc)) : Prop :=
  tiles (map (@range svc) parts) 0 (previousPartEnd parts) /\
  previousPartEnd parts <= length message /\
  (parts = [] \/
   exists s, s < i /\ s < previousPartEnd parts /\
     forall j, s <= j < previousPartEnd parts ->
       exists ch, nth_error message j = Some ch /\ isWhiteSpace ch = false).

(** The journal entry of a fetch of the dynamic-reference list. *)
Definition isFetch (ev : Event svc) : bool :=
  match ev with GetDynamicReferences _ => true | _ => false end.

(** The journal entry of a request for an agent's sub-commands. *)
Definition isEnumeration (ev : Event svc) : bool :=
  match ev with ProvideSlashCommands _ => true | _ => false end.

(** How a completion relates to the sub-command enumerations journalled
    while it was computed: a normal completion has seen only successful
    ones, an abrupt one carries the error of a failed one. *)
Definition explainedBy (A : Type) (c : Completion svc A)
    (evs : list (Event svc)) : Prop :=
  match c with
  | Normal _ =>
      forall agent, In (ProvideSlashCommands agent) evs ->
                    exists l, provideSlashCommands svc agent = inr l
  | Throw e =>
      exists agent, In (ProvideSlashCommands agent) evs /\
                    provideSlashCommands svc agent = inl e
  end.

(** A computation that only appends to the journal, never fetches the
    dynamic references, and fails only with the error of an enumeration. *)
Definition disciplined (A : Type) (m : Async svc A) : Prop :=
  forall rt, exists evs,
    journal (snd (m rt)) = journal rt ++ evs /\
    Forall (fun ev => isFetch ev = false) evs /\
    explainedBy (fst (m rt)) evs.

(** A computation whose completion does not depend on the runtime it is
    started in. *)
Definition oblivious (A : Type) (m : Async svc A) : Prop :=
  forall rt1 rt2, fst (m rt1) = fst (m rt2).

End Notions.

Arguments disciplined svc {A} m.
Arguments oblivious svc {A} m.

(** ** Concrete services

    A registry with one agent [agentX] whose only sub-command is [sub], the
    variables [myvar] and [v], and the standalone commands [standalone],
    [foo] and [f]; agents, commands and errors are identified by their
    names. *)
Definition demoServices : Services := {|
  IChatAgent := jsstring;
  IChatAgentCommand := jsstring;
  agentCommand_name := fun c => c;
  ISlashCommand := jsstring;
  slashCommand_command := fun c => c;
  Data := nat;
  Error := jsstring;
  getAgent := fun name =>
    if jsstring_eqb name (lit "agentX") then Some name else None;
  hasVariable := fun name =>
    jsstring_eqb name (lit "myvar") || jsstring_eqb name (lit "v");
  getCommands := [lit "standalone"; lit "foo"; lit "f"];
  provideSlashCommands := fun _ => inr [lit "sub"]
|}.

(** The same registry, except that enumerating the sub-commands of an agent
    fails. *)
Definition failingServices : Services := {|
  IChatAgent := jsstring;
  IChatAgentCommand := jsstring;
  agentCommand_name := fun c => c;
  ISlashCommand := jsstring;
  slashCommand_command := fun c => c;
  Data := nat;
  Error := jsstring;
  getAgent := fun name =>
    if jsstring_eqb name (lit "agentX") then Some name else None;
  hasVariable := fun name =>
    jsstring_eqb name (lit "myvar") || jsstring_eqb name (lit "v");
  getCommands := [lit "standalone"; lit "foo"; lit "f"];
  provideSlashCommands := fun _ => inl (lit "boom")
|}.

(** A runtime in which every session has the list [refs] of dynamic
    references and nothing else touches the store. *)
Definition quietRuntime (svc : Services)
    (refs : list (IDynamicReference (Data svc))) : Runtime svc :=
  {| store := fun _ => refs; future := fun _ _ => refs;
     suspensions := 0; journal := [] |}.

(** A runtime in which the session's list [refs] is emptied by other
    activity at the first suspension of the parser. *)
Definition racingRuntime (svc : Services)
    (refs : list (IDynamicReference (Data svc))) : Runtime svc :=
  {| store := fun _ => refs; future := fun _ _ => [];
     suspensions := 0; journal := [] |}.

(** The value of a completion that is known to be normal. *)
Definition value (svc : Services)
    (c : Completion svc (IParsedChatRequest svc)) : IParsedChatRequest svc :=
  match c with
  | Normal r => r
  | Throw _ => {| parts := []; text := [] |}
  end.

Definition session : jsstring := lit "session".

Definition agentWithSubcommand : IParsedChatRequest demoServices :=
  Eval vm_compute in
    value (fst (parseChatRequest session (lit "!agentX /sub arg")
                  (quietRuntime demoServices []))).

Definition leaderAfterVariable : IParsedChatRequest demoServices :=
  Eval vm_compute in
    value (fst (parseChatRequest session (lit "#v!x")
                  (quietRuntime demoServices []))).

(** A dynamic reference anchored at line 1, column 4. *)
Definition fileReference : IDynamicReference (Data demoServices) :=
  {| reference_range :=
       {| startLineNumber := 1; startColumn := 4;
          endLineNumber := 1; endColumn := 16 |};
     reference_data := 7 |}.

(** * Further notions

    Notions used to state further properties of the parser. *)

(** One of the three leader characters. *)
Definition isLeader (c : char) : bool :=
  ((c =? chr "!") || (c =? chr "#") || (c =? chr "/"))%N.

(** The editor position after a character, as the scanner moves it: a line
    feed starts the next line at column 1, any other character moves one
    column to the right. *)
Definition advance (position : Position) (ch : char) : Position :=
  if (ch =? 10)%N
  then {| lineNumber := lineNumber position + 1; column := 1 |}
  else {| lineNumber := lineNumber position; column := column position + 1 |}.

(** The editor position of offset [i] of [message], counted from line 1,
    column 1. *)
Definition positionAt (message : jsstring) (i : nat) : Position :=
  fold_left advance (firstn i message) {| lineNumber := 1; column := 1 |}.

Section FurtherNotions.

Variable svc : Services.

(** A text part all of whose text is white space. *)
Definition isBlankTextPart (p : IParsedChatRequestPart svc) : bool :=
  match p with
  | ChatRequestTextPart _ _ text => forallb isWhiteSpace text
  | _ => false
  end.

(** The offset range of [p] lies within the message and, for a text part,
    the text it carries is the substring at that range. *)
Definition withinMessage (message : jsstring) (p : IParsedChatRequestPart svc)
    : Prop :=
  start (range p) <= length message /\
  endExclusive (range p) <= length message /\
  match p with
  | ChatRequestTextPart rg _ text =>
      text = slice message (start rg) (endExclusive rg)
  | _ => True
  end.

(** The editor range starts at [position], stays on its line and is [width]
    columns wide. *)
Definition onOneLine (r : Range) (position : Position) (width : nat) : Prop :=
  startLineNumber r = lineNumber position /\
  startColumn r = column position /\
  endLineNumber r = lineNumber position /\
  endColumn r = column position + width.

(** A part that may stand before an agent's sub-command: the agent part
    or a blank text part. *)
Definition agentOrBlank (p : IParsedChatRequestPart svc) : Prop :=
  isAgentPart p = true \/ isBlankTextPart p = true.

(** The shape the scanner keeps around agents and commands: an agent part is
    the first part or the second after a blank text part; a list with an agent
    part has no slash command part; before a sub-command part stand an agent
    part and otherwise blank text only. *)
Definition agentLeads (parts : list (IParsedChatRequestPart svc)) : Prop :=
  (forall k p, nth_error parts k = Some p -> isAgentPart p = true ->
     k = 0 \/ (k = 1 /\ exists q, nth_error parts 0 = Some q /\
                                   isBlankTextPart q = true)) /\
  (existsb (@isAgentPart svc) parts = true ->
   existsb (@isSlashCommandPart svc) parts = false) /\
  (forall k p, nth_error parts k = Some p -> isAgentSubcommandPart p = true ->
     Forall agentOrBlank (firstn k parts) /\
     existsb (@isAgentPart svc) (firstn k parts) = true).

End FurtherNotions.


(** [name] is a non-empty run of name characters, and [/name] stands in the
    message at the range [rg] moved right by some [k]. *)
Definition namedAt (message : jsstring) (rg : OffsetRange) (name : jsstring)
    : Prop :=
  name <> [] /\ forallb isNameChar name = true /\
  exists k, slice message (start rg + k) (endExclusive rg + k)
            = chatSubcommandLeader ++ name.


(** * The symbol list of the probe view
      (src/vs/workbench/contrib/aideProbe/browser/aideProbeSymbolInfo.ts)

    [AideProbeSymbolInfo] keeps an array [viewModel] of breakdown entries
    next to a list widget that displays them. The widget is created on the
    first [show]; the model records the calls it receives. Of an entry the
    class reads [uri.fsPath] and [name], which identify the symbol. *)

Module SymbolInfo.
Section SymbolInfo.

Variable IAideProbeBreakdownViewModel : Type.
Variable fsPath : IAideProbeBreakdownViewModel -> jsstring.
Variable name : IAideProbeBreakdownViewModel -> jsstring.

(** The calls [show], [updateSymbolInfo], [hide] and [layout] make on the
    list widget. *)
Inductive ListCall : Type :=
| Splice (start deleteCount : nat)
    (elements : list IAideProbeBreakdownViewModel)
| Rerender
| SetFocus (indexes : list nat)
| Layout.

(** [this.list] is [undefined] or the widget, given by the calls made on it
    so far; [this.isVisible] is [undefined], [true] or [false];
    [explanationsCleared] counts the calls of [explanationService.clear()]. *)
Record AideProbeSymbolInfo : Type := {
  this_list : option (list ListCall);
  this_viewModel : list IAideProbeBreakdownViewModel;
  this_isVisible : option bool;
  explanationsCleared : nat
}.

(** The object as the constructor leaves it. *)
Definition created : AideProbeSymbolInfo :=
  {| this_list := None; this_viewModel := []; this_isVisible := None;
     explanationsCleared := 0 |}.

(** [item.uri.fsPath === element.uri.fsPath && item.name === element.name] *)
Definition sameSymbol (item element : IAideProbeBreakdownViewModel) : bool :=
  jsstring_eqb (fsPath item) (fsPath element)
  && jsstring_eqb (name item) (name element).

(** The symbol an entry is for. *)
Definition symbolOf (item : IAideProbeBreakdownViewModel)
    : jsstring * jsstring :=
  (fsPath item, name item).

(** The callback of the [forEach] of [getSymbolInfoListIndex], on the pair
    of [matchIndex] and the index of the entry visited. *)
Definition visit (element : IAideProbeBreakdownViewModel) (acc : Z * nat)
    (item : IAideProbeBreakdownViewModel) : Z * nat :=
  (if sameSymbol item element then Z.of_nat (snd acc) else fst acc,
   S (snd acc)).

(** [getSymbolInfoListIndex]: the [forEach] visits every entry with its
    index and overwrites [matchIndex] at each entry that matches. *)
Definition getSymbolInfoListIndex
    (viewModel : list IAideProbeBreakdownViewModel)
    (element : IAideProbeBreakdownViewModel) : Z :=
  fst (fold_left (visit element) viewModel ((-1)%Z, 0)).

(** [viewModel[i] = x], for an index [i] below the length, which is where
    [updateSymbolInfo] assigns. *)
Definition assign (viewModel : list IAideProbeBreakdownViewModel) (i : nat)
    (x : IAideProbeBreakdownViewModel) : list IAideProbeBreakdownViewModel :=
  firstn i viewModel ++ x :: skipn (S i) viewModel.

(** The variables of [updateSymbolInfo] that its [forEach] changes. *)
Record Updating : Type := {
  upd_viewModel : list IAideProbeBreakdownViewModel;
  upd_calls : list ListCall;
  matchingIndex : Z
}.

(** The body of the [forEach] of [updateSymbolInfo]. *)
Definition updateOne (u : Updating) (symbol : IAideProbeBreakdownViewModel)
    : Updating :=
  let matchIndex := getSymbolInfoListIndex (upd_viewModel u) symbol in
  if (matchIndex =? -1)%Z then
    let viewModel := upd_viewModel u ++ [symbol] in
    {| upd_viewModel := viewModel;
       upd_calls := upd_calls u ++ [Splice (length viewModel - 1) 0 [symbol]];
       matchingIndex := matchIndex |}
  else
    {| upd_viewModel := assign (upd_viewModel u) (Z.to_nat matchIndex) symbol;
       upd_calls := upd_calls u ++ [Splice (Z.to_nat matchIndex) 1 [symbol]];
       matchingIndex := matchIndex |}.

(** [updateSymbolInfo]; [None] when [assertIsDefined(this.list)] throws. *)
Definition updateSymbolInfo (symbolInfo : list IAideProbeBreakdownViewModel)
    (this : AideProbeSymbolInfo) : option AideProbeSymbolInfo :=
  match this_list this with
  | None => None
  | Some calls =>
      let u :=
        if length (this_viewModel this) =? 0 then
          {| upd_viewModel := symbolInfo;
             upd_calls := calls ++ [Splice 0 0 symbolInfo];
             matchingIndex := -1 |}
        else
          fold_left updateOne symbolInfo
            {| upd_viewModel := this_viewModel this; upd_calls := calls;
               matchingIndex := -1 |} in
      let calls := upd_calls u ++ [Rerender] in
      let calls :=
        if negb (matchingIndex u =? -1)%Z
        then calls ++ [SetFocus [Z.to_nat (matchingIndex u)]]
        else calls in
      Some {| this_list := Some (calls ++ [Layout]);
              this_viewModel := upd_viewModel u;
              this_isVisible := this_isVisible this;
              explanationsCleared := explanationsCleared this |}
  end.

(** [if (this.isVisible)] *)
Definition truthy (b : option bool) : bool :=
  match b with Some true => true | _ => false end.

Definition show (this : AideProbeSymbolInfo) : AideProbeSymbolInfo :=
  if truthy (this_isVisible this) then this
  else
    {| this_list := match this_list this with
                    | None => Some []
                    | Some calls => Some calls
                    end;
       this_viewModel := this_viewModel this;
       this_isVisible := Some true;
       explanationsCleared := explanationsCleared this |}.

Definition hide (this : AideProbeSymbolInfo) : AideProbeSymbolInfo :=
  if negb (truthy (this_isVisible this)) then this
  else
    match this_list this with
    | None => this
    | Some calls =>
        {| this_list :=
             Some (calls ++ [Splice 0 (length (this_viewModel this)) []]);
           this_viewModel := [];
           this_isVisible := Some false;
           explanationsCleared := S (explanationsCleared this) |}
    end.

(** A use of the object: a sequence of calls of its three methods. A call
    that throws leaves the object as it was. *)
Inductive Call : Type :=
| Show
| UpdateSymbolInfo (symbolInfo : list IAideProbeBreakdownViewModel)
| Hide.

Definition throws (this : AideProbeSymbolInfo) (c : Call) : bool :=
  match c with
  | UpdateSymbolInfo symbolInfo =>
      match updateSymbolInfo symbolInfo this with
      | None => true
      | Some _ => false
      end
  | _ => false
  end.

Definition perform (this : AideProbeSymbolInfo) (c : Call)
    : AideProbeSymbolInfo :=
  match c with
  | Show => show this
  | UpdateSymbolInfo symbolInfo =>
      match updateSymbolInfo symbolInfo this with
      | None => this
      | Some this' => this'
      end
  | Hide => hide this
  end.

(** The rows of a widget that has received [calls], when its [splice] acts
    on the rows as [Array.prototype.splice] acts on an array. *)
Definition rows (calls : list ListCall) : list IAideProbeBreakdownViewModel :=
  fold_left
    (fun rows c =>
       match c with
       | Splice start deleteCount elements =>
           firstn start rows ++ elements ++ skipn (start + deleteCount) rows
       | _ => rows
       end)
    calls [].

(** The last entry of [symbolInfo] for the symbol of [element]. *)
Definition lastFor (symbolInfo : list IAideProbeBreakdownViewModel)
    (element : IAideProbeBreakdownViewModel)
    : option IAideProbeBreakdownViewModel :=
  find (fun s => sameSymbol s element) (rev symbolInfo).

(** The entry at [k] is the last one for the symbol of [e]. *)
Definition lastAt (l : list IAideProbeBreakdownViewModel)
    (e : IAideProbeBreakdownViewModel) (k : nat)
    (x : IAideProbeBreakdownViewModel) : Prop :=
  nth_error l k = Some x /\ sameSymbol x e = true /\
  forall j y, k < j -> nth_error l j = Some y -> sameSymbol y e = false.

(** The widget, once created, shows the view model; before, the view model
    is empty and nothing is visible. *)
Definition mirrored (this : AideProbeSymbolInfo) : Prop :=
  match this_list this with
  | Some calls => rows calls = this_viewModel this
  | None => this_viewModel this = [] /\ this_isVisible this = None
  end.

End SymbolInfo.

Arguments Rerender {IAideProbeBreakdownViewModel}.
Arguments SetFocus {IAideProbeBreakdownViewModel} indexes.
Arguments Layout {IAideProbeBreakdownViewModel}.
Arguments Show {IAideProbeBreakdownViewModel}.
Arguments Hide {IAideProbeBreakdownViewModel}.

End SymbolInfo.

(** * The event handler of the extension
      (src/vs/platform/codestoryAccount/common/csAccount.ts, [CSEventHandler])

    ** The recording session

    [_currentSession] is the array of context events recorded since the
    recording was last started or stopped. The telemetry call of
    [handleSymbolNavigation] does not touch it and is left out. *)

Module CSEventHandler.

(** [vscode.Position] and [vscode.Selection], as far as the handler reads
    them. *)
Module vscode.
Record Position : Type := { line : nat; character : nat }.
Record Selection : Type := {
  anchor : Position;
  active : Position;
  isReversed : bool
}.
End vscode.

(** The positions and ranges the handler builds for the sidecar. *)
Record SidecarRequestPosition : Type := {
  line : nat;
  character : nat;
  byteOffset : nat
}.

Record SidecarRequestRange : Type := {
  startPosition : SidecarRequestPosition;
  endPosition : SidecarRequestPosition
}.

(** A context event is an object with exactly one of the keys [OpenFile],
    [LSPContextEvent] and [Selection]. *)
Inductive SidecarContextEvent : Type :=
| OpenFile (fs_file_path : jsstring)
| LSPContextEvent (fs_file_path : jsstring)
    (position : SidecarRequestPosition) (event_type : jsstring)
| Selection (fs_file_path : jsstring) (range : SidecarRequestRange).

(** [event.Selection !== null && event.Selection !== undefined] *)
Definition hasSelection (event : SidecarContextEvent) : bool :=
  match event with Selection _ _ => true | _ => false end.

Definition selectionToSidecarRange (selection : vscode.Selection)
    : SidecarRequestRange :=
  if vscode.isReversed selection then
    {| startPosition :=
         {| line := vscode.line (vscode.active selection);
            character := vscode.character (vscode.active selection);
            byteOffset := 0 |};
       endPosition :=
         {| line := vscode.line (vscode.anchor selection);
            character := vscode.character (vscode.anchor selection);
            byteOffset := 0 |} |}
  else
    {| startPosition :=
         {| line := vscode.line (vscode.anchor selection);
            character := vscode.character (vscode.anchor selection);
            byteOffset := 0 |};
       endPosition :=
         {| line := vscode.line (vscode.active selection);
            character := vscode.character (vscode.active selection);
            byteOffset := 0 |} |}.

Definition startRecording (currentSession : list SidecarContextEvent)
    : list SidecarContextEvent :=
  [].

(** [stopRecording]: the events returned and the session left behind. *)
Definition stopRecording (currentSession : list SidecarContextEvent)
    : list SidecarContextEvent * list SidecarContextEvent :=
  (currentSession, []).

Definition onDidChangeTextDocument (filePath : jsstring)
    (currentSession : list SidecarContextEvent) : list SidecarContextEvent :=
  currentSession ++ [OpenFile filePath].

(** [onDidChangeTextDocumentSelection]. With an empty [selections] the
    argument [selections[0]] is [undefined] and [selectionToSidecarRange]
    throws on reading [isReversed], before the session is touched: the
    result is [None]. *)
Definition onDidChangeTextDocumentSelection (filePath : jsstring)
    (selections : list vscode.Selection)
    (currentSession : list SidecarContextEvent)
    : option (list SidecarContextEvent) :=
  match at_last currentSession with
  | None =>
      match selections with
      | [] => None
      | selection :: _ =>
          Some (currentSession
                  ++ [Selection filePath (selectionToSidecarRange selection)])
      end
  | Some lastEvent =>
      match selections with
      | [] => None
      | selection :: _ =>
          let currentSelectionRange := selectionToSidecarRange selection in
          match lastEvent with
          | Selection _ range =>
              if (line (startPosition range)
                    =? line (startPosition currentSelectionRange))
                 || (line (endPosition range)
                       =? line (endPosition currentSelectionRange))
              then Some (removelast currentSession
                           ++ [Selection filePath currentSelectionRange])
              else Some (currentSession
                           ++ [Selection filePath currentSelectionRange])
          | _ =>
              Some (currentSession
                      ++ [Selection filePath currentSelectionRange])
          end
      end
  end.

Section SymbolNavigation.

(** [getSymbolNavigationActionTypeLabel] belongs to the utilities of the
    extension, which are not among the sources; the handler stores the label
    it returns. *)
Variable SymbolNavigationActionType : Type.
Variable getSymbolNavigationActionTypeLabel
  : SymbolNavigationActionType -> jsstring.

Record SymbolNavigationEvent : Type := {
  uri_fsPath : jsstring;
  position : vscode.Position;
  action : SymbolNavigationActionType
}.

Definition handleSymbolNavigation (event : SymbolNavigationEvent)
    (currentSession : list SidecarContextEvent) : list SidecarContextEvent :=
  currentSession
    ++ [LSPContextEvent (uri_fsPath event)
          {| line := vscode.line (position event);
             character := vscode.character (position event);
             byteOffset := 0 |}
          (getSymbolNavigationActionTypeLabel (action event))].

(** The calls that record into the session. A call that throws leaves the
    session as it was. *)
Inductive Call : Type :=
| HandleSymbolNavigation (event : SymbolNavigationEvent)
| OnDidChangeTextDocument (filePath : jsstring)
| OnDidChangeTextDocumentSelection (filePath : jsstring)
    (selections : list vscode.Selection).

Definition perform (currentSession : list SidecarContextEvent) (c : Call)
    : list SidecarContextEvent :=
  match c with
  | HandleSymbolNavigation event => handleSymbolNavigation event currentSession
  | OnDidChangeTextDocument filePath =>
      onDidChangeTextDocument filePath currentSession
  | OnDidChangeTextDocumentSelection filePath selections =>
      match onDidChangeTextDocumentSelection filePath selections
              currentSession with
      | Some session => session
      | None => currentSession
      end
  end.

(** The event a call records whatever the session holds. *)
Definition recorded (c : Call) : list SidecarContextEvent :=
  match c with
  | HandleSymbolNavigation event => handleSymbolNavigation event []
  | OnDidChangeTextDocument filePath => onDidChangeTextDocument filePath []
  | OnDidChangeTextDocumentSelection _ _ => []
  end.

(** A selection change with the one selection [selection] in the file
    [filePath]. *)
Definition select (change : jsstring * vscode.Selection) : Call :=
  OnDidChangeTextDocumentSelection (fst change) [snd change].

End SymbolNavigation.

(** Two ranges start on the same line or end on the same line. *)
Definition sharesLine (a b : SidecarRequestRange) : bool :=
  (line (startPosition a) =? line (startPosition b))
  || (line (endPosition a) =? line (endPosition b)).

(** Each selection of the list shares a line with the one before it, as
    when a selection is dragged. *)
Fixpoint dragged (first : vscode.Selection)
    (changes : list (jsstring * vscode.Selection)) : bool :=
  match changes with
  | [] => true
  | change :: changes' =>
      sharesLine (selectionToSidecarRange first)
        (selectionToSidecarRange (snd change))
      && dragged (snd change) changes'
  end.

(** ** Usage events

    The handler keeps the usage events that were not yet delivered in the
    global state of the extension and posts them to the subscription
    service, again after a delay when the service answers 401. The model
    follows one call of [handleAgentCodeEdit] with the timers it sets, and
    nothing else touching the global state meanwhile. Console output is
    left out. *)

Inductive UsageType : Type :=
| InlineCompletion
| ChatRequest
| InlineCodeEdit
| AgenticCodeEdit.

Definition MAX_RETRIES : nat := 5.
Definition RETRY_DELAY_MS : N := 1000.

Record CSAuthenticationSession : Type := { accessToken : jsstring }.

(** What [vscode.csAuthentication.getSession()] comes to: a session,
    [undefined], or a rejection. *)
Inductive Authentication : Type :=
| SessionFound (session : CSAuthenticationSession)
| SessionMissing
| SessionFails.

(** Of the response of [fetch] the handler reads [ok] and [status]. *)
Record Response : Type := { ok : bool; status : nat }.

Inductive Fetch : Type :=
| Responds (response : Response)
| FetchThrows.

(** The surroundings of the handler, attempt by attempt: what
    [getSession], [fetch] and the command [codestory.refreshTokens] (true
    when it completes, false when it throws) do at the attempt with a given
    [retryCount]. *)
Record World : Type := {
  getSession : nat -> Authentication;
  fetch : nat -> Fetch;
  refreshTokens : nat -> bool
}.

Section UsageEvents.

(** The numbers and dates of JavaScript, with the addition of numbers. *)
Variable Number : Type.
Variable plus : Number -> Number -> Number.
Variable Date : Type.

Record UsageRequest : Type := {
  type : UsageType;
  units : Number;
  timestamp : Date
}.

(** What the handler does to its surroundings, in order. *)
Inductive Effect : Type :=
| Post (accessToken : jsstring) (events : list UsageRequest)
| RefreshTokens
| Update (events : list UsageRequest)
| SetTimeout (delay : N).

(** [sendUsageEvent]: whether the events count as sent, and the effects. *)
Definition sendUsageEvent (world : World) (events : list UsageRequest)
    (session : CSAuthenticationSession) (retryCount : nat)
    : bool * list Effect :=
  match fetch world retryCount with
  | Responds response =>
      if ok response then (true, [Post (accessToken session) events])
      else if status response =? 401 then
        if refreshTokens world retryCount
        then (false, [Post (accessToken session) events; RefreshTokens])
        else (true, [Post (accessToken session) events; RefreshTokens])
      else (true, [Post (accessToken session) events])
  | FetchThrows => (true, [Post (accessToken session) events])
  end.

(** [sendUsageEventsWithRetry], followed through the timers it sets.
    [rounds] bounds the number of attempts followed;
    [MAX_RETRIES - retryCount] of them are all there are. *)
Fixpoint sendUsageEventsWithRetry (rounds : nat) (world : World)
    (events : list UsageRequest) (retryCount : nat) : list Effect :=
  match rounds with
  | 0 => []
  | S rounds' =>
      if MAX_RETRIES <=? retryCount then []
      else
        match getSession world retryCount with
        | SessionFails => []
        | SessionMissing => []
        | SessionFound session =>
            let (success, effects) :=
              sendUsageEvent world events session retryCount in
            if success then effects ++ [Update []]
            else
              let delay := (RETRY_DELAY_MS * 2 ^ N.of_nat retryCount)%N in
              effects ++ [SetTimeout delay]
                ++ sendUsageEventsWithRetry rounds' world events
                     (retryCount + 1)
        end
  end.

Definition sendUsageEvents (world : World) (events : list UsageRequest)
    : list Effect :=
  sendUsageEventsWithRetry (S MAX_RETRIES) world events 0.

Record AgentCodeEdit : Type := {
  accepted : bool;
  added : Number;
  removed : Number
}.

(** [handleAgentCodeEdit], at the date [now], with [persisted] under
    [USAGE_EVENTS_KEY] in the global state ([None] when nothing is). *)
Definition handleAgentCodeEdit (world : World) (now : Date)
    (event : AgentCodeEdit) (persisted : option (list UsageRequest))
    : list Effect :=
  if negb (accepted event) then []
  else
    let usageRequest :=
      {| type := AgenticCodeEdit;
         units := plus (added event) (removed event);
         timestamp := now |} in
    let persistedEvents :=
      match persisted with
      | Some events => events
      | None => []
      end ++ [usageRequest] in
    Update persistedEvents :: sendUsageEvents world persistedEvents.

(** The value under [USAGE_EVENTS_KEY] after the effects. *)
Definition stored (persisted : option (list UsageRequest))
    (effects : list Effect) : option (list UsageRequest) :=
  fold_left (fun value effect =>
               match effect with
               | Update events => Some events
               | _ => value
               end) effects persisted.

Definition posts (effects : list Effect)
    : list (jsstring * list UsageRequest) :=
  flat_map (fun effect => match effect with
                          | Post token events => [(token, events)]
                          | _ => []
                          end) effects.

Definition delays (effects : list Effect) : list N :=
  flat_map (fun effect => match effect with
                          | SetTimeout delay => [delay]
                          | _ => []
                          end) effects.

End UsageEvents.

Arguments RefreshTokens {Number Date}.
Arguments SetTimeout {Number Date} delay.

(** At the attempt [retryCount] there is a session and the service answers
    401 and the tokens are refreshed: the attempt is made again later. *)
Definition retried (world : World) (retryCount : nat) : bool :=
  match getSession world retryCount, fetch world retryCount with
  | SessionFound _, Responds response =>
      negb (ok response) && (status response =? 401)
      && refreshTokens world retryCount
  | _, _ => false
  end.

(** At the attempt [retryCount] there is a session and the attempt is not
    made again: the service accepted the events, or answered with another
    status than 401, or the request or the refreshing of the tokens
    failed. *)
Definition concluded (world : World) (retryCount : nat) : bool :=
  match getSession world retryCount with
  | SessionFound _ => negb (retried world retryCount)
  | _ => false
  end.

End CSEventHandler.

(** * Running a command
      (src/vs/platform/codestoryAccount/common/csAccount.ts, [runCommandAsync])

    [runCommandAsync] spawns a child process and returns a promise that its
    listeners settle. The model follows the listeners through the events of
    the child. A promise is settled once: [resolve] and [reject] on a
    settled promise do nothing. *)

Module RunCommand.
Section RunCommand.

(** The error object of an [error] event of the child. *)
Variable SpawnError : Type.

(** The events of the child that [runCommandAsync] listens to: data on
    [stdout] and on [stderr], given as the string that [+=] appends; [close]
    with the exit code, which is [null] when a signal ended the child; and
    [error]. *)
Inductive ChildEvent : Type :=
| StdoutData (data : jsstring)
| StderrData (data : jsstring)
| Close (code : option Z)
| Error (error : SpawnError).

Record Result : Type := {
  result_stdout : jsstring;
  result_stderr : jsstring;
  exitCode : option Z
}.

(** The reason of a rejection: the error of the child, or the [Error] made
    on [close], whose message carries the code and the error output. *)
Inductive Reason : Type :=
| ExitedWithCode (code : option Z) (stderr : jsstring)
| Spawn (error : SpawnError).

Inductive Settlement : Type :=
| Resolved (result : Result)
| Rejected (reason : Reason).

(** The variables [stdout] and [stderr] of the executor, and the state of
    the promise: [None] while it is pending. *)
Record State : Type := {
  stdout : jsstring;
  stderr : jsstring;
  settled : option Settlement
}.

Definition started : State :=
  {| stdout := []; stderr := []; settled := None |}.

(** [resolve(x)] or [reject(x)] *)
Definition settle (s : Settlement) (st : State) : State :=
  {| stdout := stdout st; stderr := stderr st;
     settled := match settled st with
                | None => Some s
                | Some earlier => Some earlier
                end |}.

(** The four listeners. *)
Definition listen (st : State) (event : ChildEvent) : State :=
  match event with
  | StdoutData data =>
      {| stdout := stdout st ++ data; stderr := stderr st;
         settled := settled st |}
  | StderrData data =>
      {| stdout := stdout st; stderr := stderr st ++ data;
         settled := settled st |}
  | Close code =>
      match code with
      | Some 0%Z =>
          settle (Resolved {| result_stdout := stdout st;
                              result_stderr := stderr st;
                              exitCode := code |}) st
      | _ => settle (Rejected (ExitedWithCode code (stderr st))) st
      end
  | Error error => settle (Rejected (Spawn error)) st
  end.

Definition runCommandAsync (events : list ChildEvent) : State :=
  fold_left listen events started.

(** [close] and [error] are the events on which the promise is settled. *)
Definition isExit (event : ChildEvent) : bool :=
  match event with
  | Close _ | Error _ => true
  | _ => false
  end.

(** The output on [stdout] and on [stderr] among the events. *)
Definition outputOf (events : list ChildEvent) : jsstring :=
  flat_map (fun event => match event with
                         | StdoutData data => data
                         | _ => []
                         end) events.

Definition errorOutputOf (events : list ChildEvent) : jsstring :=
  flat_map (fun event => match event with
                         | StderrData data => data
                         | _ => []
                         end) events.

(** What the promise is settled with on the exit event [event], after the
    events [before]. *)
Definition outcome (before : list ChildEvent) (event : ChildEvent)
    : option Settlement :=
  match event with
  | Close (Some 0%Z) =>
      Some (Resolved {| result_stdout := outputOf before;
                        result_stderr := errorOutputOf before;
                        exitCode := Some 0%Z |})
  | Close code => Some (Rejected (ExitedWithCode code (errorOutputOf before)))
  | Error error => Some (Rejected (Spawn error))
  | _ => None
  end.

End RunCommand.

Arguments StdoutData {SpawnError} data.
Arguments StderrData {SpawnError} data.
Arguments Close {SpawnError} code.
Arguments Resolved {SpawnError} result.

End RunCommand.

(** * The height of the explanation widget
      (src/vs/workbench/contrib/aideProbe/browser/aideProbeExplanationWidget.ts,
      [getExtraLines]) *)

Module ExplanationWidget.

(** [text.split(/\r\n|\r|\n/)]: the pieces of [text] between its line
    terminators, where a carriage return followed by a line feed is one
    terminator. [line] is the piece being read. *)
Fixpoint split (text line : jsstring) : list jsstring :=
  match text with
  | [] => [line]
  | c :: rest =>
      if (c =? 13)%N then
        match rest with
        | d :: rest' =>
            if (d =? 10)%N then line :: split rest' []
            else line :: split rest []
        | [] => line :: split rest []
        end
      else if (c =? 10)%N then line :: split rest []
      else split rest (line ++ [c])
  end.

(** The content of the widget: the [value] of the markdown strings [query]
    and [response], where they are defined. *)
Record Content : Type := {
  query : option jsstring;
  response : option jsstring
}.

Definition textToCountLines (content : Content) : jsstring :=
  match response content with
  | Some value => value
  | None =>
      match query content with
      | Some value => value
      | None => []
      end
  end.

Definition getExtraLines (content : Content) : nat :=
  let lines := length (split (textToCountLines content) []) in
  if 20 <? lines then lines / 20 else 0.

(** The line terminators. *)
Definition isLineTerminator (c : char) : bool := ((c =? 13) || (c =? 10))%N.

End ExplanationWidget.

(** * Further instances *)

Definition slashCommandRequest : IParsedChatRequest demoServices :=
  Eval vm_compute in
    value (fst (parseChatRequest session (lit "/foo bar")
                  (quietRuntime demoServices []))).

Definition variableRequest : IParsedChatRequest demoServices :=
  Eval vm_compute in
    value (fst (parseChatRequest session (lit "see #myvar:12 now")
                  (quietRuntime demoServices []))).

Definition referenceRequest : IParsedChatRequest demoServices :=
  Eval vm_compute in
    value (fst (parseChatRequest session (lit "ab #file:a.ts")
                  (quietRuntime demoServices [fileReference]))).

Definition variableThenCommand : IParsedChatRequest demoServices :=
  Eval vm_compute in
    value (fst (parseChatRequest session (lit "#v #f:x /foo")
                  (quietRuntime demoServices []))).

(** Entries of the symbol list: a path, a name and a revision. *)
Definition Entry : Type := (jsstring * jsstring) * nat.
Definition entry_fsPath (e : Entry) : jsstring := fst (fst e).
Definition entry_name (e : Entry) : jsstring := snd (fst e).

Definition firstEntries : list Entry :=
  [((lit "a.ts", lit "f"), 1); ((lit "a.ts", lit "g"), 1)].

Definition laterEntries : list Entry :=
  [((lit "a.ts", lit "f"), 2); ((lit "b.ts", lit "f"), 1);
   ((lit "a.ts", lit "f"), 3)].

Definition shownWithEntries : SymbolInfo.AideProbeSymbolInfo Entry :=
  Eval vm_compute in
    SymbolInfo.perform entry_fsPath entry_name
      (SymbolInfo.show (SymbolInfo.created Entry))
      (SymbolInfo.UpdateSymbolInfo firstEntries).

Definition updatedEntries : SymbolInfo.AideProbeSymbolInfo Entry :=
  Eval vm_compute in
    SymbolInfo.perform entry_fsPath entry_name shownWithEntries
      (SymbolInfo.UpdateSymbolInfo laterEntries).

Definition listHistory : list (SymbolInfo.Call Entry) :=
  [SymbolInfo.Show; SymbolInfo.UpdateSymbolInfo firstEntries;
   SymbolInfo.UpdateSymbolInfo laterEntries; SymbolInfo.Hide;
   SymbolInfo.UpdateSymbolInfo laterEntries].

Definition listCalls : list (SymbolInfo.ListCall Entry) :=
  Eval vm_compute in
    match SymbolInfo.this_list
            (fold_left (SymbolInfo.perform entry_fsPath entry_name)
               listHistory (SymbolInfo.created Entry)) with
    | Some calls => calls
    | None => []
    end.

(** A selection from [(line, 0)] to [(line', 0)]. *)
Definition lines (line line' : nat) : CSEventHandler.vscode.Selection :=
  {| CSEventHandler.vscode.anchor :=
       {| CSEventHandler.vscode.line := line;
          CSEventHandler.vscode.character := 0 |};
     CSEventHandler.vscode.active :=
       {| CSEventHandler.vscode.line := line';
          CSEventHandler.vscode.character := 0 |};
     CSEventHandler.vscode.isReversed := false |}.

(** * Properties *)

Unset Implicit Arguments.

(** ** Strings and regular expressions *)

Lemma jsstring_eqb_eq (a b : jsstring) : jsstring_eqb a b = true <-> a = b.
Proof.
  revert b. induction a as [|x a IH]; destruct b as [|y b]; simpl;
    try (split; [discriminate | discriminate]); [tauto|].
  rewrite andb_true_iff, N.eqb_eq, IH. split.
  - intros [-> ->]. reflexivity.
  - intros H. inversion H. auto.
Qed.

Lemma isEmpty_true (s : jsstring) : isEmpty s = true -> s = [].
Proof. destruct s; [reflexivity | discriminate]. Qed.

Lemma trimStart_nil (s : jsstring) :
  trimStart s = [] -> forallb isWhiteSpace s = true.
Proof.
  induction s as [|c s IH]; simpl; [reflexivity|].
  destruct (isWhiteSpace c); [exact IH | discriminate].
Qed.

Lemma trimStart_blank (s : jsstring) :
  forallb isWhiteSpace (trimStart s) = true -> forallb isWhiteSpace s = true.
Proof.
  induction s as [|c s IH]; simpl; [reflexivity|].
  destruct (isWhiteSpace c) eqn:E; [exact IH|]. simpl. rewrite E. discriminate.
Qed.

Lemma forallb_rev A (f : A -> bool) (l : list A) :
  forallb f (rev l) = forallb f l.
Proof.
  induction l as [|x l IH]; simpl; [reflexivity|].
  rewrite forallb_app, IH. simpl. rewrite andb_true_r. apply andb_comm.
Qed.

(** [s.trim() === ''] exactly when [s] consists of white space. *)
Lemma trim_nil (s : jsstring) :
  trim s = [] -> forallb isWhiteSpace s = true.
Proof.
  unfold trim. intros H.
  apply (f_equal (@rev char)) in H. rewrite rev_involutive in H. simpl in H.
  apply trimStart_nil in H. rewrite forallb_rev in H.
  apply trimStart_blank. exact H.
Qed.

Lemma blank_trim (s : jsstring) :
  forallb isWhiteSpace s = true -> trim s = [].
Proof.
  intros H. unfold trim.
  assert (E : trimStart s = []).
  { induction s as [|c s IH]; simpl in *; [reflexivity|].
    apply andb_true_iff in H as [-> H]. auto. }
  rewrite E. reflexivity.
Qed.

Lemma charAt_nat (s : jsstring) (i : nat) :
  charAt s (Z.of_nat i) = match nth_error s i with Some c => [c] | None => [] end.
Proof.
  unfold charAt. destruct (Z.ltb_spec (Z.of_nat i) 0); [lia|].
  rewrite Nat2Z.id. reflexivity.
Qed.

Lemma charAt_before (s : jsstring) (i : nat) :
  charAt s (Z.of_nat (S i) - 1) = charAt s (Z.of_nat i).
Proof. f_equal. lia. Qed.

Lemma atWordStart_S (s : jsstring) (j : nat) :
  atWordStart s (S j) = true ->
  exists d, nth_error s j = Some d /\ isWhiteSpace d = true.
Proof.
  unfold atWordStart. rewrite charAt_before, charAt_nat, orb_false_r.
  destruct (nth_error s j) as [d|]; simpl; [|discriminate].
  rewrite orb_false_r. eauto.
Qed.

Ltac class_facts :=
  repeat match goal with
  | H : _ || _ = true |- _ => apply orb_true_iff in H
  | H : _ && _ = true |- _ => apply andb_true_iff in H
  | H : _ \/ _ |- _ => destruct H
  | H : _ /\ _ |- _ => destruct H
  | H : (_ <=? _)%N = true |- _ => apply N.leb_le in H
  | H : (_ =? _)%N = true |- _ => apply N.eqb_eq in H
  end.

Lemma whitespace_not_name c : isWhiteSpace c = true -> isNameChar c = false.
Proof.
  intros H. destruct (isNameChar c) eqn:E; [exfalso|reflexivity].
  unfold isWhiteSpace, isNameChar, isWordChar, isDigit, in_range in *.
  class_facts; lia.
Qed.

Lemma whitespace_not_leader c :
  isWhiteSpace c = true ->
  jsstring_eqb [c] chatFileVariableLeader = false /\
  jsstring_eqb [c] chatAgentLeader = false /\
  jsstring_eqb [c] chatSubcommandLeader = false.
Proof.
  intros H. unfold isWhiteSpace, in_range in H. simpl.
  rewrite !andb_true_r.
  repeat split; apply N.eqb_neq; intros ->; vm_compute in H; discriminate.
Qed.

Lemma greedy_some A lo n (f : nat -> option A) r :
  greedy lo n f = Some r -> exists j, lo <= j <= n /\ f j = Some r.
Proof.
  induction n as [|n IH]; simpl.
  - destruct (0 <? lo) eqn:E; [discriminate|]. apply Nat.ltb_ge in E.
    destruct (f 0) eqn:F; [|discriminate]. intros [= <-]. exists 0. split; [lia | exact F].
  - destruct (S n <? lo) eqn:E; [discriminate|]. apply Nat.ltb_ge in E.
    destruct (f (S n)) eqn:F.
    + intros [= <-]. exists (S n). split; [lia | exact F].
    + intros H. apply IH in H as (j & Hj & Hf). exists j. split; [lia | exact Hf].
Qed.

Lemma setCapture_length k v c : length (setCapture k v c) = length c.
Proof.
  revert k. induction c as [|x c IH]; intros [|k]; simpl; auto.
Qed.

Lemma setCapture_captured k v c idx :
  captured c idx -> captured (setCapture k v c) idx.
Proof.
  revert k idx. induction c as [|x c IH]; intros [|k] [|idx] [w Hw]; simpl in *;
    try discriminate; try (exists w; exact Hw).
  - exists v. reflexivity.
  - apply IH. exists w. exact Hw.
Qed.

Lemma setCapture_sets k v c : k < length c -> captured (setCapture k v c) k.
Proof.
  revert k. induction c as [|x c IH]; intros [|k] Hk; simpl in *; try lia.
  - exists v. reflexivity.
  - apply IH. lia.
Qed.

(** A successful run of [exec] has called its continuation, with captures
    that extend the initial ones and contain every group that [r] always
    sets. *)
Lemma exec_continues r : forall s pos caps k e,
  exec r s pos caps k = Some e ->
  exists p c,
    k p c = Some e /\ length c = length caps /\
    (forall idx, captured caps idx -> captured c idx) /\
    (forall idx, alwaysCaptures r idx = true -> idx < length caps ->
                 captured c idx).
Proof.
  induction r as [ | | |ch|cl|cl|cl|r1 IH1|r1 IH1 r2 IH2|r1 IH1 r2 IH2|g r1 IH1|r1 IH1];
    intros s pos caps k e H; simpl in H.
  - destruct (pos =? 0); [|discriminate]. exists pos, caps. simpl. intuition discriminate.
  - destruct (pos =? length s); [|discriminate]. exists pos, caps. simpl. intuition discriminate.
  - destruct (xorb _ _); [|discriminate]. exists pos, caps. simpl. intuition discriminate.
  - destruct (nth_error s pos); [|discriminate]. destruct (_ =? _)%N; [|discriminate].
    exists (S pos), caps. simpl. intuition discriminate.
  - destruct (nth_error s pos); [|discriminate]. destruct (cl c); [|discriminate].
    exists (S pos), caps. simpl. intuition discriminate.
  - apply greedy_some in H as (j & _ & H). exists (pos + j), caps. simpl. intuition discriminate.
  - apply greedy_some in H as (j & _ & H). exists (pos + j), caps. simpl. intuition discriminate.
  - destruct (exec r1 s pos caps k) eqn:E.
    + injection H as ->. apply IH1 in E as (p & c & Hk & Hl & Hm & _).
      exists p, c. simpl. intuition discriminate.
    + exists pos, caps. simpl. intuition discriminate.
  - destruct (exec r1 s pos caps k) eqn:E.
    + injection H as ->. apply IH1 in E as (p & c & Hk & Hl & Hm & Ha).
      exists p, c. simpl. repeat split; auto.
      intros idx Hi. apply andb_true_iff in Hi as [Hi _]. auto.
    + apply IH2 in H as (p & c & Hk & Hl & Hm & Ha).
      exists p, c. simpl. repeat split; auto.
      intros idx Hi. apply andb_true_iff in Hi as [_ Hi]. auto.
  - apply IH1 in H as (p1 & c1 & Hk1 & Hl1 & Hm1 & Ha1).
    apply IH2 in Hk1 as (p2 & c2 & Hk2 & Hl2 & Hm2 & Ha2).
    exists p2, c2. simpl. repeat split; auto; try congruence.
    intros idx Hi Hlt. apply orb_true_iff in Hi as [Hi|Hi].
    + apply Hm2, Ha1; auto.
    + apply Ha2; auto. congruence.
  - apply IH1 in H as (p1 & c1 & Hk1 & Hl1 & Hm1 & Ha1).
    exists p1, (setCapture (g - 1) (slice s pos p1) c1). simpl.
    rewrite setCapture_length. repeat split; auto.
    + intros idx Hi. apply setCapture_captured. auto.
    + intros idx Hi Hlt. apply orb_true_iff in Hi as [Hi|Hi].
      * apply Nat.eqb_eq in Hi. subst idx. apply setCapture_sets. congruence.
      * apply setCapture_captured. auto.
  - destruct (exec r1 s pos caps (fun p c => Some (p, c))) as [[p0 c0]|] eqn:E;
      [|discriminate].
    apply IH1 in E as (p & c & Hk & Hl & Hm & Ha). injection Hk as -> ->.
    exists pos, c0. simpl. repeat split; auto.
Qed.

Lemma searchFrom_captures r ngroups s fuel start m idx :
  searchFrom r ngroups s fuel start = Some m ->
  alwaysCaptures r idx = true -> idx < ngroups ->
  captured (groups m) idx.
Proof.
  revert start. induction fuel as [|fuel IH]; intros start H Ha Hlt; simpl in H.
  - destruct (exec _ _ _ _ _) as [[e c]|] eqn:E; [|discriminate].
    injection H as <-. simpl.
    apply exec_continues in E as (p & c' & Hk & Hl & _ & Hc).
    injection Hk as -> ->. apply Hc; auto. rewrite repeat_length. exact Hlt.
  - destruct (exec _ _ _ _ _) as [[e c]|] eqn:E; [|eapply IH; eauto].
    injection H as <-. simpl.
    apply exec_continues in E as (p & c' & Hk & Hl & _ & Hc).
    injection Hk as -> ->. apply Hc; auto. rewrite repeat_length. exact Hlt.
Qed.

(** In each of the four patterns the first group always takes part in a
    match, so destructuring [[full, name] = match] yields a string. *)
Lemma group1_defined r ngroups s m :
  In (r, ngroups)
    [(agentReg, 2); (variableReg, 3); (slashReg, 2); (variableWithArgReg, 3)] ->
  regexMatch r ngroups s = Some m ->
  group m 1 = Some (capture m 1).
Proof.
  intros Hin H. unfold regexMatch in H.
  assert (Hc : captured (groups m) 0).
  { simpl in Hin.
    destruct Hin as [E|[E|[E|[E|[]]]]]; injection E as <- <-;
      (eapply searchFrom_captures; [exact H | reflexivity | lia]). }
  destruct Hc as [v Hv]. unfold capture, group.
  change (1 - 1) with 0. rewrite Hv. reflexivity.
Qed.

Lemma runLength_spec p (l : jsstring) j :
  j < runLength p l -> exists ch, nth_error l j = Some ch /\ p ch = true.
Proof.
  revert j. induction l as [|c l IH]; simpl; intros j Hj; [lia|].
  destruct (p c) eqn:E; [|lia].
  destruct j as [|j]; simpl; [eauto | apply IH; lia].
Qed.

Lemma runLength_le p (l : jsstring) : runLength p l <= length l.
Proof.
  induction l as [|c l IH]; simpl; [lia|]. destruct (p c); lia.
Qed.

(** A successful run of [exec] from [pos] calls its continuation at a
    position [p] such that the characters of [[pos, p)] are among those that
    [r] consumes and are at least [minLength r] many. *)
Lemma exec_span r : forall s pos caps k e,
  exec r s pos caps k = Some e ->
  pos <= length s ->
  exists p c,
    k p c = Some e /\ pos + minLength r <= p /\ p <= length s /\
    (forall j, pos <= j < p ->
       exists ch, nth_error s j = Some ch /\ consumes r ch = true).
Proof.
  induction r as [ | | |ch|cl|cl|cl|r1 IH1|r1 IH1 r2 IH2|r1 IH1 r2 IH2|g r1 IH1|r1 IH1];
    intros s pos caps k e H Hpos; simpl in H.
  - destruct (pos =? 0); [|discriminate]. exists pos, caps. simpl.
    repeat split; auto; try lia; try (intros; lia).
  - destruct (pos =? length s); [|discriminate]. exists pos, caps. simpl.
    repeat split; auto; try lia; try (intros; lia).
  - destruct (xorb _ _); [|discriminate]. exists pos, caps. simpl.
    repeat split; auto; try lia; try (intros; lia).
  - destruct (nth_error s pos) as [d|] eqn:E; [|discriminate].
    destruct (N.eqb_spec d ch); [|discriminate]. subst d.
    assert (pos < length s) by (apply nth_error_Some; congruence).
    exists (S pos), caps. simpl. repeat split; auto; try lia.
    intros j Hj. assert (j = pos) as -> by lia. exists ch.
    rewrite N.eqb_refl. auto.
  - destruct (nth_error s pos) as [d|] eqn:E; [|discriminate].
    destruct (cl d) eqn:Ecl; [|discriminate].
    assert (pos < length s) by (apply nth_error_Some; congruence).
    exists (S pos), caps. simpl. repeat split; auto; try lia.
    intros j Hj. assert (j = pos) as -> by lia. eauto.
  - apply greedy_some in H as (n & Hn & H).
    pose proof (runLength_le cl (skipn pos s)) as Hle. rewrite length_skipn in Hle.
    exists (pos + n), caps. simpl. repeat split; auto; try lia.
    intros j Hj.
    destruct (runLength_spec cl (skipn pos s) (j - pos) ltac:(lia)) as (c & Hc & Hp).
    rewrite nth_error_skipn in Hc. replace (pos + (j - pos)) with j in Hc by lia. eauto.
  - apply greedy_some in H as (n & Hn & H).
    pose proof (runLength_le cl (skipn pos s)) as Hle. rewrite length_skipn in Hle.
    exists (pos + n), caps. simpl. repeat split; auto; try lia.
    intros j Hj.
    destruct (runLength_spec cl (skipn pos s) (j - pos) ltac:(lia)) as (c & Hc & Hp).
    rewrite nth_error_skipn in Hc. replace (pos + (j - pos)) with j in Hc by lia. eauto.
  - destruct (exec r1 s pos caps k) eqn:E.
    + injection H as ->. apply IH1 in E as (p & c & Hk & Hmin & Hmax & Hch); auto.
      exists p, c. simpl. repeat split; auto. lia.
    + exists pos, caps. simpl. repeat split; auto; try lia; try (intros; lia).
  - destruct (exec r1 s pos caps k) eqn:E.
    + injection H as ->. apply IH1 in E as (p & c & Hk & Hmin & Hmax & Hch); auto.
      exists p, c. simpl. repeat split; auto; [lia|].
      intros j Hj. destruct (Hch j Hj) as (x & Hx & Hcx). exists x.
      rewrite Hcx. auto.
    + apply IH2 in H as (p & c & Hk & Hmin & Hmax & Hch); auto.
      exists p, c. simpl. repeat split; auto; [lia|].
      intros j Hj. destruct (Hch j Hj) as (x & Hx & Hcx). exists x.
      rewrite Hcx, orb_true_r. auto.
  - apply IH1 in H as (p1 & c1 & Hk1 & Hmin1 & Hmax1 & Hch1); auto.
    apply IH2 in Hk1 as (p2 & c2 & Hk2 & Hmin2 & Hmax2 & Hch2); [|lia].
    exists p2, c2. simpl. repeat split; auto; [lia|].
    intros j Hj. destruct (Nat.lt_ge_cases j p1) as [Hlt|Hge].
    + destruct (Hch1 j ltac:(lia)) as (x & Hx & Hcx). exists x. rewrite Hcx. auto.
    + destruct (Hch2 j ltac:(lia)) as (x & Hx & Hcx). exists x.
      rewrite Hcx, orb_true_r. auto.
  - apply IH1 in H as (p1 & c1 & Hk1 & Hmin1 & Hmax1 & Hch1); auto.
    exists p1, (setCapture (g - 1) (slice s pos p1) c1). simpl. auto.
  - destruct (exec r1 s pos caps (fun p c => Some (p, c))) as [[p0 c0]|] eqn:E;
      [|discriminate].
    exists pos, c0. simpl. repeat split; auto; try lia; try (intros; lia).
Qed.

(** What [searchFrom] returns is a match found at its [index]. *)
Lemma searchFrom_found r ngroups s fuel : forall start m,
  searchFrom r ngroups s fuel start = Some m ->
  exists e c,
    exec r s (index m) (repeat None ngroups) (fun p c => Some (p, c))
      = Some (e, c) /\
    start <= index m <= start + fuel /\
    full m = slice s (index m) e.
Proof.
  induction fuel as [|fuel IH]; intros start m H; simpl in H.
  - destruct (exec _ _ _ _ _) as [[e c]|] eqn:E; [|discriminate].
    injection H as <-. simpl. exists e, c. repeat split; auto; lia.
  - destruct (exec _ _ _ _ _) as [[e c]|] eqn:E.
    + injection H as <-. simpl. exists e, c. repeat split; auto; lia.
    + apply IH in H as (e & c & He & Hi & Hf). exists e, c.
      repeat split; auto; lia.
Qed.

(** The text of a match: at least [minLength r] characters of the string,
    starting at [index], all of them consumed by [r]. *)
Lemma regexMatch_span r ngroups s m :
  regexMatch r ngroups s = Some m ->
  minLength r <= length (full m) /\
  index m + length (full m) <= length s /\
  full m = slice s (index m) (index m + length (full m)) /\
  Forall (fun ch => consumes r ch = true) (full m).
Proof.
  unfold regexMatch. intros H.
  apply searchFrom_found in H as (e & c & He & Hi & Hf).
  apply exec_span in He as (p & c' & Hk & Hmin & Hmax & Hch); [|lia].
  injection Hk as -> ->.
  assert (Hlen : length (full m) = e - index m).
  { rewrite Hf. unfold slice. rewrite length_firstn, length_skipn. lia. }
  rewrite Hlen. replace (index m + (e - index m)) with e by lia.
  repeat split; auto; try lia.
  rewrite Hf. unfold slice. apply Forall_forall. intros ch Hin.
  apply In_nth_error in Hin as (j & Hj).
  assert (j < e - index m).
  { assert (Hs : nth_error (firstn (e - index m) (skipn (index m) s)) j <> None)
      by congruence.
    apply nth_error_Some in Hs. rewrite length_firstn, length_skipn in Hs. lia. }
  rewrite nth_error_firstn in Hj.
  destruct (Nat.ltb_spec j (e - index m)); [|lia].
  rewrite nth_error_skipn in Hj.
  destruct (Hch (index m + j) ltac:(lia)) as (x & Hx & Hcx). congruence.
Qed.

Lemma anchored_index_0 r' ngroups s m :
  regexMatch (Seq Bos r') ngroups s = Some m -> index m = 0.
Proof.
  unfold regexMatch. intros H.
  apply searchFrom_found in H as (e & c & He & _). simpl in He.
  destruct (index m); [reflexivity | discriminate].
Qed.

Lemma pattern_consumes_no_blank r ch :
  In r [agentReg; variableReg; slashReg; variableWithArgReg] ->
  consumes r ch = true -> isWhiteSpace ch = false.
Proof.
  intros Hin H. destruct (isWhiteSpace ch) eqn:E; [exfalso|reflexivity].
  pose proof (whitespace_not_name ch E) as Hn.
  assert (Ha : isArgChar ch = false).
  { unfold isArgChar. rewrite Hn. simpl. apply N.eqb_neq. intros ->.
    vm_compute in E. discriminate E. }
  assert (Hd : isDigit ch = false).
  { unfold isNameChar, isWordChar in Hn.
    destruct (isDigit ch); [|reflexivity].
    rewrite !orb_true_r in Hn. discriminate. }
  assert (Hl : forall c : N, In c [33; 35; 47; 58]%N -> (ch =? c)%N = false).
  { intros c Hc. apply N.eqb_neq. intros Heq.
    simpl in Hc. destruct Hc as [<-|[<-|[<-|[<-|[]]]]]; subst ch;
      vm_compute in E; discriminate E. }
  simpl in Hin. destruct Hin as [<-|[<-|[<-|[<-|[]]]]]; simpl in H;
    rewrite ?Hn, ?Ha, ?Hd, ?Hl in H by (simpl; auto); simpl in H;
    discriminate H.
Qed.

Lemma tiles_app l l' a b c :
  tiles l a b -> tiles l' b c -> tiles (l ++ l') a c.
Proof.
  revert a. induction l as [|r l IH]; simpl; intros a H H'.
  - subst. exact H'.
  - destruct H as (Hs & Hlt & Ht). auto.
Qed.

Lemma at_last_snoc A (l : list A) x : at_last (l ++ [x]) = Some x.
Proof.
  unfold at_last. rewrite length_app. simpl.
  rewrite nth_error_app2 by lia.
  replace (length l + 1 - 1 - length l) with 0 by lia. reflexivity.
Qed.

Lemma searchFrom_groups r ngroups s fuel : forall start m,
  searchFrom r ngroups s fuel start = Some m ->
  exists e,
    exec r s (index m) (repeat None ngroups) (fun p c => Some (p, c))
      = Some (e, groups m) /\
    full m = slice s (index m) e.
Proof.
  induction fuel as [|fuel IH]; intros start m H; simpl in H.
  - destruct (exec _ _ _ _ _) as [[e c]|] eqn:E; [|discriminate].
    injection H as <-. simpl. eauto.
  - destruct (exec _ _ _ _ _) as [[e c]|] eqn:E.
    + injection H as <-. simpl. eauto.
    + eapply IH. exact H.
Qed.

(** The text matched by [slashReg] is the leader followed by the captured
    command name. *)
Lemma slashReg_full s m :
  regexMatch slashReg 2 s = Some m ->
  full m = chatSubcommandLeader ++ capture m 1.
Proof.
  unfold regexMatch. intros H.
  apply searchFrom_groups in H as (e & He & Hf).
  unfold capture, group. rewrite Hf. clear Hf.
  set (pos := index m) in *. unfold slashReg, boundary in He. cbn [exec] in He.
  destruct (nth_error s pos) as [d|] eqn:Ed; [|discriminate].
  destruct (N.eqb_spec d (chr "/")); [subst d|discriminate].
  apply greedy_some in He as (n & Hn & He).
  assert (Hc : e = S pos + n /\
               nth_error (groups m) 0 = Some (Some (slice s (S pos) (S pos + n)))).
  { destruct (nth_error s (S pos + n)) as [d|];
      [destruct (isWhiteSpace d)|];
      try (injection He as <- <-; split; reflexivity);
      (destruct (S pos + n =? length s);
       [injection He as <- <-; split; reflexivity|]);
      (destruct (xorb _ _); [|discriminate]);
      injection He as <- <-; split; reflexivity. }
  destruct Hc as [-> Hg]. change (1 - 1) with 0. rewrite Hg.
  unfold slice. replace (S pos + n - pos) with (S n) by lia.
  replace (S pos + n - S pos) with n by lia.
  assert (Hs : skipn pos s = chr "/" :: skipn (S pos) s).
  { clear - Ed. generalize dependent pos.
    induction s as [|c s IH]; intros [|pos] Ed;
      simpl in *; try discriminate; [congruence | apply IH; exact Ed]. }
  rewrite Hs. reflexivity.
Qed.

(** ** The asynchronous computations and the matchers *)

Section Properties.

Variable svc : Services.
Local Abbreviation Part := (IParsedChatRequestPart svc).
Implicit Types (refs : list (IDynamicReference (Data svc)))
  (parts : list (IParsedChatRequestPart svc)) (p : IParsedChatRequestPart svc)
  (rt : Runtime svc).

Lemma bind_normal A B (m : Async svc A) (f : A -> Async svc B) rt b rt' :
  bind m f rt = (Normal b, rt') ->
  exists a rt1, m rt = (Normal a, rt1) /\ f a rt1 = (Normal b, rt').
Proof.
  unfold bind. destruct (m rt) as [[a|e] rt1]; intros H; [eauto | discriminate].
Qed.

Lemma await_normal A (m : Async svc A) rt a rt' :
  await m rt = (Normal a, rt') -> exists rt1, m rt = (Normal a, rt1).
Proof.
  unfold await. destruct (m rt) as [c rt1]. intros H. inversion H; subst. eauto.
Qed.

Lemma ret_normal A (a b : A) (rt rt' : Runtime svc) :
  ret a rt = (Normal b, rt') -> a = b /\ rt = rt'.
Proof. unfold ret. intros H. inversion H. auto. Qed.

Ltac async_inv :=
  repeat match goal with
  | H : bind _ _ _ = (Normal _, _) |- _ =>
      let a := fresh "a" in let rt1 := fresh "rt" in
      let H1 := fresh H in let H2 := fresh H in
      apply bind_normal in H; destruct H as (a & rt1 & H1 & H2)
  | H : await _ _ = (Normal _, _) |- _ =>
      let rt1 := fresh "rt" in apply await_normal in H; destruct H as (rt1 & H)
  | H : ret _ _ = (Normal _, _) |- _ =>
      apply ret_normal in H; destruct H as [H _]
  | H : match ?c with _ => _ end _ = (Normal _, _) |- _ => destruct c eqn:?
  | H : Some _ = Some _ |- _ => injection H as H
  | H : None = Some _ |- _ => discriminate H
  | H : Some _ = None |- _ => discriminate H
  end.

Lemma existsb_false_nil (l : list Part) :
  existsb (@isAgentPart svc) l = false ->
  existsb (fun p => isNonBlankTextPart p || negb (isAgentPart p)) l = false ->
  l = [].
Proof.
  destruct l as [|p l]; [reflexivity|]. simpl. intros H1 H2.
  apply orb_false_elim in H1 as [H1 _]. apply orb_false_elim in H2 as [H2 _].
  apply orb_false_elim in H2 as [_ H2]. rewrite H1 in H2. discriminate.
Qed.

Lemma tryToParseVariable_emits message refs i position parts rt p rt' :
  charAt message (Z.of_nat i) = chatFileVariableLeader ->
  tryToParseVariable (slice_from message i) i position parts rt
    = (Normal (Some p), rt') ->
  Emits message refs i position parts p.
Proof.
  intros Hc. unfold tryToParseVariable, call_hasVariable. intros H.
  async_inv. subst. eapply Emits_variable; eauto.
Qed.

Lemma tryToParseVariable_declines message i position parts rt rt' :
  tryToParseVariable (svc:=svc) message i position parts rt = (Normal None, rt') ->
  variableDeclines svc message.
Proof.
  unfold tryToParseVariable, variableDeclines, call_hasVariable. intros H.
  destruct (regexMatch variableReg 3 message) as [m|]; [|trivial].
  async_inv; subst; first [discriminate | assumption].
Qed.

Lemma tryToParseDynamicVariable_emits message refs i position parts rt p rt' :
  charAt message (Z.of_nat i) = chatFileVariableLeader ->
  variableDeclines svc (slice_from message i) ->
  tryToParseDynamicVariable (slice_from message i) i position refs rt
    = (Normal (Some p), rt') ->
  Emits message refs i position parts p.
Proof.
  intros Hc Hd. unfold tryToParseDynamicVariable. intros H.
  async_inv. subst. eapply Emits_dynamicReference; eauto.
Qed.

Lemma tryToParseAgent_emits message refs i position parts rt p rt' :
  charAt message (Z.of_nat i) = chatAgentLeader ->
  tryToParseAgent (slice_from message i) message i position parts rt
    = (Normal (Some p), rt') ->
  Emits message refs i position parts p.
Proof.
  intros Hc. unfold tryToParseAgent, call_getAgent. intros H.
  async_inv. subst.
  match goal with
  | Ha : existsb (@isAgentPart svc) parts = false,
    Hb : existsb _ parts = false |- _ =>
      pose proof (existsb_false_nil _ Ha Hb) as ->
  end.
  eapply Emits_agent; eauto.
  match goal with
  | Hb : negb (isEmpty _) = false |- _ =>
      apply negb_false_iff, isEmpty_true in Hb; exact Hb
  end.
Qed.

Lemma find_none_existsb A (f : A -> bool) (l : list A) :
  find f l = None -> existsb f l = false.
Proof.
  induction l as [|x l IH]; simpl; [reflexivity|].
  destruct (f x); [discriminate | exact IH].
Qed.

Lemma find_some_existsb A (f : A -> bool) (l : list A) x :
  find f l = Some x -> existsb f l = true.
Proof.
  intros H. apply find_some in H. apply existsb_exists. exists x. exact H.
Qed.

Lemma await_provideSlashCommands_normal agent rt l rt' :
  await_provideSlashCommands agent rt = (Normal l, rt') ->
  provideSlashCommands svc agent = inr l.
Proof.
  unfold await_provideSlashCommands, await, emit.
  destruct (provideSlashCommands svc agent) as [e|l0]; intros H;
    inversion H; reflexivity.
Qed.

Lemma tryToParseSlashCommand_emits sessionId message refs i position parts rt p rt' :
  charAt message (Z.of_nat i) = chatSubcommandLeader ->
  tryToParseSlashCommand sessionId (slice_from message i) message i position
    parts rt = (Normal (Some p), rt') ->
  Emits message refs i position parts p.
Proof.
  intros Hc. unfold tryToParseSlashCommand, call_getCommands. intros H.
  async_inv; subst;
    try match goal with
    | Hf : find (@isAgentPart svc) parts = Some _ |- _ =>
        pose proof Hf as Hex; apply find_some_existsb in Hex;
        apply find_some in Hf;
        destruct Hf as [_ Hf]; try discriminate Hf
    | Hf : find (@isAgentPart svc) parts = None |- _ =>
        apply find_none_existsb in Hf
    end.
  all: try (eapply Emits_slashCommand; eauto; fail).
  match goal with
  | Hp : await_provideSlashCommands _ _ = _ |- _ =>
      apply await_provideSlashCommands_normal in Hp
  end.
  eapply Emits_agentSubcommand; eauto.
  match goal with
  | Hb : negb (isEmpty _) = false |- _ =>
      apply negb_false_iff, isEmpty_true in Hb; exact Hb
  end.
Qed.

Lemma candidate_emits sessionId message refs i lineNumber column parts rt p rt' :
  candidate sessionId message refs i lineNumber column parts rt
    = (Normal (Some p), rt') ->
  atWordStart message i = true /\
  Emits message refs i {| lineNumber := lineNumber; column := column |} parts p.
Proof.
  unfold candidate, atWordStart. intros H.
  destruct (matchesWhiteSpace _ || (i =? 0));
    [split; [reflexivity|] | apply ret_normal in H as [H _]; discriminate].
  destruct (jsstring_eqb _ chatFileVariableLeader) eqn:Ev.
  { apply jsstring_eqb_eq in Ev.
    apply bind_normal in H as ([part|] & rt1 & Hv & H).
    - apply ret_normal in H as [H _]. injection H as ->.
      eapply tryToParseVariable_emits; eauto.
    - apply await_normal in H as (rt2 & H).
      eapply tryToParseDynamicVariable_emits; eauto.
      eapply tryToParseVariable_declines; eauto. }
  destruct (jsstring_eqb _ chatAgentLeader) eqn:Ea.
  { apply jsstring_eqb_eq in Ea. eapply tryToParseAgent_emits; eauto. }
  destruct (jsstring_eqb _ chatSubcommandLeader) eqn:Es.
  { apply jsstring_eqb_eq in Es. apply await_normal in H as (rt2 & H).
    eapply tryToParseSlashCommand_emits; eauto. }
  apply ret_normal in H as [H _]. discriminate.
Qed.

(** The loop invariant rule of the scanner. *)
Lemma scan_invariant (Inv : nat -> list Part -> Prop) sessionId message refs :
  (forall i lineNumber column parts newPart rt rt1,
      Inv i parts ->
      candidate sessionId message refs i lineNumber column parts rt
        = (Normal newPart, rt1) ->
      Inv (S i) (pushNewPart message i lineNumber column parts newPart)) ->
  forall n i lineNumber column parts rt s rt',
    Inv i parts ->
    scan sessionId message refs n i lineNumber column parts rt
      = (Normal s, rt') ->
    Inv (n + i) (scan_parts s).
Proof.
  intros Hstep. induction n as [|n IH]; intros i lineNumber column parts rt s rt' HI H.
  - simpl in H. apply ret_normal in H as [<- _]. exact HI.
  - simpl in H. apply bind_normal in H as (newPart & rt1 & Hc & H).
    specialize (Hstep _ _ _ _ _ _ _ HI Hc).
    replace (S n + i) with (n + S i) by lia.
    destruct (jsstring_eqb _ _); eapply IH; eauto.
Qed.

Lemma parseChatRequest_normal sessionId message rt r rt' :
  parseChatRequest sessionId message rt = (Normal r, rt') ->
  exists s rt1 rt2,
    scan sessionId message (store rt sessionId) (length message) 0 1 1 [] rt1
      = (Normal s, rt2) /\
    r = {| parts := pushTrailingText message s; text := message |}.
Proof.
  unfold parseChatRequest. intros H.
  apply bind_normal in H as (refs & rt1 & Hr & H).
  apply bind_normal in H as (s & rt2 & Hs & H).
  apply ret_normal in H as [<- _].
  unfold call_getDynamicReferences in Hr. simpl in Hr. inversion Hr; subst.
  eauto.
Qed.

Lemma existsb_false_filter A (f : A -> bool) l :
  existsb f l = false -> filter f l = [].
Proof.
  induction l as [|x l IH]; simpl; [reflexivity|].
  destruct (f x); simpl; [discriminate | exact IH].
Qed.

Lemma existsb_false_weaken A (f g : A -> bool) l :
  (forall x, g x = true -> f x = true) ->
  existsb f l = false -> existsb g l = false.
Proof.
  intros Hfg. induction l as [|x l IH]; simpl; [reflexivity|].
  intros H. apply orb_false_elim in H as [Hx Hl].
  rewrite (IH Hl), orb_false_r.
  destruct (g x) eqn:Eg; [rewrite (Hfg _ Eg) in Hx; discriminate | reflexivity].
Qed.

Lemma singleAgentAndCommand_step message refs i position lineNumber column parts p :
  singleAgentAndCommand parts ->
  Emits message refs i position parts p ->
  singleAgentAndCommand (pushNewPart message i lineNumber column parts (Some p)).
Proof.
  intros (Ha & Hc & Hsub) He. unfold singleAgentAndCommand, pushNewPart.
  assert (Hshape : exists mid, (forall q, In q mid -> isTextPart q = true) /\
     (if negb (i =? 0)
      then parts ++ [textPartUpTo message i lineNumber column parts]
      else parts) ++ [p] = parts ++ mid ++ [p]).
  { destruct (negb (i =? 0)).
    - exists [textPartUpTo message i lineNumber column parts]. split.
      + intros q [<-|[]]. reflexivity.
      + rewrite <- app_assoc. reflexivity.
    - exists []. split; [intros q [] | reflexivity]. }
  destruct Hshape as (mid & Hmid & ->).
  assert (Htext : forall f : Part -> bool,
             (forall q, isTextPart q = true -> f q = false) ->
             existsb f mid = false).
  { intros f Hf. clear - Hmid Hf. induction mid as [|q l IH]; [reflexivity|].
    simpl. rewrite (Hf q), IH; auto.
    - intros q' Hq'. apply Hmid. right. exact Hq'.
    - apply Hmid. left. reflexivity. }
  assert (Hfa : filter (@isAgentPart svc) mid = []).
  { apply existsb_false_filter, Htext. intros q Hq. destruct q; auto; discriminate. }
  assert (Hfc : filter (@isCommandPart svc) mid = []).
  { apply existsb_false_filter, Htext. intros q Hq. destruct q; auto; discriminate. }
  assert (Hes : existsb (@isAgentSubcommandPart svc) mid = false).
  { apply Htext. intros q Hq. destruct q; auto; discriminate. }
  assert (Hea : existsb (@isAgentPart svc) mid = false).
  { apply Htext. intros q Hq. destruct q; auto; discriminate. }
  rewrite !filter_app, !length_app, !existsb_app, Hfa, Hfc, Hes, Hea. simpl.
  destruct He as [m Hchar Hm Hv | m r Hchar Hdecl Hm Hfind
                 | m agent Hchar Hm Hget Hnil Hblank
                 | m sc Hchar Hm Hnoslash Hnoagent Hfind
                 | m agent subs sub Hchar Hm Hnoslash Hagent Hclean Hblank Hprov Hfind];
    simpl.
  - (* variable *) rewrite !Nat.add_0_r, !orb_false_r. auto.
  - (* dynamic reference *) rewrite !Nat.add_0_r, !orb_false_r. auto.
  - (* agent *) subst parts. simpl. repeat split; auto.
  - (* slash command *)
    assert (Hns : existsb (@isAgentSubcommandPart svc) parts = false).
    { destruct (existsb (@isAgentSubcommandPart svc) parts) eqn:E; [|reflexivity].
      rewrite (Hsub eq_refl) in *. discriminate. }
    assert (filter (@isCommandPart svc) parts = []) as ->.
    { apply existsb_false_filter. unfold isCommandPart.
      clear - Hnoslash Hns. induction parts as [|q l IH]; simpl in *; [reflexivity|].
      apply orb_false_elim in Hnoslash as [-> Hnoslash]. apply orb_false_elim in Hns as [-> Hns].
      simpl. auto. }
    rewrite Hns. simpl. rewrite Nat.add_0_r. repeat split; auto. discriminate.
  - (* agent sub-command *)
    assert (filter (@isCommandPart svc) parts = []) as ->.
    { apply existsb_false_filter.
      eapply existsb_false_weaken; [|exact Hclean].
      intros q Hq. destruct q; simpl in *; try discriminate; reflexivity. }
    rewrite Hagent. simpl. rewrite Nat.add_0_r. repeat split; auto.
Qed.

Lemma singleAgentAndCommand_text parts t :
  isTextPart t = true ->
  singleAgentAndCommand parts -> singleAgentAndCommand (parts ++ [t]).
Proof.
  intros Ht (Ha & Hc & Hsub). unfold singleAgentAndCommand.
  rewrite !filter_app, !length_app, !existsb_app.
  destruct t; try discriminate. simpl.
  rewrite !Nat.add_0_r, !orb_false_r. auto.
Qed.

Lemma fst_normal A (m : Async svc A) rt a :
  fst (m rt) = Normal a -> exists rt', m rt = (Normal a, rt').
Proof. destruct (m rt) as [c rt']. simpl. intros ->. eauto. Qed.

Lemma Emits_start message refs i position parts p :
  Emits message refs i position parts p ->
  start (range p) = i /\ isTextPart p = false.
Proof. intros []; simpl; auto. Qed.

(** Every part of the result satisfies [Q] as soon as every emitted part
    does and [Q] holds of text parts. *)
Lemma parts_Forall (Q : Part -> Prop) sessionId message rt r :
  (forall p, isTextPart p = true -> Q p) ->
  (forall i position parts p,
      atWordStart message i = true ->
      Emits message (store rt sessionId) i position parts p -> Q p) ->
  fst (parseChatRequest sessionId message rt) = Normal r ->
  Forall Q (parts r).
Proof.
  intros Htext Hemit H. apply fst_normal in H as (rt' & H).
  apply parseChatRequest_normal in H as (s & rt1 & rt2 & Hs & ->). simpl.
  assert (Hinv : Forall Q (scan_parts s)).
  { refine (scan_invariant (fun _ => Forall Q)
              sessionId message (store rt sessionId) _ _ _ _ _ _ _ _ _ _ Hs).
    - intros i lineNumber column parts [p|] rt0 rt3 HI Hc; [|exact HI].
      apply candidate_emits in Hc as [Hg He]. unfold pushNewPart.
      apply Forall_app. split; [|repeat constructor; eauto].
      destruct (negb (i =? 0)); [|exact HI].
      apply Forall_app. split; [exact HI|]. repeat constructor.
      apply Htext. reflexivity.
    - constructor. }
  unfold pushTrailingText. destruct (_ <? _); [|exact Hinv].
  apply Forall_app. split; [exact Hinv|]. repeat constructor.
  apply Htext. reflexivity.
Qed.


(** ** At most one agent and one command *)

(** C2. For every message, the parts of the parse result contain at most
    one agent part, and at most one part that is a slash command or an agent
    sub-command, the two kinds counted together. *)
Theorem at_most_one_agent_and_one_command sessionId message rt r :
  fst (parseChatRequest sessionId message rt) = Normal r ->
  length (filter (@isAgentPart svc) (parts r)) <= 1 /\
  length (filter (fun p => isSlashCommandPart p || isAgentSubcommandPart p)
            (parts r)) <= 1.
Proof.
  intros H. apply fst_normal in H as (rt' & H).
  apply parseChatRequest_normal in H as (s & rt1 & rt2 & Hs & ->). simpl.
  assert (Hinv : singleAgentAndCommand (scan_parts s)).
  { refine (scan_invariant (fun _ => @singleAgentAndCommand svc)
              sessionId message (store rt sessionId) _ _ _ _ _ _ _ _ _ _ Hs).
    - intros i lineNumber column parts [p|] rt0 rt3 HI Hc; [|exact HI].
      apply candidate_emits in Hc as [_ He].
      eapply singleAgentAndCommand_step; eauto.
    - repeat split; simpl; auto. }
  assert (Hall : singleAgentAndCommand (pushTrailingText message s)).
  { unfold pushTrailingText. destruct (_ <? _); [|exact Hinv].
    apply singleAgentAndCommand_text; [reflexivity | exact Hinv]. }
  destruct Hall as (Ha & Hc & _). split; [exact Ha | exact Hc].
Qed.

(** ** The word-boundary gate *)

(** C8. A leader character ([!], [#] or [/]) that is not the first character
    of the message and is not immediately preceded by white space never
    starts a part other than text: no such part of the result has its start
    offset there. In particular ["x!agent"] parses to a single text part
    over the whole string, whatever the agent registry holds. *)
Theorem leader_inside_word_starts_no_part sessionId message rt :
  (forall r j c d p,
      fst (parseChatRequest sessionId message rt) = Normal r ->
      nth_error message (S j) = Some c ->
      In c [chr "!"; chr "#"; chr "/"] ->
      nth_error message j = Some d ->
      isWhiteSpace d = false ->
      In p (parts r) ->
      start (range p) = S j ->
      isTextPart p = true) /\
  fst (parseChatRequest sessionId (lit "x!agent") rt)
    = Normal {| parts :=
                  [ChatRequestTextPart {| start := 0; endExclusive := 7 |}
                     {| startLineNumber := 1; startColumn := 1;
                        endLineNumber := 1; endColumn := 8 |}
                     (lit "x!agent")];
                text := lit "x!agent" |}.
Proof.
  split; [|vm_compute; reflexivity].
  intros r j c d p H _ _ Hd Hws Hin Hstart.
  pose proof (parts_Forall
    (fun p => isTextPart p = false -> atWordStart message (start (range p)) = true)
    sessionId message rt r) as HF.
  rewrite Forall_forall in HF.
  destruct (isTextPart p) eqn:Et; [reflexivity|].
  specialize (HF ltac:(intros q Hq; congruence)).
  assert (Hgate : atWordStart message (start (range p)) = true).
  { apply HF; auto.
    intros i position parts q Hg He _.
    apply Emits_start in He as [-> _]. exact Hg. }
  rewrite Hstart in Hgate. apply atWordStart_S in Hgate as (d' & Hd' & Hws').
  congruence.
Qed.

(** ** The journal and the runtime *)

Lemma disciplined_ret A (a : A) : disciplined svc (ret (svc:=svc) a).
Proof.
  intros rt. exists []. simpl. rewrite app_nil_r.
  repeat split; [constructor | intros agent []].
Qed.

Lemma explainedBy_app_l A B (a : A) (c' : Completion svc B) evs evs' :
  explainedBy (Normal a) evs -> explainedBy c' evs' ->
  explainedBy c' (evs ++ evs').
Proof.
  intros H1 H2. destruct c' as [b|e]; simpl in *.
  - intros agent Hin. apply in_app_or in Hin as [Hin|Hin]; auto.
  - destruct H2 as (agent & Hin & He). exists agent. split; [|exact He].
    apply in_or_app. right. exact Hin.
Qed.

Lemma disciplined_bind A B (m : Async svc A) (f : A -> Async svc B) :
  disciplined svc m -> (forall a, disciplined svc (f a)) -> disciplined svc (bind m f).
Proof.
  intros Hm Hf rt. unfold bind.
  destruct (Hm rt) as (evs & Hj & Hq & Hx).
  destruct (m rt) as [[a|e] rt1]; simpl in *.
  - destruct (Hf a rt1) as (evs' & Hj' & Hq' & Hx').
    exists (evs ++ evs'). rewrite Hj', Hj, app_assoc.
    repeat split; [apply Forall_app; auto|].
    eapply (explainedBy_app_l A B a); eauto.
  - exists evs. auto.
Qed.

Lemma disciplined_emit ev :
  isFetch ev = false -> isEnumeration ev = false -> disciplined svc (emit ev).
Proof.
  intros Hf He rt. exists [ev]. simpl. repeat split; [auto|].
  intros agent [E|[]]. subst ev. discriminate.
Qed.

Lemma disciplined_await A (m : Async svc A) :
  disciplined svc m -> disciplined svc (await m).
Proof.
  intros Hm rt. unfold await.
  destruct (Hm rt) as (evs & Hj & Hq & Hx).
  destruct (m rt) as [c rt1]; simpl in *.
  exists (evs ++ [Suspend]). rewrite Hj, app_assoc.
  repeat split; [apply Forall_app; auto|].
  destruct c as [a|e]; simpl in *.
  - intros agent Hin. apply in_app_or in Hin as [Hin|[Hin|[]]]; [auto | discriminate].
  - destruct Hx as (agent & Hin & He). exists agent.
    split; [apply in_or_app; auto | exact He].
Qed.

Lemma disciplined_await_provideSlashCommands agent :
  disciplined svc (await_provideSlashCommands agent).
Proof.
  intros rt. unfold await_provideSlashCommands, await, emit.
  exists [ProvideSlashCommands agent; Suspend].
  destruct (provideSlashCommands svc agent) as [e|l] eqn:E; simpl;
    rewrite <- app_assoc; repeat split; auto.
  - exists agent. simpl. auto.
  - intros agent' [[= <-]|[Hin|[]]]; [eauto | discriminate].
Qed.

Ltac discipline :=
  repeat match goal with
  | |- disciplined svc (bind _ _) => apply disciplined_bind; [|intros ?]
  | |- disciplined svc (ret _) => apply disciplined_ret
  | |- disciplined svc (await_provideSlashCommands _) =>
      apply disciplined_await_provideSlashCommands
  | |- disciplined svc (await _) => apply disciplined_await
  | |- disciplined svc (emit _) => apply disciplined_emit; reflexivity
  | |- disciplined svc (match ?x with _ => _ end) => destruct x
  end.

Lemma disciplined_tryToParseAgent remaining fullMessage offset position parts :
  disciplined svc (tryToParseAgent remaining fullMessage offset position parts).
Proof. unfold tryToParseAgent, call_getAgent. discipline. Qed.

Lemma disciplined_tryToParseVariable remaining offset position parts :
  disciplined svc (tryToParseVariable remaining offset position parts).
Proof. unfold tryToParseVariable, call_hasVariable. discipline. Qed.

Lemma disciplined_tryToParseDynamicVariable remaining offset position refs :
  disciplined svc (tryToParseDynamicVariable remaining offset position refs).
Proof. unfold tryToParseDynamicVariable. discipline. Qed.

Lemma disciplined_tryToParseSlashCommand sessionId remaining fullMessage offset
    position parts :
  disciplined svc (tryToParseSlashCommand sessionId remaining fullMessage offset
                 position parts).
Proof. unfold tryToParseSlashCommand, call_getCommands. discipline. Qed.

Lemma disciplined_candidate sessionId message refs i lineNumber column parts :
  disciplined svc (candidate sessionId message refs i lineNumber column parts).
Proof.
  unfold candidate.
  pose proof disciplined_tryToParseAgent.
  pose proof disciplined_tryToParseVariable.
  pose proof disciplined_tryToParseDynamicVariable.
  pose proof disciplined_tryToParseSlashCommand.
  discipline; auto.
Qed.

Lemma disciplined_scan sessionId message refs n :
  forall i lineNumber column parts,
    disciplined svc (scan sessionId message refs n i lineNumber column parts).
Proof.
  induction n as [|n IH]; intros i lineNumber column parts; simpl.
  - apply disciplined_ret.
  - apply disciplined_bind; [apply disciplined_candidate|].
    intros newPart. destruct (jsstring_eqb _ _); apply IH.
Qed.

(** The events journalled by a parse: the fetch of the session's dynamic
    references first, and no other fetch after it. *)
Lemma parseChatRequest_journal sessionId message rt :
  exists evs,
    journal (snd (parseChatRequest sessionId message rt))
      = journal rt ++ GetDynamicReferences sessionId :: evs /\
    Forall (fun ev => isFetch ev = false) evs /\
    explainedBy (fst (parseChatRequest sessionId message rt)) evs.
Proof.
  unfold parseChatRequest.
  set (k := fun refs => bind (scan sessionId message refs (length message) 0 1 1 [])
              (fun s => ret {| parts := pushTrailingText message s;
                               text := message |})).
  assert (Hk : forall refs, disciplined svc (k refs)).
  { intros refs. unfold k. apply disciplined_bind; [apply disciplined_scan|].
    intros s. apply disciplined_ret. }
  change (exists evs,
    journal (snd (bind (call_getDynamicReferences sessionId) k rt))
      = journal rt ++ GetDynamicReferences sessionId :: evs /\
    Forall (fun ev => isFetch ev = false) evs /\
    explainedBy (fst (bind (call_getDynamicReferences sessionId) k rt)) evs).
  unfold bind, call_getDynamicReferences, emit. simpl.
  match goal with |- context [k ?refs ?rt1] =>
    destruct (Hk refs rt1) as (evs & Hj & Hq & Hx) end.
  exists evs. simpl in Hj. rewrite Hj, <- app_assoc. auto.
Qed.

Lemma oblivious_ret A (a : A) : oblivious svc (ret a).
Proof. intros rt1 rt2. reflexivity. Qed.

Lemma oblivious_bind A B (m : Async svc A) (f : A -> Async svc B) :
  oblivious svc m -> (forall a, oblivious svc (f a)) -> oblivious svc (bind m f).
Proof.
  intros Hm Hf rt1 rt2. unfold bind. specialize (Hm rt1 rt2).
  destruct (m rt1) as [[a1|e1] rt1'], (m rt2) as [[a2|e2] rt2']; simpl in Hm;
    try discriminate.
  - injection Hm as ->. apply Hf.
  - injection Hm as ->. reflexivity.
Qed.

Lemma oblivious_emit ev : oblivious svc (emit ev).
Proof. intros rt1 rt2. reflexivity. Qed.

Lemma oblivious_await A (m : Async svc A) :
  oblivious svc m -> oblivious svc (await m).
Proof.
  intros Hm rt1 rt2. unfold await. specialize (Hm rt1 rt2).
  destruct (m rt1), (m rt2). exact Hm.
Qed.

Lemma oblivious_await_provideSlashCommands agent :
  oblivious svc (await_provideSlashCommands agent).
Proof.
  intros rt1 rt2. unfold await_provideSlashCommands, await, emit.
  destruct (provideSlashCommands svc agent); reflexivity.
Qed.

Ltac forget_runtime :=
  repeat match goal with
  | |- oblivious _ (bind _ _) => apply oblivious_bind; [|intros ?]
  | |- oblivious _ (ret _) => apply oblivious_ret
  | |- oblivious _ (await_provideSlashCommands _) =>
      apply oblivious_await_provideSlashCommands
  | |- oblivious _ (await _) => apply oblivious_await
  | |- oblivious _ (emit _) => apply oblivious_emit
  | |- oblivious _ (match ?x with _ => _ end) => destruct x
  end.

Lemma oblivious_candidate sessionId message refs i lineNumber column parts :
  oblivious svc (candidate sessionId message refs i lineNumber column parts).
Proof.
  unfold candidate, tryToParseAgent, tryToParseVariable,
    tryToParseDynamicVariable, tryToParseSlashCommand, call_getAgent,
    call_hasVariable, call_getCommands.
  forget_runtime.
Qed.

Lemma oblivious_scan sessionId message refs n :
  forall i lineNumber column parts,
    oblivious svc (scan sessionId message refs n i lineNumber column parts).
Proof.
  induction n as [|n IH]; intros i lineNumber column parts; simpl.
  - apply oblivious_ret.
  - apply oblivious_bind; [apply oblivious_candidate|].
    intros newPart. destruct (jsstring_eqb _ _); apply IH.
Qed.

(** ** The snapshot of the dynamic references *)

(** C9. The session's list of dynamic references is fetched exactly once
    per parse, as the first thing the parse does and so before any
    suspension point, and the outcome depends only on that snapshot: started
    with the same list for the session, the parse completes in the same way
    whatever becomes of the store at the suspension points. *)
Theorem references_snapshot sessionId message rt :
  (exists evs,
      journal (snd (parseChatRequest sessionId message rt))
        = journal rt ++ GetDynamicReferences sessionId :: evs /\
      Forall (fun ev => isFetch ev = false) evs) /\
  (forall rt2,
      store rt2 sessionId = store rt sessionId ->
      fst (parseChatRequest sessionId message rt2)
        = fst (parseChatRequest sessionId message rt)).
Proof.
  split.
  - destruct (parseChatRequest_journal sessionId message rt) as (evs & Hj & Hq & _).
    exists evs. auto.
  - intros rt2 Hstore. unfold parseChatRequest, call_getDynamicReferences.
    unfold bind at 1 3. unfold emit. rewrite Hstore.
    apply oblivious_bind.
    + apply oblivious_scan.
    + intros s. apply oblivious_ret.
Qed.

(** ** A failing enumeration of sub-commands *)

(** C4, as the code has it. When the call that enumerates an agent's
    sub-commands fails, the error propagates: neither the slash-command
    matcher nor the parse declines or completes with a result, both end
    abruptly with the error of the failed call. A matcher or a parse that
    completes normally has seen only successful enumerations. *)
Theorem enumeration_error_propagates sessionId message rt :
  (forall remaining fullMessage offset position parts rt0,
      exists evs,
        journal (snd (tryToParseSlashCommand sessionId remaining fullMessage
                        offset position parts rt0)) = journal rt0 ++ evs /\
        explainedBy (fst (tryToParseSlashCommand sessionId remaining
                            fullMessage offset position parts rt0)) evs) /\
  (exists evs,
      journal (snd (parseChatRequest sessionId message rt))
        = journal rt ++ GetDynamicReferences sessionId :: evs /\
      explainedBy (fst (parseChatRequest sessionId message rt)) evs).
Proof.
  split.
  - intros remaining fullMessage offset position parts rt0.
    destruct (disciplined_tryToParseSlashCommand sessionId remaining
                fullMessage offset position parts rt0) as (evs & Hj & _ & Hx).
    exists evs. auto.
  - destruct (parseChatRequest_journal sessionId message rt) as (evs & Hj & _ & Hx).
    exists evs. auto.
Qed.

(** ** Messages made of a lone agent leader *)

Lemma candidate_blank sessionId message refs i lineNumber column parts c :
  nth_error message i = Some c -> isWhiteSpace c = true ->
  candidate sessionId message refs i lineNumber column parts = ret None.
Proof.
  intros Hc Hw. unfold candidate. rewrite charAt_nat, Hc.
  destruct (whitespace_not_leader c Hw) as (-> & -> & ->).
  destruct (_ || _); reflexivity.
Qed.

Lemma scan_blank sessionId message refs n : forall i lineNumber column parts rt,
  (forall j, i <= j < i + n ->
     exists c, nth_error message j = Some c /\ isWhiteSpace c = true) ->
  exists lineNumber' column',
    scan sessionId message refs n i lineNumber column parts rt
      = (Normal {| scan_parts := parts; scan_lineNumber := lineNumber';
                   scan_column := column' |}, rt).
Proof.
  induction n as [|n IH]; intros i lineNumber column parts rt H; simpl.
  - exists lineNumber, column. reflexivity.
  - destruct (H i ltac:(lia)) as (c & Hc & Hw).
    rewrite (candidate_blank _ _ _ _ _ _ _ c Hc Hw). unfold bind, ret. simpl.
    destruct (jsstring_eqb _ _); apply IH; intros j Hj; apply H; lia.
Qed.

Lemma scan_add sessionId message refs n1 n2 : forall i lineNumber column parts rt,
  scan sessionId message refs (n1 + n2) i lineNumber column parts rt
  = bind (scan sessionId message refs n1 i lineNumber column parts)
      (fun s => scan sessionId message refs n2 (n1 + i) (scan_lineNumber s)
                  (scan_column s) (scan_parts s)) rt.
Proof.
  induction n1 as [|n1 IH]; intros i lineNumber column parts rt; simpl.
  - reflexivity.
  - unfold bind.
    destruct (candidate _ _ _ _ _ _ _ rt) as [[newPart|e] rt1]; [|reflexivity].
    replace (S (n1 + i)) with (n1 + S i) by lia.
    destruct (jsstring_eqb _ _); rewrite IH; unfold bind; reflexivity.
Qed.

Lemma agentReg_lone post :
  forallb isWhiteSpace post = true ->
  regexMatch agentReg 2 (lit "!" ++ post)
    = Some {| index := 0; full := lit "!";
              groups := [Some []; Some (firstn 1 post)] |}.
Proof.
  intros H. destruct post as [|c post].
  - reflexivity.
  - simpl in H. apply andb_true_iff in H as [Hc _].
    pose proof (whitespace_not_name c Hc) as Hn.
    unfold regexMatch. simpl. rewrite Hn. simpl. rewrite Hc. reflexivity.
Qed.

Lemma forallb_nth (f : char -> bool) (l : jsstring) j :
  forallb f l = true -> j < length l ->
  exists c, nth_error l j = Some c /\ f c = true.
Proof.
  intros H Hj. rewrite forallb_forall in H.
  destruct (nth_error l j) as [c|] eqn:E.
  - exists c. split; [reflexivity|]. apply H. eapply nth_error_In; eauto.
  - apply nth_error_None in E. lia.
Qed.

Lemma atWordStart_after_blank pre rest :
  forallb isWhiteSpace pre = true -> atWordStart (pre ++ rest) (length pre) = true.
Proof.
  intros H. unfold atWordStart. destruct pre as [|c pre] using rev_ind.
  - reflexivity.
  - rewrite length_app. simpl. replace (length pre + 1) with (S (length pre)) by lia.
    rewrite charAt_before, charAt_nat, <- app_assoc, nth_error_app2 by lia.
    rewrite Nat.sub_diag. simpl.
    rewrite forallb_app in H. apply andb_true_iff in H as [_ H]. simpl in H.
    apply andb_true_iff in H as [-> _]. reflexivity.
Qed.

Lemma candidate_lone sessionId refs lineNumber column parts pre post :
  forallb isWhiteSpace pre = true ->
  candidate sessionId (pre ++ lit "!" ++ post) refs (length pre) lineNumber
    column parts
  = tryToParseAgent (lit "!" ++ post) (pre ++ lit "!" ++ post) (length pre)
      {| lineNumber := lineNumber; column := column |} parts.
Proof.
  intros H. unfold candidate.
  pose proof (atWordStart_after_blank pre (lit "!" ++ post) H) as Hg.
  unfold atWordStart in Hg. rewrite Hg.
  rewrite charAt_nat, nth_error_app2, Nat.sub_diag by lia.
  unfold slice_from. rewrite skipn_app, skipn_all, Nat.sub_diag. reflexivity.
Qed.

Lemma scan_lone sessionId refs rt pre post :
  forallb isWhiteSpace pre = true ->
  forallb isWhiteSpace post = true ->
  exists s,
    scan sessionId (pre ++ lit "!" ++ post) refs
      (length (pre ++ lit "!" ++ post)) 0 1 1 [] rt
    = (Normal s, snd (emit (GetAgent []) rt)) /\
    (getAgent svc [] = None -> scan_parts s = []).
Proof.
  intros Hpre Hpost. set (message := pre ++ lit "!" ++ post).
  replace (length message) with (length pre + S (length post))
    by (unfold message; rewrite !length_app; reflexivity).
  rewrite scan_add.
  destruct (scan_blank sessionId message refs (length pre) 0 1 1 [] rt)
    as (l1 & c1 & E1).
  { intros j Hj. unfold message. rewrite nth_error_app1 by lia.
    apply forallb_nth; [exact Hpre | lia]. }
  unfold bind at 1. rewrite E1. cbn [scan_parts scan_lineNumber scan_column].
  rewrite Nat.add_0_r.
  change (scan sessionId message refs (S (length post)) (length pre) l1 c1 [] rt)
    with (bind (candidate sessionId message refs (length pre) l1 c1 [])
      (fun newPart =>
         let parts := pushNewPart message (length pre) l1 c1 [] newPart in
         if jsstring_eqb (charAt message (Z.of_nat (length pre))) (lit (String "010" ""))
         then scan sessionId message refs (length post) (S (length pre)) (l1 + 1) 1 parts
         else scan sessionId message refs (length post) (S (length pre)) l1 (c1 + 1) parts) rt).
  unfold message at 1. rewrite (candidate_lone _ _ _ _ _ _ _ Hpre).
  unfold tryToParseAgent. rewrite (agentReg_lone post Hpost).
  change (capture _ 1) with (@nil char).
  assert (Hrest : forall l c parts rt',
            exists l' c',
              scan sessionId message refs (length post) (S (length pre)) l c
                parts rt'
              = (Normal {| scan_parts := parts; scan_lineNumber := l';
                           scan_column := c' |}, rt')).
  { intros l c parts rt'. apply scan_blank. intros j Hj. unfold message.
    rewrite nth_error_app2 by lia.
    replace (j - length pre) with (S (j - S (length pre))) by lia. simpl.
    apply forallb_nth; [exact Hpost | lia]. }
  unfold call_getAgent, bind, emit, ret.
  destruct (getAgent svc []) as [agent|].
  - cbn [existsb].
    assert (Hblank : trim (slice (pre ++ lit "!" ++ post) (previousPartEnd (svc:=svc) [])
                      (length pre)) = []).
    { apply blank_trim. unfold slice, previousPartEnd. simpl.
      rewrite Nat.sub_0_r, firstn_app, Nat.sub_diag, firstn_all. simpl.
      rewrite app_nil_r. exact Hpre. }
    rewrite Hblank. cbn [isEmpty negb]. cbv beta iota zeta.
    match goal with
    | |- context [(if ?b then scan _ _ _ _ _ ?l1 ?c1 ?ps
                   else scan _ _ _ _ _ ?l2 ?c2 _) ?r] =>
        destruct (Hrest l1 c1 ps r) as (la & ca & Ea);
        destruct (Hrest l2 c2 ps r) as (lb & cb & Eb);
        destruct b
    end.
    + eexists. split; [exact Ea | discriminate].
    + eexists. split; [exact Eb | discriminate].
  - cbv beta iota zeta.
    match goal with
    | |- context [(if ?b then scan _ _ _ _ _ ?l1 ?c1 ?ps
                   else scan _ _ _ _ _ ?l2 ?c2 _) ?r] =>
        destruct (Hrest l1 c1 ps r) as (la & ca & Ea);
        destruct (Hrest l2 c2 ps r) as (lb & cb & Eb);
        destruct b
    end.
    + eexists. split; [exact Ea | reflexivity].
    + eexists. split; [exact Eb | reflexivity].
Qed.
(** ** The agent matcher *)

Lemma tryToParseAgent_declines remaining fullMessage offset position parts rt :
  existsb (fun p => isNonBlankTextPart p || negb (isAgentPart p)) parts = true ->
  fst (tryToParseAgent remaining fullMessage offset position parts rt)
    = Normal None.
Proof.
  intros H. unfold tryToParseAgent, call_getAgent, bind, emit, ret.
  destruct (regexMatch agentReg 2 remaining) as [m|]; [|reflexivity].
  destruct (getAgent svc (capture m 1)) as [agent|]; [|reflexivity].
  destruct (existsb (@isAgentPart svc) parts); [reflexivity|].
  rewrite H. reflexivity.
Qed.

(** C7. The agent matcher produces a part only when the agent is the first
    content of the message that is not white space: it declines whenever a
    part accumulated so far is a text part that is not blank or is not an
    agent part, and every agent part of a parse result is preceded by white
    space only. In particular ["!agentX do the thing"], with [agentX]
    registered, parses to an agent part for ["!agentX"] followed by a text
    part for [" do the thing"]. *)
Theorem agent_is_first_content sessionId message rt :
  (forall remaining fullMessage offset position parts rt0,
      existsb (fun p => isNonBlankTextPart p || negb (isAgentPart p)) parts
        = true ->
      fst (tryToParseAgent remaining fullMessage offset position parts rt0)
        = Normal None) /\
  (forall r p,
      fst (parseChatRequest sessionId message rt) = Normal r ->
      In p (parts r) ->
      isAgentPart p = true ->
      forallb isWhiteSpace (firstn (start (range p)) message) = true) /\
  (forall agentX,
      getAgent svc (lit "agentX") = Some agentX ->
      fst (parseChatRequest sessionId (lit "!agentX do the thing") rt)
        = Normal {| parts :=
                      [ChatRequestAgentPart
                         {| start := 0; endExclusive := 7 |}
                         {| startLineNumber := 1; startColumn := 1;
                            endLineNumber := 1; endColumn := 8 |}
                         agentX;
                       ChatRequestTextPart
                         {| start := 7; endExclusive := 20 |}
                         {| startLineNumber := 1; startColumn := 8;
                            endLineNumber := 1; endColumn := 21 |}
                         (lit " do the thing")];
                    text := lit "!agentX do the thing" |}).
Proof.
  split; [|split].
  - intros. apply tryToParseAgent_declines. assumption.
  - intros r p H Hin Ha.
    pose proof (parts_Forall
      (fun p => isAgentPart p = true ->
                forallb isWhiteSpace (firstn (start (range p)) message) = true)
      sessionId message rt r) as HF.
    rewrite Forall_forall in HF. apply HF; auto.
    + intros q Hq Hq'. destruct q; discriminate.
    + intros i position parts q _ He Hq.
      destruct He; try discriminate. simpl.
      match goal with
      | Hb : trim (slice message 0 i) = [] |- _ => apply trim_nil in Hb;
          unfold slice in Hb; simpl in Hb; rewrite Nat.sub_0_r in Hb; exact Hb
      end.
  - intros agentX H. vm_compute in H. vm_compute. rewrite H. reflexivity.
Qed.

(** C10. The agent pattern accepts an empty name. For a message that
    consists of a lone [!] (possibly surrounded by white space, as in the
    message ["!"]) the pattern matches ["!"] with the empty string as the
    name, the parser asks the agent registry for the agent of that empty
    name (its only service call after fetching the dynamic references), and
    whenever the registry has no such agent the result is a single text
    part over the whole message, the [!] included. *)
Theorem lone_leader_queries_empty_name sessionId rt pre post :
  forallb isWhiteSpace pre = true ->
  forallb isWhiteSpace post = true ->
  regexMatch agentReg 2 (lit "!" ++ post)
    = Some {| index := 0; full := lit "!";
              groups := [Some []; Some (firstn 1 post)] |} /\
  journal (snd (parseChatRequest sessionId (pre ++ lit "!" ++ post) rt))
    = journal rt ++ [GetDynamicReferences sessionId; GetAgent []] /\
  (getAgent svc [] = None ->
   exists editorRange,
     fst (parseChatRequest sessionId (pre ++ lit "!" ++ post) rt)
       = Normal {| parts :=
                     [ChatRequestTextPart
                        {| start := 0;
                           endExclusive := length (pre ++ lit "!" ++ post) |}
                        editorRange (pre ++ lit "!" ++ post)];
                   text := pre ++ lit "!" ++ post |}).
Proof.
  intros Hpre Hpost. split; [apply agentReg_lone; exact Hpost|].
  set (message := pre ++ lit "!" ++ post).
  destruct (scan_lone sessionId (store rt sessionId)
              (snd (emit (GetDynamicReferences sessionId) rt)) pre post
              Hpre Hpost) as (s & Hs & Hnone).
  fold message in Hs.
  assert (Hrun : parseChatRequest sessionId message rt
                 = (Normal {| parts := pushTrailingText message s;
                              text := message |},
                    snd (emit (GetAgent [])
                           (snd (emit (GetDynamicReferences sessionId) rt))))).
  { unfold parseChatRequest, call_getDynamicReferences, bind.
    simpl in *. rewrite Hs. reflexivity. }
  rewrite Hrun. simpl. split.
  - rewrite <- app_assoc. reflexivity.
  - intros Hget. unfold pushTrailingText. rewrite (Hnone Hget).
    assert (Hlen : (previousPartEnd (svc:=svc) [] <? length message) = true).
    { apply Nat.ltb_lt. unfold message, previousPartEnd, at_last.
      rewrite !length_app. simpl. lia. }
    rewrite Hlen. simpl. eexists. unfold textPartUpTo, slice. simpl.
    rewrite Nat.sub_0_r, firstn_all. reflexivity.
Qed.

(** ** The argument of a variable *)

(** C5, as the code has it. With [myvar] registered, ["#myvar:3"] parses to
    a single variable part over the whole string whose captured argument is
    the matched text [":3"], a string that still carries the colon and is
    not converted to a number; for ["#myvar"], where the suffix is absent,
    the captured argument is the empty string. *)
Theorem variable_argument_is_matched_text sessionId rt :
  hasVariable svc (lit "myvar") = true ->
  fst (parseChatRequest sessionId (lit "#myvar:3") rt)
    = Normal {| parts :=
                  [ChatRequestVariablePart
                     {| start := 0; endExclusive := 8 |}
                     {| startLineNumber := 1; startColumn := 1;
                        endLineNumber := 1; endColumn := 9 |}
                     (lit "myvar") (lit ":3")];
                text := lit "#myvar:3" |} /\
  fst (parseChatRequest sessionId (lit "#myvar") rt)
    = Normal {| parts :=
                  [ChatRequestVariablePart
                     {| start := 0; endExclusive := 6 |}
                     {| startLineNumber := 1; startColumn := 1;
                        endLineNumber := 1; endColumn := 7 |}
                     (lit "myvar") (lit "")];
                text := lit "#myvar" |}.
Proof.
  intros H. vm_compute in H.
  split; vm_compute; rewrite H; reflexivity.
Qed.

(** ** Dynamic references *)

(** Every dynamic-reference part of a parse result starts at a [#] that
    passed the scanner's gate and on which the variable matcher declined,
    and carries the payload of a reference of the snapshot whose start
    position is the editor position of that [#]. *)
Lemma dynamic_reference_is_anchored sessionId message rt r p :
  fst (parseChatRequest sessionId message rt) = Normal r ->
  In p (parts r) ->
  isDynamicReferencePart p = true ->
  atWordStart message (start (range p)) = true /\
  charAt message (Z.of_nat (start (range p))) = chatFileVariableLeader /\
  variableDeclines svc (slice_from message (start (range p))) /\
  exists ref,
    In ref (store rt sessionId) /\
    startLineNumber (reference_range ref) = startLineNumber (editorRange p) /\
    startColumn (reference_range ref) = startColumn (editorRange p) /\
    match p with
    | ChatRequestDynamicReferencePart _ _ _ _ data => data = reference_data ref
    | _ => False
    end.
Proof.
  intros H Hin.
  pose proof (parts_Forall
    (fun p => isDynamicReferencePart p = true ->
       atWordStart message (start (range p)) = true /\
       charAt message (Z.of_nat (start (range p))) = chatFileVariableLeader /\
       variableDeclines svc (slice_from message (start (range p))) /\
       exists ref,
         In ref (store rt sessionId) /\
         startLineNumber (reference_range ref)
           = startLineNumber (editorRange p) /\
         startColumn (reference_range ref) = startColumn (editorRange p) /\
         match p with
         | ChatRequestDynamicReferencePart _ _ _ _ data =>
             data = reference_data ref
         | _ => False
         end)
    sessionId message rt r) as HF.
  rewrite Forall_forall in HF. apply HF; auto.
  - intros q Hq Hq'. destruct q; discriminate.
  - intros i position parts q Hg He Hq.
    destruct He as [ | m ref Hchar Hdecl Hm Hfind | | | ]; try discriminate.
    simpl. repeat split; auto.
    apply find_some in Hfind as [Href Hat]. unfold referenceAt in Hat.
    apply andb_true_iff in Hat as [Hl Hc].
    apply Nat.eqb_eq in Hl, Hc. exists ref. auto.
Qed.

(** ** Anchored messages *)

Lemma previousPartEnd_snoc parts p :
  previousPartEnd (parts ++ [p]) = endExclusive (range p).
Proof. unfold previousPartEnd. rewrite at_last_snoc. reflexivity. Qed.

(** On an anchored message an emitted part covers a non-empty stretch of
    the message that starts at the scanner's offset and holds no white
    space. *)
Lemma Emits_span message refs i position parts p :
  anchored svc message ->
  atWordStart message i = true ->
  Emits message refs i position parts p ->
  start (range p) = i /\
  i < endExclusive (range p) <= length message /\
  forall j, i <= j < endExclusive (range p) ->
    exists ch, nth_error message j = Some ch /\ isWhiteSpace ch = false.
Proof.
  intros Hanch Hgate He.
  assert (Hmatch : exists r ngroups m,
            In r [agentReg; variableReg; slashReg; variableWithArgReg] /\
            regexMatch r ngroups (slice_from message i) = Some m /\
            index m = 0 /\ range p = matchRange i m).
  { destruct He as [m Hchar Hm Hv | m ref Hchar Hdecl Hm Hfind
                   | m agent Hchar Hm Hget Hnil Hblank
                   | m sc Hchar Hm Hnoslash Hnoagent Hfind
                   | m agent subs sub Hchar Hm Hnoslash Hagent Hclean Hblank Hprov Hfind].
    - exists variableReg, 3, m. simpl. repeat split; auto.
      eapply anchored_index_0. exact Hm.
    - exists variableWithArgReg, 3, m. simpl. repeat split; auto.
      apply (Hanch i m Hgate). right. auto.
    - exists agentReg, 2, m. simpl. repeat split; auto.
      eapply anchored_index_0. exact Hm.
    - exists slashReg, 2, m. simpl. repeat split; auto.
      eapply Hanch; eauto.
    - exists slashReg, 2, m. simpl. repeat split; auto.
      eapply Hanch; eauto. }
  destruct Hmatch as (r & ngroups & m & Hin & Hm & Hidx & Hrange).
  rewrite Hrange. simpl.
  pose proof (regexMatch_span r ngroups _ m Hm) as (Hmin & Hmax & Hfull & Hcons).
  rewrite Hidx in *. simpl in *.
  unfold slice_from in *. rewrite length_skipn in Hmax.
  assert (Hone : 1 <= minLength r).
  { simpl in Hin. destruct Hin as [<-|[<-|[<-|[<-|[]]]]]; simpl; lia. }
  split; [reflexivity|]. split; [lia|].
  intros j Hj.
  assert (Hnth : nth_error (full m) (j - i) = nth_error message j).
  { rewrite Hfull at 1. unfold slice. rewrite Nat.sub_0_r. simpl.
    rewrite nth_error_firstn.
    destruct (Nat.ltb_spec (j - i) (length (full m))); [|lia].
    rewrite nth_error_skipn. f_equal. lia. }
  destruct (nth_error (full m) (j - i)) as [ch|] eqn:E.
  - exists ch. split; [congruence|].
    eapply pattern_consumes_no_blank; [exact Hin|].
    rewrite Forall_forall in Hcons. apply Hcons. eapply nth_error_In. exact E.
  - apply nth_error_None in E. lia.
Qed.


Lemma tiled_step message refs i position lineNumber column parts p :
  anchored svc message ->
  atWordStart message i = true ->
  Emits message refs i position parts p ->
  tiled message i parts ->
  tiled message (S i) (pushNewPart message i lineNumber column parts (Some p)).
Proof.
  intros Hanch Hgate He (Ht & Hle & Hlast).
  destruct (Emits_span message refs i position parts p Hanch Hgate He)
    as (Hstart & [Hlt Hend] & Hchars).
  assert (Hbefore : i = 0 /\ parts = [] \/ 0 < i /\ previousPartEnd parts < i).
  { destruct i as [|i]; [left | right].
    - split; [reflexivity|]. destruct Hlast as [->|(s & Hs & _)]; [reflexivity | lia].
    - split; [lia|]. destruct Hlast as [->|(s & Hs & HsE & Hnb)].
      + unfold previousPartEnd, at_last. simpl. lia.
      + apply atWordStart_S in Hgate as (d & Hd & Hws).
        destruct (Nat.lt_ge_cases (previousPartEnd parts) (S i)) as [|Hge]; [assumption|].
        destruct (Hnb i ltac:(lia)) as (ch & Hch & Hnws). congruence. }
  unfold tiled, pushNewPart.
  destruct Hbefore as [[-> ->] | [Hpos Hprev]].
  - simpl. unfold previousPartEnd, at_last. simpl.
    repeat split; auto; try lia.
    right. exists 0. repeat split; try lia. exact Hchars.
  - replace (negb (i =? 0)) with true
      by (symmetry; apply negb_true_iff, Nat.eqb_neq; lia).
    rewrite <- app_assoc, !map_app. simpl.
    replace (previousPartEnd (parts ++ [textPartUpTo message i lineNumber column parts; p]))
      with (endExclusive (range p)).
    2:{ change (parts ++ [textPartUpTo message i lineNumber column parts; p])
          with (parts ++ [textPartUpTo message i lineNumber column parts] ++ [p]).
        rewrite app_assoc, previousPartEnd_snoc. reflexivity. }
    repeat split; auto.
    + eapply tiles_app; [exact Ht|]. simpl. repeat split; auto; lia.
    + right. exists i. repeat split; try lia. exact Hchars.
Qed.

Lemma tiled_next message i parts :
  tiled message i parts -> tiled message (S i) parts.
Proof.
  intros (Ht & Hle & Hlast). repeat split; auto.
  destruct Hlast as [->|(s & Hs & HsE & Hnb)]; [left; reflexivity|].
  right. exists s. repeat split; auto.
Qed.

Lemma tiles_starts l a b :
  tiles l a b -> strictlyIncreasing (map start l) = true /\ a <= b /\
  (forall r, In r l -> a <= start r).
Proof.
  revert a. induction l as [|r l IH]; simpl; intros a H.
  - subst. repeat split; auto. intros r [].
  - destruct H as (Hs & Hlt & Ht). destruct (IH _ Ht) as (Hinc & Hle & Hall).
    repeat split; try lia.
    + destruct l as [|r' l']; [reflexivity|]. simpl in *.
      destruct Ht as (Hs' & _). rewrite Hinc, andb_true_r.
      apply Nat.ltb_lt. lia.
    + intros r0 [<-|Hin]; [lia|]. specialize (Hall _ Hin). lia.
Qed.

Lemma firstn_add A (l : list A) n m :
  firstn (n + m) l = firstn n l ++ firstn m (skipn n l).
Proof.
  revert l. induction n as [|n IH]; intros [|x l]; simpl;
    try reflexivity.
  - rewrite firstn_nil. reflexivity.
  - rewrite IH. reflexivity.
Qed.

Lemma tiles_concat message parts a b :
  tiles (map (@range svc) parts) a b -> b <= length message ->
  concat (map (coveredText message) parts) = slice message a b.
Proof.
  revert a. induction parts as [|p parts IH]; simpl; intros a H Hb.
  - subst. unfold slice. rewrite Nat.sub_diag. reflexivity.
  - destruct H as (Hs & Hlt & Ht).
    pose proof (tiles_starts _ _ _ Ht) as (_ & Hle & _).
    rewrite (IH _ Ht Hb). unfold coveredText, slice. rewrite Hs.
    set (e := endExclusive (range p)) in *.
    replace (b - a) with ((e - a) + (b - e)) by lia.
    rewrite firstn_add, skipn_skipn.
    replace (e - a + a) with e by lia. reflexivity.
Qed.

(** On an anchored message the parts of the result tile the message: they
    follow one another without gap or overlap from offset 0 to the length
    of the message, none of them is empty, their start offsets increase
    strictly, and the substrings they cover add up to the message. *)
Theorem anchored_parts_tile_the_message sessionId message rt r :
  anchored svc message ->
  fst (parseChatRequest sessionId message rt) = Normal r ->
  tiles (map (@range svc) (parts r)) 0 (length message) /\
  strictlyIncreasing (map (fun p => start (range p)) (parts r)) = true /\
  concat (map (coveredText message) (parts r)) = message.
Proof.
  intros Hanch H. apply fst_normal in H as (rt' & H).
  apply parseChatRequest_normal in H as (s & rt1 & rt2 & Hs & ->). simpl.
  assert (Hinv : tiled message (length message + 0) (scan_parts s)).
  { refine (scan_invariant (tiled message)
              sessionId message (store rt sessionId) _ _ _ _ _ _ _ _ _ _ Hs).
    - intros i lineNumber column parts [p|] rt0 rt3 HI Hc.
      + apply candidate_emits in Hc as [Hg He]. eapply tiled_step; eauto.
      + apply tiled_next. exact HI.
    - repeat split; simpl; auto. unfold previousPartEnd, at_last. simpl. lia. }
  destruct Hinv as (Ht & Hle & _).
  assert (Hall : tiles (map (@range svc) (pushTrailingText message s)) 0
                   (length message)).
  { unfold pushTrailingText.
    destruct (Nat.ltb_spec (previousPartEnd (scan_parts s)) (length message)).
    - rewrite map_app. eapply tiles_app; [exact Ht|]. simpl. auto.
    - replace (length message) with (previousPartEnd (scan_parts s)) by lia.
      exact Ht. }
  split; [exact Hall|]. split.
  - destruct (tiles_starts _ _ _ Hall) as (Hinc & _). rewrite map_map in Hinc.
    exact Hinc.
  - rewrite (tiles_concat message _ 0 (length message) Hall) by lia.
    unfold slice. rewrite Nat.sub_0_r. simpl. apply firstn_all.
Qed.

(** On an anchored message every slash-command or sub-command part covers
    exactly the leader followed by the name of the command it was resolved
    to. *)
Lemma anchored_command_covers_its_name sessionId message rt r p :
  anchored svc message ->
  fst (parseChatRequest sessionId message rt) = Normal r ->
  In p (parts r) ->
  isCommandPart p = true ->
  coveredText message p = chatSubcommandLeader ++ commandName p.
Proof.
  intros Hanch H Hin.
  pose proof (parts_Forall
    (fun p => isCommandPart p = true ->
              coveredText message p = chatSubcommandLeader ++ commandName p)
    sessionId message rt r) as HF.
  rewrite Forall_forall in HF. apply HF; auto.
  - intros q Hq Hq'. destruct q; discriminate.
  - intros i position parts q Hg He Hq.
    assert (Hm : exists m,
              regexMatch slashReg 2 (slice_from message i) = Some m /\
              index m = 0 /\ range q = matchRange i m /\
              commandName q = capture m 1).
    { destruct He as [ | | | m sc Hchar Hm Hnoslash Hnoagent Hfind
                     | m agent subs sub Hchar Hm Hnoslash Hagent Hclean Hblank Hprov Hfind];
        try discriminate; exists m; repeat split; auto;
        try (eapply Hanch; eauto);
        apply find_some in Hfind as [_ Hfind]; apply jsstring_eqb_eq in Hfind;
        exact Hfind. }
    destruct Hm as (m & Hm & Hidx & Hrange & Hname).
    pose proof (regexMatch_span _ _ _ _ Hm) as (_ & _ & Hfull & _).
    rewrite Hidx in Hfull. simpl in Hfull.
    unfold coveredText. rewrite Hrange, Hname, <- (slashReg_full _ _ Hm).
    simpl. rewrite Hfull at 2. unfold slice, slice_from.
    rewrite Nat.sub_0_r. simpl. f_equal. lia.
Qed.

End Properties.

(** * Instances on concrete messages *)

Lemma at_most_one_agent_and_one_command_witness :
  fst (parseChatRequest session (lit "!agentX /sub arg")
         (quietRuntime demoServices [])) = Normal agentWithSubcommand /\
  (length (filter (@isAgentPart demoServices) (parts agentWithSubcommand)) <= 1 /\
   length (filter (fun p => isSlashCommandPart p || isAgentSubcommandPart p)
             (parts agentWithSubcommand)) <= 1).
Proof.
  split; [vm_compute; reflexivity|].
  apply (at_most_one_agent_and_one_command demoServices session
           (lit "!agentX /sub arg") (quietRuntime demoServices [])).
  vm_compute. reflexivity.
Defined.

Lemma leader_inside_word_starts_no_part_witness :
  fst (parseChatRequest session (lit "#v!x") (quietRuntime demoServices []))
    = Normal leaderAfterVariable /\
  nth_error (lit "#v!x") 2 = Some (chr "!") /\
  In (chr "!") [chr "!"; chr "#"; chr "/"] /\
  nth_error (lit "#v!x") 1 = Some (chr "v") /\
  isWhiteSpace (chr "v") = false /\
  (forall p, nth_error (parts leaderAfterVariable) 1 = Some p ->
             In p (parts leaderAfterVariable) /\
             start (range p) = 2 /\
             isTextPart p = true).
Proof.
  repeat split; try (vm_compute; reflexivity); try (simpl; auto; fail).
  - injection H as <-. right. left. reflexivity.
  - injection H as <-. reflexivity.
  - injection H as <-.
    apply (proj1 (leader_inside_word_starts_no_part demoServices session
                    (lit "#v!x") (quietRuntime demoServices []))
             leaderAfterVariable 1 (chr "!") (chr "v")).
    + vm_compute. reflexivity.
    + reflexivity.
    + left. reflexivity.
    + reflexivity.
    + reflexivity.
    + right. left. reflexivity.
    + reflexivity.
Defined.

Lemma agent_is_first_content_witness :
  existsb (fun p => isNonBlankTextPart p || negb (isAgentPart p))
    (parts agentWithSubcommand) = true /\
  fst (tryToParseAgent (lit "!agentX") (lit "!agentX /sub arg !agentX") 17
         {| lineNumber := 1; column := 18 |} (parts agentWithSubcommand)
         (quietRuntime demoServices [])) = Normal None /\
  fst (parseChatRequest session (lit "!agentX /sub arg")
         (quietRuntime demoServices [])) = Normal agentWithSubcommand /\
  (forall p, nth_error (parts agentWithSubcommand) 0 = Some p ->
             In p (parts agentWithSubcommand) /\
             isAgentPart p = true /\
             forallb isWhiteSpace
               (firstn (start (range p)) (lit "!agentX /sub arg")) = true) /\
  getAgent demoServices (lit "agentX") = Some (lit "agentX") /\
  fst (parseChatRequest session (lit "!agentX do the thing")
         (quietRuntime demoServices []))
    = Normal {| parts :=
                  [ChatRequestAgentPart
                     {| start := 0; endExclusive := 7 |}
                     {| startLineNumber := 1; startColumn := 1;
                        endLineNumber := 1; endColumn := 8 |}
                     (lit "agentX" : IChatAgent demoServices);
                   ChatRequestTextPart
                     {| start := 7; endExclusive := 20 |}
                     {| startLineNumber := 1; startColumn := 8;
                        endLineNumber := 1; endColumn := 21 |}
                     (lit " do the thing")];
                text := lit "!agentX do the thing" |}.
Proof.
  pose proof (agent_is_first_content demoServices session
                (lit "!agentX /sub arg") (quietRuntime demoServices []))
    as (Hdeclines & Hfirst & Hexample).
  split; [vm_compute; reflexivity|].
  split; [apply Hdeclines; vm_compute; reflexivity|].
  split; [vm_compute; reflexivity|].
  split.
  - intros p Hp. injection Hp as <-.
    split; [left; reflexivity|]. split; [reflexivity|].
    apply (Hfirst agentWithSubcommand).
    + vm_compute. reflexivity.
    + left. reflexivity.
    + reflexivity.
  - split; [vm_compute; reflexivity|].
    apply (proj2 (proj2 (agent_is_first_content demoServices session
                           (lit "!agentX do the thing")
                           (quietRuntime demoServices [])))).
    vm_compute. reflexivity.
Defined.

Lemma references_snapshot_witness :
  store (racingRuntime demoServices [fileReference]) session
    = store (quietRuntime demoServices [fileReference]) session /\
  fst (parseChatRequest session (lit "/x #file:foo.ts")
         (racingRuntime demoServices [fileReference]))
    = fst (parseChatRequest session (lit "/x #file:foo.ts")
             (quietRuntime demoServices [fileReference])) /\
  existsb (@isDynamicReferencePart demoServices)
    (parts (value (fst (parseChatRequest session (lit "/x #file:foo.ts")
                          (racingRuntime demoServices [fileReference])))))
    = true.
Proof.
  split; [reflexivity|]. split; [|vm_compute; reflexivity].
  apply (proj2 (references_snapshot demoServices session
                  (lit "/x #file:foo.ts")
                  (quietRuntime demoServices [fileReference]))).
  reflexivity.
Defined.

(** C4, as stated, fails: with an agent whose enumeration of sub-commands
    fails, the parse of ["!agentX /sub"] makes the call and ends with the
    error of the call, not with a result. *)
Lemma enumeration_error_not_swallowed :
  provideSlashCommands failingServices (lit "agentX") = inl (lit "boom") /\
  In (ProvideSlashCommands (lit "agentX" : IChatAgent failingServices))
    (journal (snd (parseChatRequest session (lit "!agentX /sub")
                     (quietRuntime failingServices [])))) /\
  fst (parseChatRequest session (lit "!agentX /sub")
         (quietRuntime failingServices []))
    = Throw (lit "boom" : Error failingServices) /\
  ~ (exists r, fst (parseChatRequest session (lit "!agentX /sub")
                      (quietRuntime failingServices [])) = Normal r).
Proof.
  split; [reflexivity|]. split; [vm_compute; auto|].
  split; [vm_compute; reflexivity|].
  intros [r H]. vm_compute in H. discriminate H.
Defined.

Lemma lone_leader_queries_empty_name_witness :
  forallb isWhiteSpace (lit " ") = true /\
  forallb isWhiteSpace (lit "") = true /\
  getAgent demoServices [] = None /\
  journal (snd (parseChatRequest session (lit " !")
                  (quietRuntime demoServices [])))
    = [GetDynamicReferences session; GetAgent []] /\
  exists editorRange,
    fst (parseChatRequest session (lit " !") (quietRuntime demoServices []))
      = Normal {| parts :=
                    [ChatRequestTextPart {| start := 0; endExclusive := 2 |}
                       editorRange (lit " !")];
                  text := lit " !" |}.
Proof.
  pose proof (lone_leader_queries_empty_name demoServices session
                (quietRuntime demoServices []) (lit " ") (lit "")
                eq_refl eq_refl) as (_ & Hjournal & Htext).
  split; [reflexivity|]. split; [reflexivity|]. split; [reflexivity|].
  split; [exact Hjournal | exact (Htext eq_refl)].
Defined.

Lemma variable_argument_is_matched_text_witness :
  hasVariable demoServices (lit "myvar") = true /\
  fst (parseChatRequest session (lit "#myvar:3") (quietRuntime demoServices []))
    = Normal {| parts :=
                  [ChatRequestVariablePart
                     {| start := 0; endExclusive := 8 |}
                     {| startLineNumber := 1; startColumn := 1;
                        endLineNumber := 1; endColumn := 9 |}
                     (lit "myvar") (lit ":3")];
                text := lit "#myvar:3" |}.
Proof.
  split; [reflexivity|].
  apply (proj1 (variable_argument_is_matched_text demoServices session
                  (quietRuntime demoServices []) eq_refl)).
Defined.

(** C5, as stated, fails: the argument captured for ["#myvar:3"] does not
    denote the number 3. *)
Lemma variable_argument_is_not_a_number :
  ~ (exists r rg er arg,
       fst (parseChatRequest session (lit "#myvar:3")
              (quietRuntime demoServices [])) = Normal r /\
       parts r = [ChatRequestVariablePart rg er (lit "myvar") arg] /\
       numericValue arg = Some 3%N).
Proof.
  intros (r & rg & er & arg & Hr & Hparts & Hnum).
  vm_compute in Hr. injection Hr as <-. simpl in Hparts.
  injection Hparts as _ _ <-. vm_compute in Hnum. discriminate Hnum.
Defined.

(** ** The unanchored patterns

    [slashReg] and [variableWithArgReg] lack the [^] anchor of [agentReg]
    and [variableReg]: [match] finds their first occurrence anywhere in the
    rest of the message, while the matchers compute the range of the part as
    if the occurrence started at the scanner's offset. *)

(** C3 on the code. For ["/ /foo"] with [foo] a registered standalone
    command, the scanner stops at the [/] of offset 0, the pattern is found
    at offset 2, and the slash-command part gets the range [[0, 4)]: it
    covers ["/ /f"], not the leader followed by the command name. *)
Theorem slash_command_range_misses_its_text :
  fst (parseChatRequest session (lit "/ /foo") (quietRuntime demoServices []))
    = Normal {| parts :=
                  [ChatRequestSlashCommandPart
                     {| start := 0; endExclusive := 4 |}
                     {| startLineNumber := 1; startColumn := 1;
                        endLineNumber := 1; endColumn := 5 |}
                     (lit "foo" : ISlashCommand demoServices);
                   ChatRequestTextPart
                     {| start := 4; endExclusive := 6 |}
                     {| startLineNumber := 1; startColumn := 5;
                        endLineNumber := 1; endColumn := 7 |}
                     (lit "oo")];
                text := lit "/ /foo" |} /\
  option_map index (regexMatch slashReg 2 (lit "/ /foo")) = Some 2 /\
  slice (lit "/ /foo") 0 4 = lit "/ /f" /\
  slice (lit "/ /foo") 0 4 <> chatSubcommandLeader ++ lit "foo".
Proof.
  repeat split; try (vm_compute; reflexivity).
  vm_compute. discriminate.
Qed.

(** C1 on the code. For ["/ #v /f"], with the command [f] and the variable
    [v] registered, the slash-command part found at offset 5 is given the
    range [[0, 2)], the variable at offset 2 is then preceded by an empty
    text part, and the start offsets [0, 2, 2, 4] of the result are not
    strictly increasing. *)
Theorem parts_not_strictly_increasing :
  fst (parseChatRequest session (lit "/ #v /f") (quietRuntime demoServices []))
    = Normal {| parts :=
                  [ChatRequestSlashCommandPart
                     {| start := 0; endExclusive := 2 |}
                     {| startLineNumber := 1; startColumn := 1;
                        endLineNumber := 1; endColumn := 3 |}
                     (lit "f" : ISlashCommand demoServices);
                   ChatRequestTextPart
                     {| start := 2; endExclusive := 2 |}
                     {| startLineNumber := 1; startColumn := 3;
                        endLineNumber := 1; endColumn := 3 |}
                     (lit "");
                   ChatRequestVariablePart
                     {| start := 2; endExclusive := 4 |}
                     {| startLineNumber := 1; startColumn := 3;
                        endLineNumber := 1; endColumn := 5 |}
                     (lit "v") (lit "");
                   ChatRequestTextPart
                     {| start := 4; endExclusive := 7 |}
                     {| startLineNumber := 1; startColumn := 5;
                        endLineNumber := 1; endColumn := 8 |}
                     (lit " /f")];
                text := lit "/ #v /f" |} /\
  strictlyIncreasing
    (map (fun p => start (range p))
       (parts (value (fst (parseChatRequest session (lit "/ #v /f")
                             (quietRuntime demoServices []))))))
    = false.
Proof.
  split; vm_compute; reflexivity.
Qed.

(** C6 on the code. In ["/ #f:x /foo"], with the command [foo] registered,
    no variable [f] and no dynamic reference at all, the [#] at offset 2 is
    a candidate on which both the variable matcher and the dynamic-reference
    matcher decline; but the slash-command part found at offset 7 was given
    the range [[0, 4)], so offset 2 is covered by that part and by no text
    part. *)
Theorem declined_reference_not_covered_by_text :
  atWordStart (lit "/ #f:x /foo") 2 = true /\
  charAt (lit "/ #f:x /foo") 2 = chatFileVariableLeader /\
  variableDeclines demoServices (slice_from (lit "/ #f:x /foo") 2) /\
  fst (parseChatRequest session (lit "/ #f:x /foo")
         (quietRuntime demoServices []))
    = Normal {| parts :=
                  [ChatRequestSlashCommandPart
                     {| start := 0; endExclusive := 4 |}
                     {| startLineNumber := 1; startColumn := 1;
                        endLineNumber := 1; endColumn := 5 |}
                     (lit "foo" : ISlashCommand demoServices);
                   ChatRequestTextPart
                     {| start := 4; endExclusive := 11 |}
                     {| startLineNumber := 1; startColumn := 5;
                        endLineNumber := 1; endColumn := 12 |}
                     (lit ":x /foo")];
                text := lit "/ #f:x /foo" |} /\
  existsb (fun p => isTextPart p && covers p 2)
    (parts (value (fst (parseChatRequest session (lit "/ #f:x /foo")
                          (quietRuntime demoServices [])))))
    = false.
Proof. repeat split; vm_compute; reflexivity. Qed.

Lemma anchored_agentWithSubcommand :
  anchored demoServices (lit "!agentX /sub arg").
Proof.
  intros i m Hgate H.
  assert (Hi : i < 16).
  { destruct H as [[Hc _]|[Hc _]]; rewrite charAt_nat in Hc;
      destruct (nth_error (lit "!agentX /sub arg") i) eqn:E; try discriminate Hc;
      change 16 with (length (lit "!agentX /sub arg"));
      apply nth_error_Some; rewrite E; discriminate. }
  do 16 (destruct i as [|i];
         [destruct H as [[Hc Hm]|[Hc [_ Hm]]]; vm_compute in Hc, Hm;
          try discriminate Hc; injection Hm as <-; reflexivity|]).
  lia.
Qed.

Lemma anchored_parts_tile_the_message_instance :
  anchored demoServices (lit "!agentX /sub arg") /\
  fst (parseChatRequest session (lit "!agentX /sub arg")
         (quietRuntime demoServices [])) = Normal agentWithSubcommand /\
  map (fun p => (start (range p), endExclusive (range p)))
    (parts agentWithSubcommand) = [(0, 7); (7, 8); (8, 12); (12, 16)] /\
  concat (map (coveredText (lit "!agentX /sub arg")) (parts agentWithSubcommand))
    = lit "!agentX /sub arg".
Proof.
  split; [exact anchored_agentWithSubcommand|].
  split; [vm_compute; reflexivity|]. split; [vm_compute; reflexivity|].
  apply (anchored_parts_tile_the_message demoServices session
           (lit "!agentX /sub arg") (quietRuntime demoServices [])
           agentWithSubcommand anchored_agentWithSubcommand).
  vm_compute. reflexivity.
Defined.

(** * Further properties of the parser *)

(** ** The text of a match *)

Lemma boundary_exec g s pos caps e c :
  exec (boundary g) s pos caps (fun p c => Some (p, c)) = Some (e, c) ->
  e = pos /\ exists v, c = setCapture (g - 1) v caps.
Proof.
  unfold boundary. cbn [exec]. intros H.
  destruct (nth_error s pos) as [d|];
    [destruct (isWhiteSpace d)|];
    try (injection H as <- <-; split; eauto; fail);
    (destruct (pos =? length s);
     [injection H as <- <-; split; eauto|]);
    (destruct (xorb _ _); [|discriminate]);
    injection H as <- <-; split; eauto.
Qed.

Lemma slice_run p s a n :
  n <= runLength p (skipn a s) -> forallb p (slice s a (a + n)) = true.
Proof.
  intros H. unfold slice. replace (a + n - a) with n by lia.
  generalize dependent (skipn a s). clear. intros l. revert l.
  induction n as [|n IH]; intros [|c l] H; simpl in *; try reflexivity; try lia.
  destruct (p c); [|lia]. simpl. apply IH. lia.
Qed.

Lemma slice_run_nonempty p s a n :
  1 <= n <= runLength p (skipn a s) -> slice s a (a + n) <> [].
Proof.
  intros H. unfold slice. replace (a + n - a) with n by lia.
  destruct n as [|n]; [lia|].
  destruct (skipn a s); simpl in *; [lia | intros E; discriminate E].
Qed.

Lemma slice_cons s a b c :
  nth_error s a = Some c -> a < b -> slice s a b = c :: slice s (S a) b.
Proof.
  intros H Hlt. unfold slice. replace (b - a) with (S (b - S a)) by lia.
  assert (E : skipn a s = c :: skipn (S a) s).
  { clear - H. revert a H. induction s as [|x s IH]; intros [|a] H; simpl in *;
      try discriminate; [congruence | apply IH; exact H]. }
  rewrite E. reflexivity.
Qed.

Lemma slice_split s a b c :
  a <= b <= c -> slice s a c = slice s a b ++ slice s b c.
Proof.
  intros H. unfold slice. replace (c - a) with ((b - a) + (c - b)) by lia.
  rewrite firstn_add, skipn_skipn. replace (b - a + a) with b by lia.
  reflexivity.
Qed.

(** The text matched by [agentReg] starts the string and is the leader
    followed by the captured name, which is made of name characters. *)
(** The text matched by [agentReg] starts the string and is the leader
    followed by the captured name, which is made of name characters. *)
Lemma agentReg_full s m :
  regexMatch agentReg 2 s = Some m ->
  index m = 0 /\
  full m = chatAgentLeader ++ capture m 1 /\
  forallb isNameChar (capture m 1) = true.
Proof.
  intros H. pose proof (anchored_index_0 _ _ _ _ H) as Hidx.
  unfold regexMatch in H. apply searchFrom_groups in H as (e & He & Hf).
  rewrite Hidx in *. split; [reflexivity|].
  unfold agentReg in He. cbn [exec] in He. simpl (0 =? 0) in He. cbv iota in He.
  destruct (nth_error s 0) as [d|] eqn:Ed; [|discriminate].
  destruct (N.eqb_spec d (chr "!")); [subst d|discriminate].
  apply greedy_some in He as (n & Hn & He).
  destruct (exec (boundary 2) s (1 + n) _ _) as [[e' c']|] eqn:Eb in He;
    [|discriminate].
  apply boundary_exec in Eb as (-> & v & ->). injection He as <- Hg.
  assert (Hc : capture m 1 = slice s 1 (1 + n))
    by (unfold capture, group; rewrite <- Hg; reflexivity).
  rewrite Hc, Hf. split.
  - rewrite (slice_cons s 0 _ _ Ed) by lia. reflexivity.
  - apply (slice_run isNameChar s 1 n). lia.
Qed.

(** The name captured by [slashReg] is a non-empty run of name
    characters. *)
Lemma slashReg_name s m :
  regexMatch slashReg 2 s = Some m ->
  capture m 1 <> [] /\ forallb isNameChar (capture m 1) = true.
Proof.
  intros H. unfold regexMatch in H. apply searchFrom_groups in H as (e & He & Hf).
  unfold slashReg in He. cbn [exec] in He.
  destruct (nth_error s (index m)) as [d|] eqn:Ed; [|discriminate].
  destruct (N.eqb_spec d (chr "/")); [subst d|discriminate].
  apply greedy_some in He as (n & Hn & He).
  destruct (exec (boundary 2) s (S (index m) + n) _ _) as [[e' c']|] eqn:Eb in He;
    [|discriminate].
  apply boundary_exec in Eb as (-> & v & ->). injection He as <- Hg.
  assert (Hc : capture m 1 = slice s (S (index m)) (S (index m) + n))
    by (unfold capture, group; rewrite <- Hg; reflexivity).
  rewrite Hc. split.
  - apply (slice_run_nonempty isNameChar). exact Hn.
  - apply (slice_run isNameChar). lia.
Qed.

(** The text matched by [variableReg] starts the string and is the leader,
    the captured name and the captured argument; the name is a non-empty run
    of name characters and the argument, when present, a colon followed by
    digits. *)
Lemma variableReg_full s m :
  regexMatch variableReg 3 s = Some m ->
  index m = 0 /\
  full m = chatFileVariableLeader ++ capture m 1 ++ capture m 2 /\
  capture m 1 <> [] /\
  forallb isNameChar (capture m 1) = true /\
  (capture m 2 = [] \/
   exists digits, capture m 2 = chr ":" :: digits /\ digits <> [] /\
                  forallb isDigit digits = true).
Proof.
  intros H. pose proof (anchored_index_0 _ _ _ _ H) as Hidx.
  unfold regexMatch in H. apply searchFrom_groups in H as (e & He & Hf).
  rewrite Hidx in *. split; [reflexivity|].
  unfold variableReg in He. cbn [exec] in He. simpl (0 =? 0) in He. cbv iota in He.
  destruct (nth_error s 0) as [d|] eqn:Ed; [|discriminate].
  destruct (N.eqb_spec d (chr "#")); [subst d|discriminate].
  apply greedy_some in He as (n & Hn & He).
  pose proof (slice_run_nonempty isNameChar s 1 n Hn) as Hne.
  pose proof (slice_run isNameChar s 1 n ltac:(lia)) as Hnc.
  match type of He with
  | match ?opt with Some _ => _ | None => ?skip end = _ =>
      destruct opt as [[e1 c1]|] eqn:Eopt
  end.
  - (* the argument is present *)
    injection He as -> ->.
    destruct (nth_error s (1 + n)) as [d|] eqn:Ec; [|discriminate].
    destruct (N.eqb_spec d (chr ":")); [subst d|discriminate].
    apply greedy_some in Eopt as (k & Hk & Eb).
    apply boundary_exec in Eb as (-> & v & Hg).
    assert (Hc1 : capture m 1 = slice s 1 (1 + n))
      by (unfold capture, group; rewrite Hg; reflexivity).
    assert (Hc2 : capture m 2 = slice s (1 + n) (S (1 + n) + k))
      by (unfold capture, group; rewrite Hg; reflexivity).
    rewrite Hc1, Hc2, Hf. repeat split; auto.
    + rewrite (slice_cons s 0 _ _ Ed) by lia.
      rewrite (slice_split s 1 (1 + n) (S (1 + n) + k)) by lia. reflexivity.
    + right. exists (slice s (S (1 + n)) (S (1 + n) + k)).
      rewrite (slice_cons s (1 + n) _ _ Ec) by lia. repeat split.
      * apply (slice_run_nonempty isDigit). exact Hk.
      * apply (slice_run isDigit). lia.
  - (* the argument is absent *)
    apply boundary_exec in He as (-> & v & Hg).
    assert (Hc1 : capture m 1 = slice s 1 (1 + n))
      by (unfold capture, group; rewrite Hg; reflexivity).
    assert (Hc2 : capture m 2 = [])
      by (unfold capture, group; rewrite Hg; reflexivity).
    rewrite Hc1, Hc2, Hf, app_nil_r. repeat split; auto.
    rewrite (slice_cons s 0 _ _ Ed) by lia. reflexivity.
Qed.

(** ** Editor positions *)

Lemma positionAt_S message i c :
  nth_error message i = Some c ->
  positionAt message (S i) = advance (positionAt message i) c.
Proof.
  intros H. unfold positionAt.
  assert (E : firstn (S i) message = firstn i message ++ [c]).
  { revert i H. induction message as [|x l IH]; intros [|i] H; simpl in *;
      try discriminate.
    - injection H as ->. reflexivity.
    - rewrite (IH _ H). reflexivity. }
  rewrite E, fold_left_app. reflexivity.
Qed.

(** The text of a match on the rest of the message from offset [i] is the
    substring of the message at the offset of the match. *)
Lemma matched_text message i r ngroups m :
  regexMatch r ngroups (slice_from message i) = Some m ->
  slice message (i + index m) (i + index m + length (full m)) = full m.
Proof.
  intros H. pose proof (regexMatch_span r ngroups _ m H) as (_ & _ & Hf & _).
  rewrite Hf at 2. unfold slice, slice_from. rewrite skipn_skipn.
  f_equal; [lia | f_equal; lia].
Qed.

Section FurtherProperties.

Variable svc : Services.
Implicit Types (refs : list (IDynamicReference (Data svc)))
  (parts : list (IParsedChatRequestPart svc)) (p : IParsedChatRequestPart svc)
  (rt : Runtime svc).

(** The loop invariant rule of the scanner, with the editor position that
    the scanner holds at each offset. *)
Lemma scan_invariant_at (Inv : nat -> list (IParsedChatRequestPart svc) -> Prop)
    sessionId message refs :
  (forall i parts newPart rt rt1,
      i < length message ->
      Inv i parts ->
      candidate sessionId message refs i (lineNumber (positionAt message i))
        (column (positionAt message i)) parts rt = (Normal newPart, rt1) ->
      Inv (S i)
        (pushNewPart message i (lineNumber (positionAt message i))
           (column (positionAt message i)) parts newPart)) ->
  forall n i parts rt s rt',
    n + i <= length message ->
    Inv i parts ->
    scan sessionId message refs n i (lineNumber (positionAt message i))
      (column (positionAt message i)) parts rt = (Normal s, rt') ->
    Inv (n + i) (scan_parts s) /\
    scan_lineNumber s = lineNumber (positionAt message (n + i)) /\
    scan_column s = column (positionAt message (n + i)).
Proof.
  intros Hstep. induction n as [|n IH]; intros i parts rt s rt' Hn HI H.
  - simpl in H. apply ret_normal in H as [<- _]. simpl. auto.
  - simpl in H. apply bind_normal in H as (newPart & rt1 & Hc & H).
    assert (Hi : i < length message) by lia.
    specialize (Hstep _ _ _ _ _ Hi HI Hc).
    replace (S n + i) with (n + S i) by lia.
    destruct (nth_error message i) as [c|] eqn:Ec;
      [|apply nth_error_None in Ec; lia].
    rewrite charAt_nat, Ec in H. simpl in H. rewrite andb_true_r in H.
    destruct (c =? 10)%N eqn:Enl;
      (apply (IH (S i) (pushNewPart message i (lineNumber (positionAt message i))
                 (column (positionAt message i)) parts newPart) rt1 s rt');
       [lia | exact Hstep |];
       rewrite (positionAt_S message i c Ec); unfold advance; rewrite Enl;
       simpl; exact H).
Qed.


Lemma position_eta (position : Position) :
  {| lineNumber := lineNumber position; column := column position |} = position.
Proof. destruct position. reflexivity. Qed.

(** Every part of a result satisfies [Q] as soon as the text parts that the
    scanner builds and the parts that the matchers emit do, given that the
    parts before them do. *)
Lemma parts_built (Q : IParsedChatRequestPart svc -> Prop) sessionId message rt r :
  (forall i parts,
      i <= length message -> Forall Q parts ->
      Q (textPartUpTo message i (lineNumber (positionAt message i))
           (column (positionAt message i)) parts)) ->
  (forall i parts p,
      i < length message -> atWordStart message i = true -> Forall Q parts ->
      Emits message (store rt sessionId) i (positionAt message i) parts p ->
      Q p) ->
  fst (parseChatRequest sessionId message rt) = Normal r ->
  Forall Q (parts r).
Proof.
  intros Htext Hemit H. apply fst_normal in H as (rt' & H).
  apply parseChatRequest_normal in H as (s & rt1 & rt2 & Hs & ->). simpl.
  change 1 with (lineNumber (positionAt message 0)) in Hs at 1.
  change 1 with (column (positionAt message 0)) in Hs at 1.
  apply (scan_invariant_at (fun _ => Forall Q)) in Hs as (Hinv & Hl & Hc).
  - rewrite Nat.add_0_r in *. unfold pushTrailingText.
    destruct (_ <? _); [|exact Hinv].
    apply Forall_app. split; [exact Hinv|]. repeat constructor.
    rewrite Hl, Hc. apply Htext; auto.
  - intros i parts [p|] rt0 rt3 Hi HI Hcand; [|exact HI].
    apply candidate_emits in Hcand as [Hg He]. rewrite position_eta in He.
    unfold pushNewPart.
    apply Forall_app. split.
    + destruct (negb (i =? 0)); [|exact HI].
      apply Forall_app. split; [exact HI|]. repeat constructor.
      apply Htext; auto. lia.
    + repeat constructor. eapply Hemit; eauto.
  - lia.
  - constructor.
Qed.


(** An emitted part has the range and the editor range of a match of one
    of the four patterns on the rest of the message. *)
Lemma Emits_match message refs i position parts p :
  Emits message refs i position parts p ->
  exists r ngroups m,
    In (r, ngroups)
      [(agentReg, 2); (variableReg, 3); (slashReg, 2); (variableWithArgReg, 3)] /\
    regexMatch r ngroups (slice_from message i) = Some m /\
    range p = matchRange i m /\
    editorRange p = matchEditorRange position m.
Proof.
  intros [m Hchar Hm Hv | m ref Hchar Hdecl Hm Hfind
         | m agent Hchar Hm Hget Hnil Hblank
         | m sc Hchar Hm Hnoslash Hnoagent Hfind
         | m agent subs sub Hchar Hm Hnoslash Hagent Hclean Hblank Hprov Hfind];
    [exists variableReg, 3, m | exists variableWithArgReg, 3, m
    | exists agentReg, 2, m | exists slashReg, 2, m | exists slashReg, 2, m];
    simpl; auto 10.
Qed.

Lemma Emits_within message refs i position parts p :
  i <= length message ->
  Emits message refs i position parts p ->
  start (range p) = i /\ i < endExclusive (range p) <= length message.
Proof.
  intros Hi He. apply Emits_match in He as (r & ng & m & Hin & Hm & -> & _).
  simpl. pose proof (regexMatch_span r ng _ m Hm) as (Hmin & Hmax & _).
  unfold slice_from in Hmax. rewrite length_skipn in Hmax.
  assert (1 <= minLength r).
  { simpl in Hin. destruct Hin as [E|[E|[E|[E|[]]]]]; injection E as <- _;
      simpl; lia. }
  split; [reflexivity | lia].
Qed.

Lemma previousPartEnd_at_last parts :
  previousPartEnd parts
  = match at_last parts with Some p => endExclusive (range p) | None => 0 end.
Proof. reflexivity. Qed.

Lemma at_last_In A (l : list A) x : at_last l = Some x -> In x l.
Proof. unfold at_last. apply nth_error_In. Qed.

Lemma at_last_nil_iff A (l : list A) : at_last l = None <-> l = [].
Proof.
  unfold at_last. split.
  - intros H. apply nth_error_None in H. destruct l; [reflexivity | simpl in H; lia].
  - intros ->. reflexivity.
Qed.

Lemma hd_error_app_l A (l l' : list A) x :
  hd_error l = Some x -> hd_error (l ++ l') = Some x.
Proof. destruct l; simpl; [discriminate | auto]. Qed.


Lemma previousPartEnd_within message parts :
  Forall (withinMessage message) parts -> previousPartEnd parts <= length message.
Proof.
  intros H. rewrite previousPartEnd_at_last.
  destruct (at_last parts) as [p|] eqn:E; [|lia].
  apply at_last_In in E. rewrite Forall_forall in H. apply H in E as (_ & He & _).
  exact He.
Qed.

(** The parts of a parse result lie within the message: every range ends at
    or before the end of the message, every text part carries the substring
    at its range, the first part starts at offset 0 and the last part ends
    at the end of the message; there is no part exactly when the message is
    empty. *)
Theorem ranges_within_message sessionId message rt r :
  fst (parseChatRequest sessionId message rt) = Normal r ->
  Forall (withinMessage message) (parts r) /\
  (parts r = [] <-> message = []) /\
  (forall p, hd_error (parts r) = Some p -> start (range p) = 0) /\
  (forall p, at_last (parts r) = Some p ->
             endExclusive (range p) = length message).
Proof.
  intros H. apply fst_normal in H as (rt' & H).
  apply parseChatRequest_normal in H as (s & rt1 & rt2 & Hs & ->). simpl.
  change 1 with (lineNumber (positionAt message 0)) in Hs at 1.
  change 1 with (column (positionAt message 0)) in Hs at 1.
  apply (scan_invariant_at
           (fun i parts => Forall (withinMessage message) parts /\
                           (forall p, hd_error parts = Some p -> start (range p) = 0) /\
                           (i = 0 -> parts = [])))
    in Hs as ((Hall & Hhd & Hzero) & _).
  - pose proof (previousPartEnd_within message _ Hall) as Hle.
    unfold pushTrailingText.
    destruct (Nat.ltb_spec (previousPartEnd (scan_parts s)) (length message)) as [Hlt|Hge].
    + repeat split.
      * apply Forall_app. split; [exact Hall|]. repeat constructor; simpl; lia.
      * intros E. apply app_eq_nil in E as [_ E]. discriminate.
      * intros ->. simpl in Hlt. lia.
      * intros p Hp. destruct (scan_parts s) as [|q l] eqn:E.
        -- simpl in Hp. injection Hp as <-. reflexivity.
        -- apply Hhd. simpl in *. exact Hp.
      * intros p Hp. rewrite at_last_snoc in Hp. injection Hp as <-. reflexivity.
    + repeat split; auto.
      * intros E. rewrite E in Hge. unfold previousPartEnd, at_last in Hge.
        simpl in Hge. destruct message; [reflexivity | simpl in Hge; lia].
      * intros ->. apply Hzero. reflexivity.
      * intros p Hp. rewrite previousPartEnd_at_last, Hp in Hle, Hge. lia.
  - intros i parts newPart rt0 rt3 Hi (Hall & Hhd & _) Hcand.
    destruct newPart as [p|]; [|repeat split; auto; discriminate].
    apply candidate_emits in Hcand as [Hg He].
    destruct (Emits_within message _ i _ parts p ltac:(lia) He) as (Hst & Hlt & Hle).
    pose proof (previousPartEnd_within message _ Hall) as Hprev.
    unfold pushNewPart. split; [|split; [|discriminate]].
    + apply Forall_app. split.
      * destruct (negb (i =? 0)); [|exact Hall].
        apply Forall_app. split; [exact Hall|]. repeat constructor; simpl; lia.
      * repeat constructor; try lia. destruct He; exact I.
    + intros q Hq. destruct parts as [|q0 l].
      * destruct (Nat.eqb_spec i 0) as [->|Hne]; simpl in Hq; injection Hq as <-.
        -- exact Hst.
        -- reflexivity.
      * apply Hhd. destruct (negb (i =? 0)); simpl in *; exact Hq.
  - lia.
  - split; [constructor | split; [intros p Hp; discriminate | reflexivity]].
Qed.


(** A part that is not text has its editor range on one line: it starts at
    the line and column of the part's start offset and is as many columns
    wide as the offset range is long. The editor range of a text part ends
    at the line and column of the part's end offset. *)
Theorem editor_ranges_follow_offsets sessionId message rt r p :
  fst (parseChatRequest sessionId message rt) = Normal r ->
  In p (parts r) ->
  (isTextPart p = false ->
   onOneLine (editorRange p) (positionAt message (start (range p)))
     (endExclusive (range p) - start (range p))) /\
  (isTextPart p = true ->
   endLineNumber (editorRange p)
     = lineNumber (positionAt message (endExclusive (range p))) /\
   endColumn (editorRange p)
     = column (positionAt message (endExclusive (range p)))).
Proof.
  intros H Hin.
  pose proof (parts_built
    (fun p =>
       (isTextPart p = false ->
        onOneLine (editorRange p) (positionAt message (start (range p)))
          (endExclusive (range p) - start (range p))) /\
       (isTextPart p = true ->
        endLineNumber (editorRange p)
          = lineNumber (positionAt message (endExclusive (range p))) /\
        endColumn (editorRange p)
          = column (positionAt message (endExclusive (range p)))))
    sessionId message rt r) as HF.
  rewrite Forall_forall in HF. apply HF; auto.
  - intros i parts Hi _. simpl. split; [discriminate | auto].
  - intros i parts q Hi Hg _ He.
    pose proof (Emits_start _ _ _ _ _ _ _ He) as [_ Hnt].
    apply Emits_match in He as (re & ng & m & _ & _ & Hr & Her).
    rewrite Hr, Her, Hnt. simpl. split; [|discriminate].
    intros _. unfold onOneLine. simpl. repeat split. lia.
Qed.

Lemma not_leader c :
  isLeader c = false ->
  jsstring_eqb [c] chatFileVariableLeader = false /\
  jsstring_eqb [c] chatAgentLeader = false /\
  jsstring_eqb [c] chatSubcommandLeader = false.
Proof.
  unfold isLeader. intros H.
  apply orb_false_elim in H as [H H3]. apply orb_false_elim in H as [H1 H2].
  simpl. rewrite !andb_true_r. auto.
Qed.

Lemma candidate_idle sessionId message refs i lineNumber column parts :
  (forall c, nth_error message i = Some c -> isLeader c = true ->
             atWordStart message i = false) ->
  candidate sessionId message refs i lineNumber column parts = ret None.
Proof.
  intros H. unfold candidate. fold (atWordStart message i).
  rewrite charAt_nat. destruct (nth_error message i) as [c|].
  - destruct (isLeader c) eqn:El.
    + rewrite (H c eq_refl El). reflexivity.
    + destruct (not_leader c El) as (-> & -> & ->).
      destruct (atWordStart message i); reflexivity.
  - simpl. destruct (atWordStart message i); reflexivity.
Qed.

Lemma scan_idle sessionId message refs n : forall i lineNumber column parts rt,
  (forall j c, i <= j < i + n -> nth_error message j = Some c ->
     isLeader c = true -> atWordStart message j = false) ->
  exists lineNumber' column',
    scan sessionId message refs n i lineNumber column parts rt
      = (Normal {| scan_parts := parts; scan_lineNumber := lineNumber';
                   scan_column := column' |}, rt).
Proof.
  induction n as [|n IH]; intros i lineNumber column parts rt H; simpl.
  - exists lineNumber, column. reflexivity.
  - rewrite candidate_idle by (intros c Hc; apply (H i c); auto; lia).
    unfold bind, ret. simpl.
    destruct (jsstring_eqb _ _); apply IH; intros j c Hj; apply H; lia.
Qed.

(** A message in which no leader character stands at the start or right
    after white space parses to a single text part over the whole message
    (to no part at all when it is empty), and the parser consults no
    registry. *)
Theorem no_candidate_single_text sessionId message rt :
  (forall j c, nth_error message j = Some c -> isLeader c = true ->
               atWordStart message j = false) ->
  fst (parseChatRequest sessionId message rt)
    = Normal {| parts :=
                  match message with
                  | [] => []
                  | _ => [ChatRequestTextPart
                            {| start := 0; endExclusive := length message |}
                            {| startLineNumber := 1; startColumn := 1;
                               endLineNumber :=
                                 lineNumber (positionAt message (length message));
                               endColumn :=
                                 column (positionAt message (length message)) |}
                            message]
                  end;
                text := message |} /\
  journal (snd (parseChatRequest sessionId message rt))
    = journal rt ++ [GetDynamicReferences sessionId].
Proof.
  intros H.
  destruct (scan_idle sessionId message (store rt sessionId) (length message) 0 1 1 []
              (snd (emit (GetDynamicReferences sessionId) rt)))
    as (l & c & Hs).
  { intros j ch _. apply H. }
  pose proof Hs as Hpos.
  change 1 with (lineNumber (positionAt message 0)) in Hpos at 1.
  change 1 with (column (positionAt message 0)) in Hpos at 1.
  apply (scan_invariant_at (fun _ _ => True)) in Hpos as (_ & Hl & Hc);
    auto; try lia.
  simpl in Hl, Hc. rewrite Nat.add_0_r in Hl, Hc. subst l c.
  unfold parseChatRequest, call_getDynamicReferences, bind.
  simpl in *. rewrite Hs. simpl. split; [|reflexivity].
  unfold pushTrailingText, previousPartEnd, at_last. simpl.
  destruct message as [|ch message]; [reflexivity|].
  simpl (0 <? _). cbv iota. unfold textPartUpTo, previousPartEnd,
    previousPartEditorRangeEndLine, previousPartEditorRangeEndCol, at_last, slice.
  simpl. rewrite firstn_all. reflexivity.
Qed.

(** A variable part names a registered variable and covers exactly the
    leader, the name and the argument it carries. *)
Theorem variable_part_is_registered sessionId message rt r rg er name arg :
  fst (parseChatRequest sessionId message rt) = Normal r ->
  In (ChatRequestVariablePart rg er name arg) (parts r) ->
  hasVariable svc name = true /\
  slice message (start rg) (endExclusive rg)
    = chatFileVariableLeader ++ name ++ arg /\
  name <> [] /\
  forallb isNameChar name = true /\
  (arg = [] \/
   exists digits, arg = chr ":" :: digits /\ digits <> [] /\
                  forallb isDigit digits = true).
Proof.
  intros H Hin.
  assert (Hall : Forall
    (fun p : IParsedChatRequestPart svc => match p with
              | ChatRequestVariablePart rg er name arg =>
                  hasVariable svc name = true /\
                  slice message (start rg) (endExclusive rg)
                    = chatFileVariableLeader ++ name ++ arg /\
                  name <> [] /\
                  forallb isNameChar name = true /\
                  (arg = [] \/
                   exists digits, arg = chr ":" :: digits /\ digits <> [] /\
                                  forallb isDigit digits = true)
              | _ => True
              end) (parts r)).
  { apply (parts_built _ sessionId message rt r); [intros; exact I | | exact H].
    intros i parts q Hi Hg _ He.
    destruct He as [m Hchar Hm Hv | | | | ]; try exact I.
    pose proof (matched_text _ _ _ _ _ Hm) as Ht.
    apply variableReg_full in Hm as (Hidx & Hfull & Hne & Hnc & Harg).
    rewrite Hidx, Nat.add_0_r in Ht. simpl. rewrite Ht. auto. }
  rewrite Forall_forall in Hall. apply (Hall _ Hin).
Qed.

(** An agent part holds the agent that the registry returns for the name
    which follows the leader in the text it covers. *)
Theorem agent_part_is_registered sessionId message rt r rg er agent :
  fst (parseChatRequest sessionId message rt) = Normal r ->
  In (ChatRequestAgentPart rg er agent) (parts r) ->
  exists name,
    getAgent svc name = Some agent /\
    slice message (start rg) (endExclusive rg) = chatAgentLeader ++ name /\
    forallb isNameChar name = true.
Proof.
  intros H Hin.
  assert (Hall : Forall
    (fun p : IParsedChatRequestPart svc => match p with
              | ChatRequestAgentPart rg er agent =>
                  exists name,
                    getAgent svc name = Some agent /\
                    slice message (start rg) (endExclusive rg)
                      = chatAgentLeader ++ name /\
                    forallb isNameChar name = true
              | _ => True
              end) (parts r)).
  { apply (parts_built _ sessionId message rt r); [intros; exact I | | exact H].
    intros i parts q Hi Hg _ He.
    destruct He as [ | | m a Hchar Hm Hget Hnil Hblank | | ]; try exact I.
    pose proof (matched_text _ _ _ _ _ Hm) as Ht.
    apply agentReg_full in Hm as (Hidx & Hfull & Hnc).
    rewrite Hidx, Nat.add_0_r in Ht. simpl. rewrite Ht.
    exists (capture m 1). auto. }
  rewrite Forall_forall in Hall. apply (Hall _ Hin).
Qed.


Lemma agentLeads_snoc parts x :
  agentLeads parts ->
  (isAgentPart x = true ->
   (parts = [] \/ exists q, parts = [q] /\ isBlankTextPart q = true) /\
   existsb (@isSlashCommandPart svc) parts = false) ->
  (isSlashCommandPart x = true -> existsb (@isAgentPart svc) parts = false) ->
  (isAgentSubcommandPart x = true ->
   Forall (@agentOrBlank svc) parts /\ existsb (@isAgentPart svc) parts = true) ->
  agentLeads (parts ++ [x]).
Proof.
  intros (HA & HB & HC) Hag Hsl Hsub.
  assert (Hnth : forall k p, nth_error (parts ++ [x]) k = Some p ->
            (k < length parts /\ nth_error parts k = Some p) \/
            (k = length parts /\ p = x)).
  { intros k p Hk. destruct (Nat.lt_ge_cases k (length parts)) as [Hlt|Hge].
    - left. rewrite nth_error_app1 in Hk by lia. auto.
    - right. rewrite nth_error_app2 in Hk by lia.
      destruct (k - length parts) as [|d] eqn:E; simpl in Hk.
      + injection Hk as <-. split; [lia | reflexivity].
      + destruct d; discriminate. }
  split; [|split].
  - intros k p Hk Hp. apply Hnth in Hk as [[Hlt Hk]|[-> ->]].
    + destruct (HA k p Hk Hp) as [->|(-> & q & Hq & Hb)]; [left; reflexivity|].
      right. split; [reflexivity|]. exists q. split; [|exact Hb].
      rewrite nth_error_app1 by lia. exact Hq.
    + destruct (Hag Hp) as [[->|(q & -> & Hb)] _]; [left; reflexivity|].
      right. split; [reflexivity|]. exists q. auto.
  - rewrite !existsb_app. simpl. rewrite !orb_false_r.
    intros H. apply orb_true_iff in H as [H|H].
    + rewrite (HB H). simpl. destruct (isSlashCommandPart x) eqn:E; [|reflexivity].
      rewrite (Hsl eq_refl) in H. discriminate.
    + destruct (Hag H) as [_ ->]. destruct x; try discriminate; reflexivity.
  - intros k p Hk Hp. apply Hnth in Hk as [[Hlt Hk]|[-> ->]].
    + rewrite firstn_app. replace (k - length parts) with 0 by lia.
      simpl. rewrite app_nil_r. apply (HC k p Hk Hp).
    + rewrite firstn_app, Nat.sub_diag, firstn_all. simpl. rewrite app_nil_r.
      apply Hsub. exact Hp.
Qed.

Lemma clean_parts_agentOrBlank parts :
  existsb (fun p => isNonBlankTextPart p
                    || (negb (isAgentPart p) && negb (isTextPart p)))
    parts = false ->
  Forall (@agentOrBlank svc) parts.
Proof.
  induction parts as [|q parts IH]; intros H; [constructor|].
  simpl in H. apply orb_false_elim in H as [Hq H].
  constructor; [|exact (IH H)].
  apply orb_false_elim in Hq as [Hnb Hk]. unfold agentOrBlank.
  destruct q; simpl in *; try discriminate; auto.
  right. apply negb_false_iff in Hnb. apply isEmpty_true in Hnb.
  apply trim_nil. exact Hnb.
Qed.

Lemma agentLeads_step message refs i position lineNumber column parts p :
  agentLeads parts ->
  Emits message refs i position parts p ->
  agentLeads (pushNewPart message i lineNumber column parts (Some p)).
Proof.
  intros Hinv He. unfold pushNewPart.
  set (t := textPartUpTo message i lineNumber column parts).
  assert (Ht : agentLeads (parts ++ [t]))
    by (apply agentLeads_snoc; auto; discriminate).
  destruct He as [m Hchar Hm Hv | m ref Hchar Hdecl Hm Hfind
                 | m agent Hchar Hm Hget Hnil Hblank
                 | m sc Hchar Hm Hnoslash Hnoagent Hfind
                 | m agent subs sub Hchar Hm Hnoslash Hagent Hclean Hblank Hprov Hfind];
    destruct (negb (i =? 0)) eqn:Ei.
  all: try subst parts.
  all: apply agentLeads_snoc;
    [assumption | intros Hx | intros Hx | intros Hx]; try discriminate Hx.
  - split; [|reflexivity].
    right. exists t. split; [reflexivity|]. unfold t, textPartUpTo. simpl.
    apply trim_nil. exact Hblank.
  - split; [left|]; reflexivity.
  - rewrite existsb_app, Hnoagent. reflexivity.
  - exact Hnoagent.
  - split.
    + rewrite Forall_app. split; [apply clean_parts_agentOrBlank; exact Hclean|].
      constructor; [|constructor]. right. unfold t, textPartUpTo. simpl.
      apply trim_nil. exact Hblank.
    + rewrite existsb_app, Hagent. reflexivity.
  - split; [apply clean_parts_agentOrBlank; exact Hclean | exact Hagent].
Qed.

Lemma agentLeads_parse sessionId message rt r :
  fst (parseChatRequest sessionId message rt) = Normal r ->
  agentLeads (parts r).
Proof.
  intros H. apply fst_normal in H as (rt' & H).
  apply parseChatRequest_normal in H as (s & rt1 & rt2 & Hs & ->). simpl.
  apply (scan_invariant svc (fun _ => @agentLeads svc)) in Hs.
  - unfold pushTrailingText. destruct (_ <? _); [|exact Hs].
    apply agentLeads_snoc; auto; discriminate.
  - intros i lineNumber column parts [p|] rt0 rt3 HI Hcand; [|exact HI].
    apply candidate_emits in Hcand as [_ He].
    eapply agentLeads_step; eauto.
  - split; [|split]; [intros [|j] q Hj; discriminate Hj | discriminate | intros [|j] q Hj; discriminate Hj].
Qed.

(** An agent part is the first part of the result, or the second after a
    blank text part; a result with an agent part has no slash-command
    part. *)
Theorem agent_leads_the_request sessionId message rt r k p :
  fst (parseChatRequest sessionId message rt) = Normal r ->
  nth_error (parts r) k = Some p ->
  isAgentPart p = true ->
  (k = 0 \/ (k = 1 /\ exists q, nth_error (parts r) 0 = Some q /\
                                isBlankTextPart q = true)) /\
  existsb (@isSlashCommandPart svc) (parts r) = false.
Proof.
  intros H Hk Hp. apply agentLeads_parse in H as (HA & HB & _).
  split; [exact (HA k p Hk Hp)|]. apply HB.
  apply existsb_exists. exists p. split; [|exact Hp].
  eapply nth_error_In; eauto.
Qed.

(** Before an agent sub-command part the result has an agent part, and
    nothing but agent parts and blank text parts. *)
Theorem subcommand_follows_agent sessionId message rt r k p :
  fst (parseChatRequest sessionId message rt) = Normal r ->
  nth_error (parts r) k = Some p ->
  isAgentSubcommandPart p = true ->
  existsb (@isAgentPart svc) (firstn k (parts r)) = true /\
  Forall (fun q => isAgentPart q = true \/ isBlankTextPart q = true)
    (firstn k (parts r)).
Proof.
  intros H Hk Hp. apply agentLeads_parse in H as (_ & _ & HC).
  destruct (HC k p Hk Hp). split; assumption.
Qed.

Lemma tryToParseSlashCommand_agent sessionId remaining message i position
    parts rt rg er c rt' :
  tryToParseSlashCommand sessionId remaining message i position parts rt
    = (Normal (Some (ChatRequestAgentSubcommandPart rg er c)), rt') ->
  exists rg' er' agent subCommands,
    find (@isAgentPart svc) parts = Some (ChatRequestAgentPart rg' er' agent) /\
    provideSlashCommands svc agent = inr subCommands /\
    In c subCommands.
Proof.
  unfold tryToParseSlashCommand, call_getCommands. intros H.
  destruct (regexMatch slashReg 2 remaining) as [m|];
    [|apply ret_normal in H as [H _]; discriminate H].
  destruct (existsb _ parts);
    [apply ret_normal in H as [H _]; discriminate H|].
  destruct (find (@isAgentPart svc) parts) as [p|] eqn:Hf; [destruct p|].
  all: try (apply bind_normal in H as (l & rt1 & _ & H);
            destruct (find _ l); apply ret_normal in H as [H _];
            discriminate H).
  destruct (existsb _ parts);
    [apply ret_normal in H as [H _]; discriminate H|].
  destruct (negb _);
    [apply ret_normal in H as [H _]; discriminate H|].
  apply bind_normal in H as (l & rt1 & Hp & H).
  apply await_provideSlashCommands_normal in Hp.
  destruct (find _ l) as [sub|] eqn:Hs;
    apply ret_normal in H as [H _]; [|discriminate H].
  injection H as _ _ ->. apply find_some in Hs as [Hs _].
  eauto 8.
Qed.

Lemma candidate_subcommand sessionId message refs i lineNumber column parts rt
    rg er c rt' :
  candidate sessionId message refs i lineNumber column parts rt
    = (Normal (Some (ChatRequestAgentSubcommandPart rg er c)), rt') ->
  exists rg' er' agent subCommands,
    In (ChatRequestAgentPart rg' er' agent) parts /\
    provideSlashCommands svc agent = inr subCommands /\
    In c subCommands.
Proof.
  intros H. pose proof (candidate_emits _ _ _ _ _ _ _ _ _ _ _ H) as [Hg He].
  inversion He as [| | | | m agent subs sub Hchar _ _ _ _ _ _ _]; subst.
  unfold candidate in H. unfold atWordStart in Hg. rewrite Hg, Hchar in H.
  change (jsstring_eqb chatSubcommandLeader chatFileVariableLeader) with false
    in H.
  change (jsstring_eqb chatSubcommandLeader chatAgentLeader) with false in H.
  change (jsstring_eqb chatSubcommandLeader chatSubcommandLeader) with true
    in H.
  cbv beta iota zeta in H. apply await_normal in H as (rt1 & H).
  apply tryToParseSlashCommand_agent in H
    as (rg' & er' & a & l & Hf & Hp & Hin).
  apply find_some in Hf as [Hf _]. exists rg', er', a, l. auto.
Qed.

Lemma slash_match_namedAt message i m :
  regexMatch slashReg 2 (slice_from message i) = Some m ->
  namedAt message (matchRange i m) (capture m 1).
Proof.
  intros Hm. pose proof (matched_text _ _ _ _ _ Hm) as Ht.
  pose proof (slashReg_full _ _ Hm) as Hfull.
  apply slashReg_name in Hm as [Hne Hnc].
  split; [exact Hne|]. split; [exact Hnc|]. exists (index m).
  rewrite <- Hfull, <- Ht. unfold matchRange. cbn [start endExclusive].
  f_equal. lia.
Qed.

(** The command of a slash-command part is one of the commands of the
    slash-command service, and its name, a non-empty run of name characters
    after the leader, stands in the message at the range of the part or to
    the right of it. *)
Theorem slash_command_is_registered sessionId message rt r rg er c :
  fst (parseChatRequest sessionId message rt) = Normal r ->
  In (ChatRequestSlashCommandPart rg er c) (parts r) ->
  In c (getCommands svc) /\
  namedAt message rg (slashCommand_command svc c).
Proof.
  intros H Hin.
  assert (Hall : Forall (fun p : IParsedChatRequestPart svc =>
            match p with
            | ChatRequestSlashCommandPart rg er c =>
                In c (getCommands svc) /\
                namedAt message rg (slashCommand_command svc c)
            | _ => True
            end) (parts r)).
  { apply (parts_built _ sessionId message rt r); [intros; exact I | | exact H].
    intros i parts q Hi Hg _ He.
    destruct He as [ | | | m sc Hchar Hm Hnoslash Hnoagent Hfind | ];
      try exact I.
    apply find_some in Hfind as [Hc Hname]. apply jsstring_eqb_eq in Hname.
    split; [exact Hc|]. rewrite Hname. apply slash_match_namedAt. exact Hm. }
  rewrite Forall_forall in Hall. apply (Hall _ Hin).
Qed.

(** The command of an agent sub-command part is one of the commands that
    the agent of an agent part of the result enumerates, and its name, a
    non-empty run of name characters after the leader, stands in the message
    at the range of the part or to the right of it. *)
Theorem subcommand_belongs_to_agent sessionId message rt r rg er c :
  fst (parseChatRequest sessionId message rt) = Normal r ->
  In (ChatRequestAgentSubcommandPart rg er c) (parts r) ->
  (exists rg' er' agent subCommands,
     In (ChatRequestAgentPart rg' er' agent) (parts r) /\
     provideSlashCommands svc agent = inr subCommands /\
     In c subCommands) /\
  namedAt message rg (agentCommand_name svc c).
Proof.
  intros H Hin. split.
  - apply fst_normal in H as (rt' & H).
    apply parseChatRequest_normal in H as (s & rt1 & rt2 & Hs & ->).
    simpl in Hin.
    assert (Hinv : forall rg er c,
              In (ChatRequestAgentSubcommandPart rg er c) (scan_parts s) ->
              exists rg' er' agent subCommands,
                In (ChatRequestAgentPart rg' er' agent) (scan_parts s) /\
                provideSlashCommands svc agent = inr subCommands /\
                In c subCommands);
      [eapply (scan_invariant svc (fun _ parts =>
             forall rg er c, In (ChatRequestAgentSubcommandPart rg er c) parts ->
             exists rg' er' agent subCommands,
               In (ChatRequestAgentPart rg' er' agent) parts /\
               provideSlashCommands svc agent = inr subCommands /\
               In c subCommands)); [| |exact Hs] |].
    3: { unfold pushTrailingText in *. destruct (_ <? _); [|eauto].
      apply in_app_or in Hin as [Hin|[Hin|[]]]; [|discriminate Hin].
      destruct (Hinv _ _ _ Hin) as (rg' & er' & a & l & Ha & Hp & Hc).
      exists rg', er', a, l. split; [apply in_or_app; left; exact Ha | auto]. }
    + clear Hin. intros i lineNumber column parts newPart rt0 rt3 HI Hcand
        rg0 er0 c0 Hin.
      assert (Hmono : forall x, In x parts ->
                In x (pushNewPart message i lineNumber column parts newPart)).
      { intros x Hx. unfold pushNewPart. destruct newPart; [|exact Hx].
        apply in_or_app. left.
        destruct (negb (i =? 0)); [apply in_or_app; left|]; exact Hx. }
      assert (Hcases : In (ChatRequestAgentSubcommandPart rg0 er0 c0) parts \/
                newPart = Some (ChatRequestAgentSubcommandPart rg0 er0 c0)).
      { unfold pushNewPart in Hin. destruct newPart as [p|]; [|left; exact Hin].
        apply in_app_or in Hin as [Hin|[Hin|[]]]; [|right; congruence].
        destruct (negb (i =? 0)); [|left; exact Hin].
        apply in_app_or in Hin as [Hin|[Hin|[]]]; [left; exact Hin|].
        discriminate Hin. }
      destruct Hcases as [Hold| ->].
      * destruct (HI _ _ _ Hold) as (rg' & er' & a & l & Ha & Hp & Hc).
        exists rg', er', a, l. auto.
      * apply candidate_subcommand in Hcand
          as (rg' & er' & a & l & Ha & Hp & Hc).
        exists rg', er', a, l. auto.
    + intros ? ? ? [].
  - assert (Hall : Forall (fun p : IParsedChatRequestPart svc =>
              match p with
              | ChatRequestAgentSubcommandPart rg er c =>
                  namedAt message rg (agentCommand_name svc c)
              | _ => True
              end) (parts r)).
    { apply (parts_built _ sessionId message rt r);
        [intros; exact I | | exact H].
      intros i parts q Hi Hg _ He.
      destruct He as [ | | | | m agent subs sub Hchar Hm _ _ _ _ _ Hfind];
        try exact I.
      apply find_some in Hfind as [_ Hname]. apply jsstring_eqb_eq in Hname.
      rewrite Hname. apply slash_match_namedAt. exact Hm. }
    rewrite Forall_forall in Hall. apply (Hall _ Hin).
Qed.

End FurtherProperties.

(** * Properties of the symbol list of the probe view *)

Section SymbolInfoProperties.
Import SymbolInfo.

Variable Item : Type.
Variable fsPath name : Item -> jsstring.

Implicit Types (l viewModel symbolInfo : list Item) (s x y e element : Item).

Local Abbreviation same := (sameSymbol fsPath name).
Local Abbreviation index := (getSymbolInfoListIndex fsPath name).
Local Abbreviation others e := (forallb (fun y => negb (same y e))).

Lemma sameSymbol_refl x : same x x = true.
Proof.
  unfold sameSymbol. apply andb_true_iff. split; apply jsstring_eqb_eq; reflexivity.
Qed.

Lemma sameSymbol_eq x y :
  same x y = true <-> fsPath x = fsPath y /\ name x = name y.
Proof.
  unfold sameSymbol. rewrite andb_true_iff, !jsstring_eqb_eq. tauto.
Qed.

Lemma sameSymbol_sym x y : same x y = same y x.
Proof.
  destruct (same x y) eqn:E, (same y x) eqn:E'; try reflexivity.
  - apply sameSymbol_eq in E as [E1 E2].
    assert (same y x = true) by (apply sameSymbol_eq; auto). congruence.
  - apply sameSymbol_eq in E' as [E1 E2].
    assert (same x y = true) by (apply sameSymbol_eq; auto). congruence.
Qed.

(** Matching depends on the symbol only. *)
Lemma sameSymbol_trans_l x y z : same x y = true -> same x z = same y z.
Proof.
  intros H. apply sameSymbol_eq in H as [E1 E2].
  unfold sameSymbol. rewrite E1, E2. reflexivity.
Qed.

Lemma sameSymbol_trans_r x y z : same y z = true -> same x y = same x z.
Proof.
  intros H. apply sameSymbol_eq in H as [E1 E2].
  unfold sameSymbol. rewrite E1, E2. reflexivity.
Qed.

Lemma scan_snd e l : forall acc,
  snd (fold_left (visit fsPath name e) l acc) = snd acc + length l.
Proof.
  induction l as [|x l IH]; intros acc; simpl; [lia|].
  rewrite IH. simpl. lia.
Qed.

Lemma scan_others e l : forall acc,
  others e l = true -> fst (fold_left (visit fsPath name e) l acc) = fst acc.
Proof.
  induction l as [|x l IH]; intros acc H; simpl in *; [reflexivity|].
  apply andb_true_iff in H as [Hx Hl]. rewrite (IH _ Hl). simpl.
  apply negb_true_iff in Hx. rewrite Hx. reflexivity.
Qed.

Lemma index_last l1 x l2 e :
  same x e = true -> others e l2 = true ->
  index (l1 ++ x :: l2) e = Z.of_nat (length l1).
Proof.
  intros Hx Hl. unfold getSymbolInfoListIndex.
  rewrite fold_left_app. simpl. rewrite (scan_others _ _ _ Hl). simpl.
  rewrite Hx, scan_snd. reflexivity.
Qed.

Lemma index_none l e : others e l = true -> index l e = (-1)%Z.
Proof.
  intros H. unfold getSymbolInfoListIndex.
  rewrite (scan_others _ _ _ H). reflexivity.
Qed.

Lemma last_match_split l e :
  others e l = true \/
  exists l1 x l2, l = l1 ++ x :: l2 /\ same x e = true /\ others e l2 = true.
Proof.
  induction l as [|y l IH]; [left; reflexivity|].
  destruct IH as [H|(l1 & x & l2 & -> & Hx & Hl)].
  - destruct (same y e) eqn:E.
    + right. exists [], y, l. auto.
    + left. simpl. rewrite E, H. reflexivity.
  - right. exists (y :: l1), x, l2. auto.
Qed.

Lemma index_cases viewModel element :
  (index viewModel element = (-1)%Z /\ others element viewModel = true) \/
  (exists k item,
      index viewModel element = Z.of_nat k /\
      nth_error viewModel k = Some item /\
      same item element = true /\
      others element (skipn (S k) viewModel) = true).
Proof.
  destruct (last_match_split viewModel element)
    as [H|(l1 & x & l2 & -> & Hx & Hl)].
  - left. split; [apply index_none|]; exact H.
  - right. exists (length l1), x. split; [apply index_last; assumption|].
    split; [|split; [exact Hx|]].
    + rewrite nth_error_app2, Nat.sub_diag by lia. reflexivity.
    + replace (S (length l1)) with (length (l1 ++ [x]))
        by (rewrite length_app; simpl; lia).
      replace (l1 ++ x :: l2) with ((l1 ++ [x]) ++ l2)
        by (rewrite <- app_assoc; reflexivity).
      rewrite skipn_app, skipn_all, Nat.sub_diag. simpl. exact Hl.
Qed.

Lemma sameSymbol_symbolOf x y :
  same x y = true <-> symbolOf fsPath name x = symbolOf fsPath name y.
Proof.
  rewrite sameSymbol_eq. unfold symbolOf. split.
  - intros [-> ->]. reflexivity.
  - intros H. inversion H. auto.
Qed.

Lemma others_nth e l :
  others e l = true <->
  (forall j y, nth_error l j = Some y -> same y e = false).
Proof.
  rewrite forallb_forall. split.
  - intros H j y Hj. apply nth_error_In in Hj. apply H in Hj.
    apply negb_true_iff in Hj. exact Hj.
  - intros H y Hy. apply In_nth_error in Hy as (j & Hj).
    apply negb_true_iff. eapply H; eauto.
Qed.

Lemma others_In e l :
  others e l = true <->
  ~ In (symbolOf fsPath name e) (map (symbolOf fsPath name) l).
Proof.
  rewrite forallb_forall, in_map_iff. split.
  - intros H (y & Hy & Hin). apply H in Hin. apply negb_true_iff in Hin.
    apply sameSymbol_symbolOf in Hy. congruence.
  - intros H y Hy. apply negb_true_iff. destruct (same y e) eqn:E; [|reflexivity].
    exfalso. apply H. exists y. split; [apply sameSymbol_symbolOf; exact E|exact Hy].
Qed.

Lemma index_lastAt l e k x : lastAt fsPath name l e k x -> index l e = Z.of_nat k.
Proof.
  intros (Hk & Hx & Hlater).
  destruct (index_cases l e)
    as [[_ Ho]|(k' & x' & -> & Hk' & Hx' & Ho)].
  - rewrite others_nth in Ho. rewrite (Ho _ _ Hk) in Hx. discriminate.
  - f_equal. rewrite others_nth in Ho.
    destruct (Nat.lt_total k k') as [Hlt|[->|Hgt]]; [|reflexivity|].
    + rewrite (Hlater _ _ Hlt Hk') in Hx'. discriminate.
    + specialize (Ho (k - S k') x). rewrite nth_error_skipn in Ho.
      replace (S k' + (k - S k')) with k in Ho by lia.
      rewrite (Ho Hk) in Hx. discriminate.
Qed.

(** [getSymbolInfoListIndex] is -1 exactly when no entry is for the symbol
    of the element, and otherwise the index of the last entry that is. *)
Theorem getSymbolInfoListIndex_last_match viewModel element :
  (getSymbolInfoListIndex fsPath name viewModel element = (-1)%Z <->
   forallb (fun item => negb (sameSymbol fsPath name item element)) viewModel
   = true) /\
  (forall k,
      getSymbolInfoListIndex fsPath name viewModel element = Z.of_nat k <->
      exists item, lastAt fsPath name viewModel element k item).
Proof.
  destruct (index_cases viewModel element)
    as [[Hi Ho]|(k & x & Hi & Hk & Hx & Ho)].
  - split; [tauto|]. intros k. split; [lia|].
    intros (item & Hk & Hx & _). rewrite others_nth in Ho.
    rewrite (Ho _ _ Hk) in Hx. discriminate.
  - assert (Hl : lastAt fsPath name viewModel element k x).
    { split; [exact Hk|]. split; [exact Hx|].
      intros j y Hj Hy. rewrite others_nth in Ho.
      apply (Ho (j - S k) y). rewrite nth_error_skipn, <- Hy. f_equal. lia. }
    split.
    + split; [lia|]. intros H. rewrite others_nth in H.
      rewrite (H _ _ Hk) in Hx. discriminate.
    + intros k'. split.
      * intros E. exists x. replace k' with k by lia. exact Hl.
      * intros (item & Hl'). apply (index_lastAt _ _ _ _ Hl').
Qed.

Lemma nth_error_assign l k s j :
  k <= length l ->
  nth_error (assign l k s) j = if j =? k then Some s else nth_error l j.
Proof.
  intros Hk. unfold assign.
  assert (Hlen : length (firstn k l) = k) by (apply firstn_length_le; exact Hk).
  destruct (Nat.eqb_spec j k) as [->|Hne].
  - rewrite nth_error_app2, Hlen, Nat.sub_diag by lia. reflexivity.
  - destruct (Nat.lt_ge_cases j k) as [Hlt|Hge].
    + rewrite nth_error_app1 by lia. rewrite nth_error_firstn.
      destruct (Nat.ltb_spec j k); [reflexivity|lia].
    + rewrite nth_error_app2, Hlen by lia.
      destruct (j - k) as [|d] eqn:E; [lia|]. cbn [nth_error].
      rewrite nth_error_skipn. f_equal. lia.
Qed.

Lemma length_assign l k s :
  k <= length l -> length (assign l k s) = Nat.max (length l) (S k).
Proof.
  intros Hk. unfold assign.
  rewrite length_app, firstn_length_le by exact Hk. cbn [length].
  rewrite length_skipn. lia.
Qed.

Lemma assign_length l s : assign l (length l) s = l ++ [s].
Proof.
  unfold assign. rewrite firstn_all, skipn_all2 by lia. reflexivity.
Qed.

Lemma map_assign (f : Item -> jsstring * jsstring) l k s x :
  nth_error l k = Some x -> f x = f s -> map f (assign l k s) = map f l.
Proof.
  intros Hk Hf. unfold assign. rewrite map_app. simpl. rewrite <- Hf.
  rewrite <- (firstn_skipn_middle k l Hk) at 3. rewrite map_app. reflexivity.
Qed.

(** One round of the [forEach] of [updateSymbolInfo] assigns the symbol at
    the index of the last entry for it, or at the length when there is
    none. *)
Lemma updateOne_view u s :
  exists k,
    upd_viewModel (updateOne fsPath name u s) = assign (upd_viewModel u) k s /\
    k <= length (upd_viewModel u) /\
    ((k = length (upd_viewModel u) /\ others s (upd_viewModel u) = true /\
      matchingIndex (updateOne fsPath name u s) = (-1)%Z /\
      upd_calls (updateOne fsPath name u s)
        = upd_calls u ++ [Splice k 0 [s]]) \/
     (exists x, lastAt fsPath name (upd_viewModel u) s k x /\
        matchingIndex (updateOne fsPath name u s) = Z.of_nat k /\
        upd_calls (updateOne fsPath name u s)
          = upd_calls u ++ [Splice k 1 [s]])).
Proof.
  unfold updateOne.
  destruct (index_cases (upd_viewModel u) s)
    as [[Hi Ho]|(k & x & Hi & Hk & Hx & Ho)]; rewrite Hi.
  - exists (length (upd_viewModel u)). simpl. rewrite assign_length.
    split; [reflexivity|]. split; [lia|]. left.
    rewrite length_app. simpl.
    replace (length (upd_viewModel u) + 1 - 1) with (length (upd_viewModel u))
      by lia. auto.
  - exists k. destruct (Z.eqb_spec (Z.of_nat k) (-1)); [lia|]. simpl.
    rewrite Nat2Z.id. split; [reflexivity|].
    assert (k < length (upd_viewModel u))
      by (apply nth_error_Some; rewrite Hk; discriminate).
    split; [lia|]. right. exists x. split; [|auto].
    split; [exact Hk|]. split; [exact Hx|].
    intros j y Hj Hy. rewrite others_nth in Ho.
    apply (Ho (j - S k) y). rewrite nth_error_skipn. rewrite <- Hy. f_equal. lia.
Qed.

Local Abbreviation rounds u symbolInfo :=
  (fold_left (updateOne fsPath name) symbolInfo u).

Lemma lastAt_lastFor l e k x : lastAt fsPath name l e k x -> lastFor fsPath name l e = Some x.
Proof.
  intros (Hk & Hx & Hlater). unfold lastFor.
  apply nth_error_split in Hk as (l1 & l2 & -> & Hlen).
  rewrite rev_app_distr. simpl. rewrite <- app_assoc. simpl.
  assert (Ho : forall y, In y (rev l2) -> same y e = false).
  { intros y Hy. apply in_rev in Hy. apply In_nth_error in Hy as (j & Hj).
    apply (Hlater (S k + j) y); [lia|].
    rewrite nth_error_app2 by lia.
    replace (S k + j - length l1) with (S j) by lia. exact Hj. }
  induction (rev l2) as [|y r IH]; simpl.
  - rewrite Hx. reflexivity.
  - rewrite (Ho y) by (left; reflexivity). apply IH.
    intros z Hz. apply Ho. right. exact Hz.
Qed.

Lemma rounds_snoc u l s :
  rounds u (l ++ [s]) = updateOne fsPath name (rounds u l) s.
Proof. rewrite fold_left_app. reflexivity. Qed.

Lemma rounds_last_write u l : forall s,
  In s l ->
  exists k x, lastAt fsPath name (upd_viewModel (rounds u l)) s k x /\
              lastFor fsPath name l s = Some x.
Proof.
  induction l as [|s0 l IH] using rev_ind; intros s Hin; [destruct Hin|].
  rewrite rounds_snoc.
  destruct (updateOne_view (rounds u l) s0) as (k0 & -> & Hk0 & Hview).
  set (vm := upd_viewModel (rounds u l)) in *.
  assert (Hlast : lastFor fsPath name (l ++ [s0]) s
                  = if same s0 s then Some s0 else lastFor fsPath name l s).
  { unfold lastFor. rewrite rev_app_distr. reflexivity. }
  rewrite Hlast.
  assert (Hlater0 : forall j y, k0 < j -> nth_error vm j = Some y ->
                                same y s0 = false).
  { destruct Hview as [(-> & _)|(x0 & (_ & _ & H) & _)]; [|exact H].
    intros j y Hj Hy.
    assert (j < length vm) by (apply nth_error_Some; rewrite Hy; discriminate).
    lia. }
  destruct (same s0 s) eqn:Es.
  - exists k0, s0. split; [|reflexivity]. split; [|split; [exact Es|]].
    + rewrite nth_error_assign, Nat.eqb_refl by exact Hk0. reflexivity.
    + intros j y Hj Hy. rewrite nth_error_assign in Hy by exact Hk0.
      destruct (Nat.eqb_spec j k0); [lia|].
      rewrite <- (sameSymbol_trans_r y s0 s Es). eapply Hlater0; eauto.
  - assert (Hin' : In s l).
    { apply in_app_or in Hin as [H|[<-|[]]]; [exact H|].
      rewrite sameSymbol_refl in Es. discriminate. }
    destruct (IH s Hin') as (k & x & (Hk & Hx & Hlater) & Hl).
    exists k, x. split; [|exact Hl].
    assert (Hne : k <> k0).
    { intros ->. destruct Hview as [(-> & _)|(x0 & (Hk' & Hx0 & _) & _)].
      - assert (length vm < length vm)
          by (apply nth_error_Some; rewrite Hk; discriminate). lia.
      - rewrite Hk in Hk'. injection Hk' as <-.
        rewrite <- (sameSymbol_trans_l x s0 s Hx0), Hx in Es. discriminate. }
    split; [|split; [exact Hx|]].
    + rewrite nth_error_assign by exact Hk0.
      destruct (Nat.eqb_spec k k0); [contradiction|exact Hk].
    + intros j y Hj Hy. rewrite nth_error_assign in Hy by exact Hk0.
      destruct (Nat.eqb_spec j k0).
      * injection Hy as <-. exact Es.
      * eapply Hlater; eauto.
Qed.

Lemma rounds_untouched l : forall u i x,
  nth_error (upd_viewModel u) i = Some x ->
  (forall s, In s l -> same s x = false) ->
  nth_error (upd_viewModel (rounds u l)) i = Some x.
Proof.
  induction l as [|s l IH]; intros u i x Hi Hs; [exact Hi|].
  simpl. apply IH; [|intros s' Hs'; apply Hs; right; exact Hs'].
  destruct (updateOne_view u s) as (k & -> & Hk & Hview).
  rewrite nth_error_assign by exact Hk.
  destruct (Nat.eqb_spec i k) as [->|]; [|exact Hi]. exfalso.
  destruct Hview as [(-> & _)|(x0 & (Hk' & Hx0 & _) & _)].
  - assert (length (upd_viewModel u) < length (upd_viewModel u))
      by (apply nth_error_Some; rewrite Hi; discriminate). lia.
  - rewrite Hi in Hk'. injection Hk' as <-.
    rewrite sameSymbol_sym, (Hs s) in Hx0 by (left; reflexivity).
    discriminate.
Qed.

Lemma symbol_eq_dec (a b : jsstring * jsstring) : {a = b} + {a <> b}.
Proof. repeat decide equality. Qed.

Lemma rounds_symbols l : forall u,
  exists added,
    map (symbolOf fsPath name) (upd_viewModel (rounds u l))
      = map (symbolOf fsPath name) (upd_viewModel u) ++ added /\
    NoDup added /\
    forall key, In key added <->
      In key (map (symbolOf fsPath name) l) /\
      ~ In key (map (symbolOf fsPath name) (upd_viewModel u)).
Proof.
  induction l as [|s l IH]; intros u.
  { exists []. rewrite app_nil_r. split; [reflexivity|].
    split; [constructor|]. simpl. tauto. }
  simpl. destruct (IH (updateOne fsPath name u s))
    as (added & Hmap & Hnd & Hin).
  destruct (updateOne_view u s) as (k & Hvm & Hk & Hview).
  rewrite Hvm in Hmap, Hin.
  destruct Hview as [(-> & Ho & _)|(x0 & (Hk' & Hx0 & _) & _)].
  - rewrite assign_length, map_app in Hmap, Hin. simpl in Hmap, Hin.
    apply others_In in Ho.
    exists (symbolOf fsPath name s :: added).
    split; [rewrite Hmap, <- app_assoc; reflexivity|].
    split.
    + constructor; [|exact Hnd]. intros H. apply Hin in H as [_ H].
      apply H. apply in_or_app. right. left. reflexivity.
    + intros key. simpl. rewrite Hin. split.
      * intros [<-|[H1 H2]]; [tauto|]. split; [tauto|].
        intros H. apply H2. apply in_or_app. left. exact H.
      * intros [H1 H2].
        destruct (symbol_eq_dec (symbolOf fsPath name s) key) as [E|E];
          [left; exact E|]. right. split; [tauto|].
        intros H. apply in_app_or in H as [H|[H|[]]]; tauto.
  - apply sameSymbol_symbolOf in Hx0.
    rewrite (map_assign _ _ _ _ _ Hk' Hx0) in Hmap, Hin.
    exists added. split; [exact Hmap|]. split; [exact Hnd|].
    intros key. rewrite Hin. simpl. split; [tauto|].
    intros [[<-|H1] H2]; [|tauto]. exfalso. apply H2.
    rewrite <- Hx0. apply in_map. eapply nth_error_In; eauto.
Qed.

Local Abbreviation update := (updateSymbolInfo fsPath name).
Local Abbreviation symbols := (map (symbolOf fsPath name)).

(** What a call of [updateSymbolInfo] that returns has done. *)
Lemma updateSymbolInfo_returns symbolInfo this this' :
  update symbolInfo this = Some this' ->
  exists calls u,
    this_list this = Some calls /\
    this_viewModel this' = upd_viewModel u /\
    this_isVisible this' = this_isVisible this /\
    explanationsCleared this' = explanationsCleared this /\
    (exists rest, this_list this' = Some (upd_calls u ++ Rerender :: rest) /\
                  Forall (fun c => match c with Splice _ _ _ => False
                                             | _ => True end) rest) /\
    ((this_viewModel this = [] /\
      u = {| upd_viewModel := symbolInfo;
             upd_calls := calls ++ [Splice 0 0 symbolInfo];
             matchingIndex := -1 |}) \/
     (this_viewModel this <> [] /\
      u = rounds {| upd_viewModel := this_viewModel this; upd_calls := calls;
                    matchingIndex := -1 |} symbolInfo)).
Proof.
  unfold updateSymbolInfo. destruct (this_list this) as [calls|]; [|discriminate].
  intros H. injection H as <-. cbn [this_list this_viewModel this_isVisible
                                        explanationsCleared].
  match goal with
  | |- context [upd_viewModel ?x] => set (u := x) in *
  end.
  exists calls, u. split; [reflexivity|]. split; [reflexivity|].
  split; [reflexivity|]. split; [reflexivity|]. split.
  - destruct (negb _).
    + exists [SetFocus [Z.to_nat (matchingIndex u)]; Layout].
      rewrite <- !app_assoc. split; [reflexivity|]. repeat constructor.
    + exists [Layout]. rewrite <- !app_assoc. split; [reflexivity|].
      repeat constructor.
  - subst u. destruct (this_viewModel this) as [|x l]; simpl.
    + left. auto.
    + right. split; [discriminate|reflexivity].
Qed.

(** After [updateSymbolInfo], looking up any symbol of the update finds the
    last entry the update has for that symbol. *)
Theorem update_last_write_wins symbolInfo this this' s :
  updateSymbolInfo fsPath name symbolInfo this = Some this' ->
  In s symbolInfo ->
  exists k x,
    getSymbolInfoListIndex fsPath name (this_viewModel this') s
      = Z.of_nat k /\
    nth_error (this_viewModel this') k = Some x /\
    lastFor fsPath name symbolInfo s = Some x.
Proof.
  intros H Hin.
  apply updateSymbolInfo_returns in H
    as (calls & u & _ & -> & _ & _ & _ & [[_ ->]|[_ ->]]).
  - simpl.
    destruct (index_cases symbolInfo s)
      as [[_ Ho]|(k & x & Hi & Hk & Hx & Ho)].
    + rewrite forallb_forall in Ho. apply Ho in Hin.
      rewrite sameSymbol_refl in Hin. discriminate.
    + exists k, x. split; [exact Hi|]. split; [exact Hk|].
      apply (lastAt_lastFor _ _ k). split; [exact Hk|]. split; [exact Hx|].
      intros j y Hj Hy. rewrite others_nth in Ho.
      apply (Ho (j - S k) y). rewrite nth_error_skipn, <- Hy. f_equal. lia.
  - destruct (rounds_last_write
                {| upd_viewModel := this_viewModel this; upd_calls := calls;
                   matchingIndex := -1 |} symbolInfo s Hin)
      as (k & x & Hl & Hf).
    exists k, x. split; [apply (index_lastAt _ _ _ x); exact Hl|].
    split; [apply Hl | exact Hf].
Qed.

(** An update of a view model that is not empty keeps the symbol at every
    index and appends, once each, the symbols it brings that the view model
    did not have; in particular it keeps the symbols distinct. *)
Theorem update_extends_symbols symbolInfo this this' :
  updateSymbolInfo fsPath name symbolInfo this = Some this' ->
  this_viewModel this <> [] ->
  (exists added,
     map (symbolOf fsPath name) (this_viewModel this')
       = map (symbolOf fsPath name) (this_viewModel this) ++ added /\
     NoDup added /\
     forall key, In key added <->
       In key (map (symbolOf fsPath name) symbolInfo) /\
       ~ In key (map (symbolOf fsPath name) (this_viewModel this))) /\
  (NoDup (map (symbolOf fsPath name) (this_viewModel this)) ->
   NoDup (map (symbolOf fsPath name) (this_viewModel this'))).
Proof.
  intros H Hne.
  apply updateSymbolInfo_returns in H
    as (calls & u & _ & -> & _ & _ & _ & [[He _]|[_ ->]]); [contradiction|].
  destruct (rounds_symbols symbolInfo
              {| upd_viewModel := this_viewModel this; upd_calls := calls;
                 matchingIndex := -1 |}) as (added & Hmap & Hnd & Hin).
  simpl in Hmap, Hin. split; [exists added; auto|].
  intros Hd. rewrite Hmap. apply NoDup_app; [exact Hd | exact Hnd|].
  intros key H1 H2. apply Hin in H2. tauto.
Qed.

(** An update leaves in place every entry for whose symbol it brings
    nothing. *)
Theorem update_leaves_other_entries symbolInfo this this' i x :
  updateSymbolInfo fsPath name symbolInfo this = Some this' ->
  nth_error (this_viewModel this) i = Some x ->
  (forall s, In s symbolInfo -> sameSymbol fsPath name s x = false) ->
  nth_error (this_viewModel this') i = Some x.
Proof.
  intros H Hi Hs.
  apply updateSymbolInfo_returns in H
    as (calls & u & _ & -> & _ & _ & _ & [[He _]|[_ ->]]).
  - rewrite He in Hi. destruct i; discriminate Hi.
  - apply rounds_untouched; assumption.
Qed.

(** ** The rows of the widget *)

Lemma rows_snoc (calls : list (ListCall Item)) c :
  rows (calls ++ [c])
  = match c with
    | Splice start deleteCount elements =>
        firstn start (rows calls) ++ elements
          ++ skipn (start + deleteCount) (rows calls)
    | _ => rows calls
    end.
Proof. unfold rows. rewrite fold_left_app. reflexivity. Qed.

Lemma rows_no_splice (calls rest : list (ListCall Item)) :
  Forall (fun c => match c with Splice _ _ _ => False | _ => True end) rest ->
  rows (calls ++ rest) = rows calls.
Proof.
  intros H. revert calls. induction H as [|c rest Hc _ IH]; intros calls.
  - rewrite app_nil_r. reflexivity.
  - replace (calls ++ c :: rest) with ((calls ++ [c]) ++ rest)
      by (rewrite <- app_assoc; reflexivity).
    rewrite IH, rows_snoc. destruct c; [contradiction| | |]; reflexivity.
Qed.

Lemma rounds_rows l : forall u,
  rows (upd_calls u) = upd_viewModel u ->
  rows (upd_calls (rounds u l)) = upd_viewModel (rounds u l).
Proof.
  induction l as [|s l IH]; intros u Hu; [exact Hu|].
  simpl. apply IH.
  destruct (updateOne_view u s) as (k & -> & Hk & Hview).
  destruct Hview as [(-> & _ & _ & ->)|(x0 & _ & _ & ->)];
    rewrite rows_snoc, Hu; unfold assign.
  - rewrite Nat.add_0_r, skipn_all, skipn_all2 by lia. reflexivity.
  - rewrite Nat.add_1_r. reflexivity.
Qed.

Lemma perform_mirrored this c :
  mirrored this -> mirrored (perform fsPath name this c).
Proof.
  unfold mirrored. intros H. destruct c as [|symbolInfo|]; simpl.
  - unfold show. destruct (truthy _); [exact H|]. simpl.
    destruct (this_list this); [exact H|]. destruct H as [-> _]. reflexivity.
  - destruct (update symbolInfo this) as [this'|] eqn:E; [|exact H].
    apply updateSymbolInfo_returns in E
      as (calls & u & Hl & -> & _ & _ & (rest & -> & Hrest) & Hu).
    rewrite Hl in H.
    replace (upd_calls u ++ Rerender :: rest)
      with (upd_calls u ++ (Rerender :: rest)) by reflexivity.
    rewrite rows_no_splice by (constructor; [exact I|exact Hrest]).
    destruct Hu as [[He ->]|[_ ->]].
    + simpl. rewrite rows_snoc, H, He. simpl. apply app_nil_r.
    + apply rounds_rows. exact H.
  - unfold hide. destruct (negb _); [exact H|].
    destruct (this_list this) as [calls|] eqn:El; simpl;
      [|rewrite El; exact H].
    rewrite rows_snoc, H. simpl. rewrite skipn_all. reflexivity.
Qed.

(** Whatever sequence of [show], [updateSymbolInfo] and [hide] the object
    has gone through since its construction, the rows of its list widget
    are its view model. *)
Theorem rows_mirror_viewModel (history : list (Call Item)) calls :
  this_list (fold_left (perform fsPath name) history (created Item))
    = Some calls ->
  rows calls
  = this_viewModel (fold_left (perform fsPath name) history (created Item)).
Proof.
  assert (H : mirrored (fold_left (perform fsPath name) history (created Item))).
  { assert (H0 : mirrored (created Item)) by (split; reflexivity).
    revert H0. generalize (created Item).
    induction history as [|c history IH]; intros this H0; [exact H0|].
    simpl. apply IH, perform_mirrored, H0. }
  unfold mirrored in H. intros E. rewrite E in H. exact H.
Qed.

(** [updateSymbolInfo] throws exactly when [show] has not been called
    before; then it leaves the object as the constructor made it. *)
Theorem update_throws_before_show (history : list (Call Item)) symbolInfo :
  (throws fsPath name
     (fold_left (perform fsPath name) history (created Item))
     (UpdateSymbolInfo symbolInfo) = true
   <-> ~ In Show history) /\
  (throws fsPath name
     (fold_left (perform fsPath name) history (created Item))
     (UpdateSymbolInfo symbolInfo) = true ->
   fold_left (perform fsPath name) history (created Item) = created Item).
Proof.
  assert (H : forall this,
    (this_list this = None -> this = created Item) ->
    let this' := fold_left (perform fsPath name) history this in
    (this_list this' = None <-> this_list this = None /\ ~ In Show history) /\
    (this_list this' = None -> this' = created Item)).
  { induction history as [|c history IH]; intros this H0; cbv zeta.
    - simpl. tauto.
    - simpl fold_left.
      assert (Hstep : (this_list (perform fsPath name this c) = None <->
                       this_list this = None /\ c <> Show) /\
                      (this_list (perform fsPath name this c) = None ->
                       perform fsPath name this c = created Item)).
      { destruct c as [|symbolInfo'|]; simpl.
        - unfold show. destruct (truthy (this_isVisible this)) eqn:Et.
          + split; [|exact H0]. split; [|tauto]. intros E.
            rewrite (H0 E) in Et. discriminate.
          + simpl. destruct (this_list this); split;
              try (split; [discriminate|intros [? ?]; congruence]);
              discriminate.
        - destruct (update symbolInfo' this) as [this'|] eqn:E.
          + apply updateSymbolInfo_returns in E
              as (calls & u & Hl & _ & _ & _ & (rest & -> & _) & _).
            rewrite Hl. split; [|discriminate].
            split; [discriminate|intros [? _]; discriminate].
          + split; [|exact H0]. split; [|tauto].
            intros El. split; [exact El|discriminate].
        - unfold hide. destruct (negb _).
          + split; [|exact H0]. split; [|tauto].
            intros El. split; [exact El|discriminate].
          + destruct (this_list this) as [calls|] eqn:El; simpl.
            * split; [|discriminate].
              split; [discriminate|intros [? _]; discriminate].
            * rewrite El. split; [|exact H0]. split; [|tauto].
              intros _. split; [reflexivity|discriminate]. }
      destruct Hstep as [Hiff Hcreated].
      destruct (IH _ Hcreated) as [IH1 IH2]. split; [|exact IH2].
      rewrite IH1, Hiff. simpl. split.
      + intros [[H1 H2] H3]. split; [exact H1|].
        intros [E|E]; [exact (H2 E)|exact (H3 E)].
      + intros [H1 H2]. split; [split; [exact H1|]|]; intros E; apply H2;
          [left; exact E | right; exact E]. }
  specialize (H (created Item) (fun _ => eq_refl)). cbv zeta in H.
  destruct H as [H1 H2].
  assert (Ht : throws fsPath name
                 (fold_left (perform fsPath name) history (created Item))
                 (UpdateSymbolInfo symbolInfo) = true <->
               this_list (fold_left (perform fsPath name) history (created Item))
               = None).
  { simpl. unfold updateSymbolInfo.
    destruct (this_list _); split; try discriminate; reflexivity. }
  split; [rewrite Ht, H1; simpl; tauto|].
  intros E. apply H2, Ht, E.
Qed.

End SymbolInfoProperties.


(** * Properties of the recording session of the event handler *)

Section RecordingProperties.
Import CSEventHandler.

Variable Action : Type.
Variable label : Action -> jsstring.

Local Abbreviation perform := (CSEventHandler.perform label).
Local Abbreviation recorded := (CSEventHandler.recorded label).
Local Abbreviation others := (filter (fun e => negb (hasSelection e))).

Lemma at_last_removelast A (l : list A) x :
  at_last l = Some x -> l = removelast l ++ [x].
Proof.
  intros H. destruct (exists_last (l:=l)) as (init & y & ->).
  { intros ->. discriminate. }
  rewrite at_last_snoc in H. injection H as ->.
  rewrite removelast_last. reflexivity.
Qed.

(** A selection change is recorded, from its first selection, as the last
    event of the session. When the session ends with a selection, in
    whatever file, that shares a line with the new one, the new event takes
    its place and the events before it stay; in every other case the new
    event is appended to the session. *)
Theorem selection_change_is_last filePath selection rest session :
  exists session',
    onDidChangeTextDocumentSelection filePath (selection :: rest) session
      = Some session' /\
    at_last session'
      = Some (Selection filePath (selectionToSidecarRange selection)) /\
    (forall file range,
        at_last session = Some (Selection file range) ->
        sharesLine range (selectionToSidecarRange selection) = true ->
        session' = removelast session
                     ++ [Selection filePath (selectionToSidecarRange selection)]) /\
    ((forall file range,
         at_last session = Some (Selection file range) ->
         sharesLine range (selectionToSidecarRange selection) = false) ->
     session' = session
                  ++ [Selection filePath (selectionToSidecarRange selection)]).
Proof.
  unfold onDidChangeTextDocumentSelection, sharesLine.
  destruct (at_last session) as [[| |file range]|] eqn:E.
  4: { eexists. split; [reflexivity|]. rewrite at_last_snoc.
       split; [reflexivity|]. split; [intros ? ? H; discriminate H|auto]. }
  1,2: eexists; split; [reflexivity|]; rewrite at_last_snoc;
    (split; [reflexivity|]); (split; [intros ? ? H; discriminate H|auto]).
  destruct (_ || _) eqn:Es; eexists; (split; [reflexivity|]);
    rewrite at_last_snoc; (split; [reflexivity|]); split.
  - reflexivity.
  - intros H. rewrite (H file range eq_refl) in Es. discriminate Es.
  - intros file' range' H Hs. injection H as _ <-. rewrite Hs in Es.
    discriminate Es.
  - reflexivity.
Qed.

Lemma selection_change_others filePath selections session session' :
  onDidChangeTextDocumentSelection filePath selections session = Some session' ->
  others session' = others session.
Proof.
  unfold onDidChangeTextDocumentSelection.
  destruct (at_last session) as [lastEvent|] eqn:El;
    destruct selections as [|selection rest]; try discriminate.
  - destruct lastEvent as [| |f0 r0].
    1,2: intros H; injection H as <-; rewrite filter_app; simpl;
      apply app_nil_r.
    apply at_last_removelast in El.
    destruct (_ || _); intros H; injection H as <-.
    + rewrite El at 2. rewrite !filter_app. reflexivity.
    + rewrite filter_app. simpl. apply app_nil_r.
  - intros H. injection H as <-. rewrite filter_app. simpl. apply app_nil_r.
Qed.

(** Whatever is recorded, the events of the session other than selections
    are the ones the calls of [handleSymbolNavigation] and
    [onDidChangeTextDocument] have added, in the order of the calls: none is
    dropped, replaced or moved. So [stopRecording] returns, selections
    apart, the events of the calls made since [startRecording]. *)
Theorem other_events_are_kept (history : list (Call Action)) session :
  filter (fun e => negb (hasSelection e))
    (fold_left (CSEventHandler.perform label) history session)
  = filter (fun e => negb (hasSelection e)) session
      ++ flat_map (CSEventHandler.recorded label) history /\
  filter (fun e => negb (hasSelection e))
    (fst (stopRecording (fold_left (CSEventHandler.perform label) history
                           (startRecording session))))
  = flat_map (CSEventHandler.recorded label) history.
Proof.
  assert (H : forall session,
            others (fold_left perform history session)
            = others session ++ flat_map recorded history);
    [|split; [apply H | apply (H [])]].
  intros session0. clear session. rename session0 into session.
  revert session. induction history as [|c history IH]; intros session.
  - simpl. rewrite app_nil_r. reflexivity.
  - simpl fold_left. rewrite IH. simpl flat_map. rewrite app_assoc. f_equal.
    destruct c as [event|filePath|filePath selections]; simpl.
    + unfold handleSymbolNavigation. rewrite filter_app. reflexivity.
    + unfold onDidChangeTextDocument. rewrite filter_app. reflexivity.
    + rewrite app_nil_r.
      destruct (onDidChangeTextDocumentSelection filePath selections session)
        eqn:E; [|reflexivity].
      eapply selection_change_others; eauto.
Qed.

Lemma last_default A (l : list A) a d d' : last (a :: l) d = last (a :: l) d'.
Proof.
  revert a. induction l as [|b l IH]; intros a; [reflexivity|].
  change (last (b :: l) d = last (b :: l) d'). apply IH.
Qed.

(** Dragging a selection, so that every change shares a line with the one
    before, records one event: the last selection. *)
Theorem drag_records_last_selection session first changes :
  (forall event, at_last session = Some event -> hasSelection event = false) ->
  dragged (snd first) changes = true ->
  fold_left (CSEventHandler.perform label)
    (map (select Action) (first :: changes)) session
  = session ++ [Selection (fst (last changes first))
                  (selectionToSidecarRange (snd (last changes first)))].
Proof.
  intros Hlast Hdrag.
  assert (Hfirst : perform session (select Action first)
                   = session ++ [Selection (fst first)
                                   (selectionToSidecarRange (snd first))]).
  { unfold select. simpl. unfold onDidChangeTextDocumentSelection.
    destruct (at_last session) as [[| |]|] eqn:E; try reflexivity.
    specialize (Hlast _ eq_refl). discriminate. }
  simpl map. simpl fold_left. simpl in Hfirst. rewrite Hfirst. clear Hfirst Hlast.
  revert first Hdrag. induction changes as [|change changes IH];
    intros first Hdrag; [reflexivity|].
  simpl in Hdrag. apply andb_true_iff in Hdrag as [Hs Hd].
  simpl map. simpl fold_left.
  unfold onDidChangeTextDocumentSelection at 1. rewrite at_last_snoc.
  unfold sharesLine in Hs. rewrite Hs, removelast_last.
  rewrite (IH change Hd). destruct changes as [|p changes]; [reflexivity|].
  change (last (change :: p :: changes) first) with (last (p :: changes) first).
  rewrite (last_default _ changes p change first). reflexivity.
Qed.

End RecordingProperties.

(** * Properties of the usage events of the event handler *)

Section UsageProperties.
Import CSEventHandler.

Variable Number : Type.
Variable plus : Number -> Number -> Number.
Variable Date : Type.

Local Abbreviation Request := (UsageRequest Number Date).
Implicit Types (events : list Request) (world : World)
  (persisted : option (list Request)).

Lemma sendUsageEvent_effects world events session retryCount :
  getSession world retryCount = SessionFound session ->
  fst (sendUsageEvent world events session retryCount)
    = negb (retried world retryCount) /\
  posts (snd (sendUsageEvent world events session retryCount))
    = [(accessToken session, events)] /\
  delays (snd (sendUsageEvent world events session retryCount)) = [] /\
  forall persisted,
    stored persisted (snd (sendUsageEvent world events session retryCount))
    = persisted.
Proof.
  intros Hs. unfold sendUsageEvent, retried. rewrite Hs.
  destruct (fetch world retryCount) as [response|]; [|auto].
  destruct (ok response); [auto|]. simpl.
  destruct (status response =? 401); [|auto].
  destruct (refreshTokens world retryCount); auto.
Qed.

Lemma stored_app persisted (a b : list (Effect Number Date)) :
  stored persisted (a ++ b) = stored (stored persisted a) b.
Proof. unfold stored. apply fold_left_app. Qed.

Lemma posts_app (a b : list (Effect Number Date)) :
  posts (a ++ b) = posts a ++ posts b.
Proof. unfold posts. apply flat_map_app. Qed.

Lemma delays_app (a b : list (Effect Number Date)) :
  delays (a ++ b) = delays a ++ delays b.
Proof. unfold delays. apply flat_map_app. Qed.

(** The chain of attempts from [retryCount] on: [n] attempts are made again,
    each after its delay, and the next one concludes with the persisted
    events cleared, or is not made for want of a session or of a retry
    left. *)
Lemma chain_shape world events persisted : forall rounds retryCount,
  retryCount <= MAX_RETRIES ->
  MAX_RETRIES - retryCount < rounds ->
  exists n,
    retryCount + n <= MAX_RETRIES /\
    (forall j, retryCount <= j < retryCount + n -> retried world j = true) /\
    delays (sendUsageEventsWithRetry rounds world events retryCount)
      = map (fun k => (RETRY_DELAY_MS * 2 ^ N.of_nat k)%N) (seq retryCount n) /\
    map snd (posts (sendUsageEventsWithRetry rounds world events retryCount))
      = repeat events
          (length (posts (sendUsageEventsWithRetry rounds world events
                            retryCount))) /\
    ((retryCount + n < MAX_RETRIES /\
      concluded world (retryCount + n) = true /\
      length (posts (sendUsageEventsWithRetry rounds world events retryCount))
        = S n /\
      stored persisted (sendUsageEventsWithRetry rounds world events retryCount)
        = Some []) \/
     ((retryCount + n < MAX_RETRIES -> concluded world (retryCount + n) = false) /\
      (retryCount + n < MAX_RETRIES -> retried world (retryCount + n) = false) /\
      length (posts (sendUsageEventsWithRetry rounds world events retryCount))
        = n /\
      stored persisted (sendUsageEventsWithRetry rounds world events retryCount)
        = persisted)).
Proof.
  induction rounds as [|rounds IH]; intros retryCount Hle Hr; [lia|].
  cbn [sendUsageEventsWithRetry].
  destruct (Nat.leb_spec MAX_RETRIES retryCount) as [Hge|Hlt].
  { exists 0. rewrite Nat.add_0_r. split; [lia|]. split; [intros; lia|].
    split; [reflexivity|]. split; [reflexivity|]. right.
    repeat split; try reflexivity; intros; lia. }
  destruct (getSession world retryCount) as [session| |] eqn:Hs.
  2,3: exists 0; rewrite Nat.add_0_r; split; [lia|]; split; [intros; lia|];
    split; [reflexivity|]; split; [reflexivity|]; right;
    unfold concluded, retried; rewrite Hs; repeat split; reflexivity.
  destruct (sendUsageEvent_effects world events session retryCount Hs)
    as (Hsucc & Hposts & Hdelays & Hstored).
  destruct (sendUsageEvent world events session retryCount)
    as [success effects]. simpl in Hsucc, Hposts, Hdelays, Hstored.
  destruct success.
  - exists 0. rewrite Nat.add_0_r. split; [lia|]. split; [intros; lia|].
    rewrite delays_app, posts_app, stored_app, Hdelays, Hposts, Hstored.
    split; [reflexivity|]. split; [reflexivity|]. left.
    split; [exact Hlt|]. unfold concluded. rewrite Hs, <- Hsucc. auto.
  - assert (Hret : retried world retryCount = true)
      by (destruct (retried world retryCount); [reflexivity|discriminate]).
    destruct (IH (retryCount + 1)) as (n & Hn & Hall & Hd & Hp & Hcases);
      [lia|lia|].
    exists (S n). split; [lia|]. split.
    { intros j Hj. destruct (Nat.eq_dec j retryCount) as [->|];
        [exact Hret|apply Hall; lia]. }
    rewrite !delays_app, !posts_app, !stored_app, Hdelays, Hposts, Hstored.
    set (chain := sendUsageEventsWithRetry rounds world events
                    (retryCount + 1)) in *.
    change (delays [@SetTimeout Number Date
                      (RETRY_DELAY_MS * 2 ^ N.of_nat retryCount)%N])
      with [(RETRY_DELAY_MS * 2 ^ N.of_nat retryCount)%N].
    change (posts [@SetTimeout Number Date (RETRY_DELAY_MS * 2 ^ N.of_nat retryCount)%N])
      with (@nil (jsstring * list Request)).
    change (stored persisted
              [@SetTimeout Number Date (RETRY_DELAY_MS * 2 ^ N.of_nat retryCount)%N])
      with persisted.
    cbn [app length map snd repeat seq].
    replace (S retryCount) with (retryCount + 1) by lia.
    rewrite Hd. split; [reflexivity|].
    cbn [snd repeat]. split; [f_equal; exact Hp|].
    replace (retryCount + S n) with (retryCount + 1 + n) by lia.
    destruct Hcases as [(H1 & H2 & H3 & H4)|(H1 & H2 & H3 & H4)];
      rewrite H3, H4; [left|right]; auto.
Qed.

Lemma posts_carry_events world events post :
  In post (posts (sendUsageEvents world events)) -> snd post = events.
Proof.
  unfold sendUsageEvents.
  destruct (chain_shape world events None (S MAX_RETRIES) 0)
    as (n & _ & _ & _ & Hp & _); [lia|unfold MAX_RETRIES; lia|].
  intros Hin. apply (in_map snd) in Hin. rewrite Hp in Hin.
  apply repeat_spec in Hin. exact Hin.
Qed.

Lemma stored_cleared_or_kept world events persisted :
  stored persisted (sendUsageEvents world events) = Some [] \/
  stored persisted (sendUsageEvents world events) = persisted.
Proof.
  unfold sendUsageEvents.
  destruct (chain_shape world events persisted (S MAX_RETRIES) 0)
    as (n & _ & _ & _ & _ & [(_ & _ & _ & H)|(_ & _ & _ & H)]);
    [lia|unfold MAX_RETRIES; lia| |]; auto.
Qed.

(** Whatever the service and the authentication do, the events are posted
    at most [MAX_RETRIES] times, always the same events, and the delays
    before the attempts double from one second on. *)
Theorem retries_are_bounded world events :
  length (posts (sendUsageEvents world events)) <= MAX_RETRIES /\
  (forall post, In post (posts (sendUsageEvents world events)) ->
                snd post = events) /\
  exists n, n <= MAX_RETRIES /\
            delays (sendUsageEvents world events)
            = firstn n [1000; 2000; 4000; 8000; 16000]%N.
Proof.
  unfold sendUsageEvents.
  destruct (chain_shape world events None (S MAX_RETRIES) 0)
    as (n & Hn & _ & Hd & Hp & Hcases); [lia|unfold MAX_RETRIES; lia|].
  simpl in Hn. split; [|split].
  - destruct Hcases as [(H1 & _ & -> & _)|(_ & _ & -> & _)]; simpl in *; lia.
  - apply posts_carry_events.
  - exists n. split; [exact Hn|]. rewrite Hd. unfold MAX_RETRIES in Hn.
    do 6 (destruct n as [|n]; [reflexivity|]). lia.
Qed.

(** The persisted events are cleared exactly when some attempt, reached
    through attempts that the service answered with 401, concludes: also
    when it concludes with an error of the service or of the request.
    Otherwise they stay as they are. *)
Theorem persisted_events_cleared_iff world events persisted :
  (stored persisted (sendUsageEvents world events) = Some [] /\
   exists k, k < MAX_RETRIES /\
             (forall j, j < k -> retried world j = true) /\
             concluded world k = true) \/
  (stored persisted (sendUsageEvents world events) = persisted /\
   ~ exists k, k < MAX_RETRIES /\
               (forall j, j < k -> retried world j = true) /\
               concluded world k = true).
Proof.
  unfold sendUsageEvents.
  destruct (chain_shape world events persisted (S MAX_RETRIES) 0)
    as (n & Hn & Hall & _ & _ & Hcases); [lia|unfold MAX_RETRIES; lia|].
  simpl in Hn, Hall, Hcases.
  destruct Hcases as [(H1 & H2 & _ & H4)|(H1 & H2 & _ & H4)].
  - left. split; [exact H4|]. exists n. split; [exact H1|].
    split; [intros j Hj; apply Hall; lia|exact H2].
  - right. split; [exact H4|]. intros (k & Hk & Hret & Hc).
    assert (Hcr : forall j, concluded world j = true -> retried world j = false).
    { intros j. unfold concluded. destruct (getSession world j);
        try discriminate. apply negb_true_iff. }
    destruct (Nat.lt_total k n) as [Hlt|[->|Hgt]].
    + specialize (Hcr k Hc). rewrite Hall in Hcr by lia. discriminate.
    + rewrite (H1 Hk) in Hc. discriminate.
    + rewrite (Hret n Hgt) in H2. specialize (H2 ltac:(lia)). discriminate.
Qed.

(** An edit that was not accepted has no effect. An accepted edit is added
    to the persisted events, with the sum of the lines added and removed as
    its units, before anything is sent; every post carries all the persisted
    events with it; and in the end the persisted events are these or none. *)
Theorem agent_code_edit_is_persisted_then_sent world now event persisted :
  let before := match persisted with Some events => events | None => [] end in
  let request := {| type := AgenticCodeEdit;
                    units := plus (added event) (removed event);
                    timestamp := now |} in
  let effects := handleAgentCodeEdit plus world now event persisted in
  if accepted event then
    hd_error effects = Some (Update (before ++ [request])) /\
    (forall post, In post (posts effects) -> snd post = before ++ [request]) /\
    (stored persisted effects = Some [] \/
     stored persisted effects = Some (before ++ [request]))
  else effects = [].
Proof.
  cbv zeta. unfold handleAgentCodeEdit.
  destruct (accepted event); [|reflexivity]. cbn [negb].
  set (before := match persisted with Some events => events | None => [] end).
  set (request := {| type := AgenticCodeEdit;
                     units := plus (added event) (removed event);
                     timestamp := now |}).
  split; [reflexivity|]. split.
  - intros post Hin.
    apply (posts_carry_events world (before ++ [request])). exact Hin.
  - change (stored persisted (Update (before ++ [request])
                                :: sendUsageEvents world (before ++ [request])))
      with (stored (Some (before ++ [request]))
              (sendUsageEvents world (before ++ [request]))).
    destruct (stored_cleared_or_kept world (before ++ [request])
                (Some (before ++ [request]))) as [H|H]; auto.
Qed.

End UsageProperties.

(** * Properties of running a command *)

Section RunCommandProperties.
Import RunCommand.

Variable SpawnError : Type.
Implicit Types (events before after : list (ChildEvent SpawnError))
  (event : ChildEvent SpawnError) (st : State SpawnError).

Local Abbreviation listen := (@RunCommand.listen SpawnError).
Local Abbreviation quiet := (forallb (fun event => negb (isExit event))).

Lemma listen_settled st event s :
  settled st = Some s -> settled (listen st event) = Some s.
Proof.
  intros H. destruct event as [data|data|[[| |]|]|error]; simpl; rewrite ?H;
    reflexivity.
Qed.

Lemma settled_stays events : forall st s,
  settled st = Some s -> settled (fold_left listen events st) = Some s.
Proof.
  induction events as [|event events IH]; intros st s H; [exact H|].
  simpl. apply IH, listen_settled, H.
Qed.

Lemma quiet_run events : forall st,
  quiet events = true ->
  fold_left listen events st
  = {| stdout := stdout st ++ outputOf events;
       stderr := stderr st ++ errorOutputOf events;
       settled := settled st |}.
Proof.
  induction events as [|event events IH]; intros st H.
  - simpl. rewrite !app_nil_r. destruct st; reflexivity.
  - simpl in H. apply andb_true_iff in H as [He H].
    simpl fold_left. rewrite (IH _ H).
    destruct event; try discriminate He; simpl; rewrite <- ?app_assoc;
      reflexivity.
Qed.

Lemma first_exit events :
  quiet events = true \/
  exists before event after,
    events = before ++ event :: after /\ quiet before = true /\
    isExit event = true.
Proof.
  induction events as [|e events IH]; [left; reflexivity|].
  destruct (isExit e) eqn:E.
  - right. exists [], e, events. auto.
  - destruct IH as [H|(before & event & after & -> & Hq & He)].
    + left. simpl. rewrite E, H. reflexivity.
    + right. exists (e :: before), event, after. simpl. rewrite E, Hq. auto.
Qed.

Lemma settled_at_exit before event after :
  quiet before = true -> isExit event = true ->
  settled (runCommandAsync (before ++ event :: after)) = outcome before event.
Proof.
  intros Hq He. unfold runCommandAsync. rewrite fold_left_app.
  rewrite (quiet_run _ _ Hq). simpl fold_left.
  assert (H : settled (listen {| stdout := [] ++ outputOf before;
                                 stderr := [] ++ errorOutputOf before;
                                 settled := None |} event)
              = outcome before event).
  { destruct event as [data|data|[[| |]|]|error]; try discriminate He;
      reflexivity. }
  simpl in H. destruct (outcome before event) as [s|] eqn:Eo.
  - apply settled_stays. exact H.
  - destruct event as [data|data|[[| |]|]|error]; discriminate.
Qed.

(** The promise is settled by the first [close] or [error] event, with the
    output collected until then, and no later event changes it. *)
Theorem command_settles_at_first_exit before event after :
  forallb (fun e => negb (isExit e)) before = true ->
  isExit event = true ->
  settled (runCommandAsync (before ++ event :: after)) = outcome before event /\
  outcome before event <> None.
Proof.
  intros Hq He. split; [apply settled_at_exit; assumption|].
  destruct event as [data|data|[[| |]|]|error]; discriminate.
Qed.

(** The promise resolves only when the first exit event is a [close] with
    code 0; the result carries the output written before it. *)
Theorem command_resolves_on_code_zero events result :
  settled (runCommandAsync events) = Some (Resolved result) ->
  exists before after,
    events = before ++ @Close SpawnError (Some 0%Z) :: after /\
    forallb (fun e => negb (isExit e)) before = true /\
    result = {| result_stdout := outputOf before;
                result_stderr := errorOutputOf before;
                exitCode := Some 0%Z |}.
Proof.
  intros H. destruct (first_exit events)
    as [Hq|(before & event & after & -> & Hq & He)].
  - unfold runCommandAsync in H. rewrite (quiet_run _ _ Hq) in H. discriminate.
  - rewrite (settled_at_exit _ _ _ Hq He) in H. exists before, after.
    destruct event as [data|data|[[| |]|]|error]; try discriminate.
    simpl in H. injection H as <-. auto.
Qed.


End RunCommandProperties.

(** * Properties of the height of the explanation widget *)

Section ExplanationWidgetProperties.
Import ExplanationWidget.

Lemma split_length_pos text : forall line, 1 <= length (split text line).
Proof.
  induction text as [|c rest IH]; intros line; simpl; [lia|].
  destruct (c =? 13)%N; [destruct rest as [|d rest']; simpl; try lia;
                         destruct (d =? 10)%N; simpl; lia|].
  destruct (c =? 10)%N; simpl; [lia|apply IH].
Qed.

Lemma split_length_line text : forall line line',
  length (split text line) = length (split text line').
Proof.
  induction text as [|c rest IH]; intros line line'; simpl; [reflexivity|].
  destruct (c =? 13)%N; [destruct rest as [|d rest']; simpl; try reflexivity;
                         destruct (d =? 10)%N; reflexivity|].
  destruct (c =? 10)%N; simpl; [reflexivity|apply IH].
Qed.

Lemma split_app_length n : forall text more line,
  length text <= n ->
  length (split text line) <= length (split (text ++ more) line).
Proof.
  induction n as [|n IH]; intros text more line Hn.
  - destruct text; [|simpl in Hn; lia]. simpl. apply split_length_pos.
  - destruct text as [|c rest]; [simpl; apply split_length_pos|].
    simpl in Hn. simpl.
    destruct (c =? 13)%N.
    + destruct rest as [|d rest'].
      * destruct more as [|d more']; [simpl; lia|].
        change (([] : jsstring) ++ d :: more') with (d :: more').
        pose proof (split_length_pos more' []) as Hp.
        pose proof (split_length_pos (d :: more') []) as Hp'.
        remember (split (d :: more') []) as x.
        cbv beta iota. destruct (d =? 10)%N; simpl; lia.
      * change ((d :: rest') ++ more) with (d :: (rest' ++ more)).
        cbv beta iota. destruct (d =? 10)%N; cbn [length]; apply le_n_S.
        -- apply IH. simpl in Hn. lia.
        -- apply (IH (d :: rest') more []). simpl in *. lia.
    + destruct (c =? 10)%N; [cbn [length]; apply le_n_S|]; apply IH; lia.
Qed.

(** The extra lines of the widget never decrease when text is added at the
    end of the response, and twenty times their number never exceeds the
    number of lines of the text. *)
Theorem extra_lines_grow_with_the_text q value more :
  getExtraLines {| query := q; response := Some value |}
    <= getExtraLines {| query := q; response := Some (value ++ more) |} /\
  20 * getExtraLines {| query := q; response := Some value |}
    <= length (split value []).
Proof.
  unfold getExtraLines, textToCountLines. cbn [response]. cbv zeta.
  pose proof (split_app_length (length value) value more [] (le_n _)) as H.
  set (a := length (split value [])) in *.
  set (b := length (split (value ++ more) [])) in *.
  split.
  - destruct (Nat.ltb_spec 20 a), (Nat.ltb_spec 20 b); try lia.
    apply Nat.Div0.div_le_mono. exact H.
  - destruct (Nat.ltb_spec 20 a); [|lia].
    apply Nat.Div0.mul_div_le.
Qed.

Lemma split_unbroken text : forall line,
  forallb (fun c => negb (isLineTerminator c)) text = true ->
  split text line = [line ++ text].
Proof.
  induction text as [|c rest IH]; intros line H.
  - simpl. rewrite app_nil_r. reflexivity.
  - simpl in H. apply andb_true_iff in H as [Hc H].
    unfold isLineTerminator in Hc. apply negb_true_iff, orb_false_elim in Hc
      as [H13 H10].
    simpl. rewrite H13, H10, (IH _ H), <- app_assoc. reflexivity.
Qed.

(** Only line terminators count: a text without any is one piece, and the
    widget gets no extra line for it, however long it is. *)
Theorem unbroken_text_has_no_extra_lines q value :
  forallb (fun c => negb (isLineTerminator c)) value = true ->
  split value [] = [value] /\
  getExtraLines {| query := q; response := Some value |} = 0.
Proof.
  intros H. pose proof (split_unbroken value [] H) as Hs. simpl in Hs.
  split; [exact Hs|].
  unfold getExtraLines, textToCountLines. cbn [response]. rewrite Hs.
  reflexivity.
Qed.

End ExplanationWidgetProperties.

(** * Further instances on concrete inputs *)

Lemma ranges_within_message_witness :
  fst (parseChatRequest session (lit "!agentX /sub arg")
         (quietRuntime demoServices [])) = Normal agentWithSubcommand /\
  (Forall (withinMessage (lit "!agentX /sub arg")) (parts agentWithSubcommand) /\
   (parts agentWithSubcommand = [] <-> lit "!agentX /sub arg" = []) /\
   (forall p, hd_error (parts agentWithSubcommand) = Some p ->
              start (range p) = 0) /\
   (forall p, at_last (parts agentWithSubcommand) = Some p ->
              endExclusive (range p) = length (lit "!agentX /sub arg"))).
Proof.
  split; [vm_compute; reflexivity|].
  apply (ranges_within_message demoServices session (lit "!agentX /sub arg")
           (quietRuntime demoServices [])).
  vm_compute. reflexivity.
Defined.

Lemma editor_ranges_follow_offsets_witness :
  fst (parseChatRequest session (lit "!agentX /sub arg")
         (quietRuntime demoServices [])) = Normal agentWithSubcommand /\
  In (ChatRequestAgentSubcommandPart {| start := 8; endExclusive := 12 |}
        {| startLineNumber := 1; startColumn := 9;
           endLineNumber := 1; endColumn := 13 |}
        (lit "sub" : IChatAgentCommand demoServices))
     (parts agentWithSubcommand) /\
  onOneLine {| startLineNumber := 1; startColumn := 9;
               endLineNumber := 1; endColumn := 13 |}
    (positionAt (lit "!agentX /sub arg") 8) (12 - 8).
Proof.
  split; [vm_compute; reflexivity|].
  split; [right; right; left; reflexivity|].
  apply (editor_ranges_follow_offsets demoServices session
           (lit "!agentX /sub arg") (quietRuntime demoServices [])
           agentWithSubcommand
           (ChatRequestAgentSubcommandPart {| start := 8; endExclusive := 12 |}
              {| startLineNumber := 1; startColumn := 9;
                 endLineNumber := 1; endColumn := 13 |}
              (lit "sub" : IChatAgentCommand demoServices))).
  - vm_compute. reflexivity.
  - right; right; left; reflexivity.
  - reflexivity.
Defined.

Lemma no_candidate_single_text_witness :
  (forall j c, nth_error (lit "a/b c!d") j = Some c -> isLeader c = true ->
               atWordStart (lit "a/b c!d") j = false) /\
  exists editorRange,
    fst (parseChatRequest session (lit "a/b c!d")
           (quietRuntime demoServices []))
    = Normal {| parts := [ChatRequestTextPart
                            {| start := 0; endExclusive := 7 |} editorRange
                            (lit "a/b c!d")];
                text := lit "a/b c!d" |}.
Proof.
  assert (H : forall j c, nth_error (lit "a/b c!d") j = Some c ->
                isLeader c = true -> atWordStart (lit "a/b c!d") j = false).
  { intros j c Hj Hl.
    do 7 (destruct j as [|j];
          [simpl in Hj; injection Hj as <-;
           first [discriminate Hl | reflexivity]|]).
    destruct j; discriminate Hj. }
  split; [exact H|]. eexists.
  apply (no_candidate_single_text demoServices session (lit "a/b c!d")
           (quietRuntime demoServices []) H).
Defined.

Lemma variable_part_is_registered_witness :
  fst (parseChatRequest session (lit "see #myvar:12 now")
         (quietRuntime demoServices [])) = Normal variableRequest /\
  hasVariable demoServices (lit "myvar") = true /\
  slice (lit "see #myvar:12 now") 4 13 = lit "#myvar:12".
Proof.
  split; [vm_compute; reflexivity|].
  pose proof (variable_part_is_registered demoServices session
                (lit "see #myvar:12 now") (quietRuntime demoServices [])
                variableRequest {| start := 4; endExclusive := 13 |}
                {| startLineNumber := 1; startColumn := 5;
                   endLineNumber := 1; endColumn := 14 |}
                (lit "myvar") (lit ":12")) as H.
  destruct H as (Hv & Hs & _).
  - vm_compute. reflexivity.
  - right; left; reflexivity.
  - split; [exact Hv | exact Hs].
Defined.

Lemma agent_part_is_registered_witness :
  fst (parseChatRequest session (lit "!agentX /sub arg")
         (quietRuntime demoServices [])) = Normal agentWithSubcommand /\
  exists name,
    getAgent demoServices name = Some (lit "agentX") /\
    slice (lit "!agentX /sub arg") 0 7 = chatAgentLeader ++ name /\
    forallb isNameChar name = true.
Proof.
  split; [vm_compute; reflexivity|].
  apply (agent_part_is_registered demoServices session
           (lit "!agentX /sub arg") (quietRuntime demoServices [])
           agentWithSubcommand {| start := 0; endExclusive := 7 |}
           {| startLineNumber := 1; startColumn := 1;
              endLineNumber := 1; endColumn := 8 |}
           (lit "agentX" : IChatAgent demoServices)).
  - vm_compute. reflexivity.
  - left; reflexivity.
Defined.

Lemma agent_leads_the_request_witness :
  fst (parseChatRequest session (lit "!agentX /sub arg")
         (quietRuntime demoServices [])) = Normal agentWithSubcommand /\
  existsb (@isSlashCommandPart demoServices) (parts agentWithSubcommand)
    = false.
Proof.
  split; [vm_compute; reflexivity|].
  apply (agent_leads_the_request demoServices session
           (lit "!agentX /sub arg") (quietRuntime demoServices [])
           agentWithSubcommand 0
           (ChatRequestAgentPart {| start := 0; endExclusive := 7 |}
              {| startLineNumber := 1; startColumn := 1;
                 endLineNumber := 1; endColumn := 8 |}
              (lit "agentX" : IChatAgent demoServices))).
  - vm_compute. reflexivity.
  - reflexivity.
  - reflexivity.
Defined.

Lemma subcommand_follows_agent_witness :
  fst (parseChatRequest session (lit "!agentX /sub arg")
         (quietRuntime demoServices [])) = Normal agentWithSubcommand /\
  existsb (@isAgentPart demoServices) (firstn 2 (parts agentWithSubcommand))
    = true /\
  Forall (fun q => isAgentPart q = true \/ isBlankTextPart q = true)
    (firstn 2 (parts agentWithSubcommand)).
Proof.
  split; [vm_compute; reflexivity|].
  apply (subcommand_follows_agent demoServices session
           (lit "!agentX /sub arg") (quietRuntime demoServices [])
           agentWithSubcommand 2
           (ChatRequestAgentSubcommandPart {| start := 8; endExclusive := 12 |}
              {| startLineNumber := 1; startColumn := 9;
                 endLineNumber := 1; endColumn := 13 |}
              (lit "sub" : IChatAgentCommand demoServices))).
  - vm_compute. reflexivity.
  - reflexivity.
  - reflexivity.
Defined.

Lemma slash_command_is_registered_witness :
  fst (parseChatRequest session (lit "/foo bar")
         (quietRuntime demoServices [])) = Normal slashCommandRequest /\
  In (lit "foo") (getCommands demoServices) /\
  namedAt (lit "/foo bar") {| start := 0; endExclusive := 4 |} (lit "foo").
Proof.
  split; [vm_compute; reflexivity|].
  apply (slash_command_is_registered demoServices session (lit "/foo bar")
           (quietRuntime demoServices []) slashCommandRequest
           {| start := 0; endExclusive := 4 |}
           {| startLineNumber := 1; startColumn := 1;
              endLineNumber := 1; endColumn := 5 |}
           (lit "foo" : ISlashCommand demoServices)).
  - vm_compute. reflexivity.
  - left; reflexivity.
Defined.

Lemma subcommand_belongs_to_agent_witness :
  fst (parseChatRequest session (lit "!agentX /sub arg")
         (quietRuntime demoServices [])) = Normal agentWithSubcommand /\
  (exists rg' er' agent subCommands,
     In (ChatRequestAgentPart rg' er' agent) (parts agentWithSubcommand) /\
     provideSlashCommands demoServices agent = inr subCommands /\
     In (lit "sub") subCommands) /\
  namedAt (lit "!agentX /sub arg") {| start := 8; endExclusive := 12 |}
    (lit "sub").
Proof.
  split; [vm_compute; reflexivity|].
  apply (subcommand_belongs_to_agent demoServices session
           (lit "!agentX /sub arg") (quietRuntime demoServices [])
           agentWithSubcommand {| start := 8; endExclusive := 12 |}
           {| startLineNumber := 1; startColumn := 9;
              endLineNumber := 1; endColumn := 13 |}
           (lit "sub" : IChatAgentCommand demoServices)).
  - vm_compute. reflexivity.
  - right; right; left; reflexivity.
Defined.

Lemma dynamic_reference_is_anchored_witness :
  fst (parseChatRequest session (lit "ab #file:a.ts")
         (quietRuntime demoServices [fileReference]))
    = Normal referenceRequest /\
  atWordStart (lit "ab #file:a.ts") 3 = true /\
  charAt (lit "ab #file:a.ts") 3 = chatFileVariableLeader.
Proof.
  split; [vm_compute; reflexivity|].
  pose proof (dynamic_reference_is_anchored demoServices session
                (lit "ab #file:a.ts")
                (quietRuntime demoServices [fileReference]) referenceRequest
                (ChatRequestDynamicReferencePart
                   {| start := 3; endExclusive := 13 |}
                   {| startLineNumber := 1; startColumn := 4;
                      endLineNumber := 1; endColumn := 14 |}
                   (lit "file") (lit "a.ts")
                   (7 : Data demoServices))) as H.
  destruct H as (Hg & Hc & _).
  - vm_compute. reflexivity.
  - right; left; reflexivity.
  - reflexivity.
  - split; [exact Hg | exact Hc].
Defined.

Lemma anchored_variableThenCommand :
  anchored demoServices (lit "#v #f:x /foo").
Proof.
  intros i m Hgate H.
  assert (Hi : i < 12).
  { destruct H as [[Hc _]|[Hc _]]; rewrite charAt_nat in Hc;
      destruct (nth_error (lit "#v #f:x /foo") i) eqn:E; try discriminate Hc;
      change 12 with (length (lit "#v #f:x /foo"));
      apply nth_error_Some; rewrite E; discriminate. }
  do 12 (destruct i as [|i];
         [destruct H as [[Hc Hm]|[Hc [Hd Hm]]]; vm_compute in Hc;
          try discriminate Hc;
          try (vm_compute in Hd; discriminate Hd);
          vm_compute in Hm; injection Hm as <-; reflexivity|]).
  lia.
Qed.

Lemma anchored_command_covers_its_name_witness :
  anchored demoServices (lit "#v #f:x /foo") /\
  fst (parseChatRequest session (lit "#v #f:x /foo")
         (quietRuntime demoServices [])) = Normal variableThenCommand /\
  slice (lit "#v #f:x /foo") 8 12 = lit "/foo".
Proof.
  split; [exact anchored_variableThenCommand|].
  split; [vm_compute; reflexivity|].
  apply (anchored_command_covers_its_name demoServices session
           (lit "#v #f:x /foo") (quietRuntime demoServices [])
           variableThenCommand
           (ChatRequestSlashCommandPart {| start := 8; endExclusive := 12 |}
              {| startLineNumber := 1; startColumn := 9;
                 endLineNumber := 1; endColumn := 13 |}
              (lit "foo" : ISlashCommand demoServices))
           anchored_variableThenCommand).
  - vm_compute. reflexivity.
  - vm_compute. tauto.
  - reflexivity.
Defined.

Lemma update_last_write_wins_witness :
  SymbolInfo.updateSymbolInfo entry_fsPath entry_name laterEntries
    shownWithEntries = Some updatedEntries /\
  In ((lit "a.ts", lit "f"), 2) laterEntries /\
  exists k x,
    SymbolInfo.getSymbolInfoListIndex entry_fsPath entry_name
      (SymbolInfo.this_viewModel updatedEntries) ((lit "a.ts", lit "f"), 2)
      = Z.of_nat k /\
    nth_error (SymbolInfo.this_viewModel updatedEntries) k = Some x /\
    SymbolInfo.lastFor entry_fsPath entry_name laterEntries
      ((lit "a.ts", lit "f"), 2) = Some x.
Proof.
  split; [vm_compute; reflexivity|]. split; [left; reflexivity|].
  apply (update_last_write_wins Entry entry_fsPath entry_name laterEntries
           shownWithEntries updatedEntries ((lit "a.ts", lit "f"), 2)).
  - vm_compute. reflexivity.
  - left; reflexivity.
Defined.

Lemma update_extends_symbols_witness :
  SymbolInfo.updateSymbolInfo entry_fsPath entry_name laterEntries
    shownWithEntries = Some updatedEntries /\
  SymbolInfo.this_viewModel shownWithEntries <> [] /\
  exists added,
    map (SymbolInfo.symbolOf entry_fsPath entry_name)
      (SymbolInfo.this_viewModel updatedEntries)
    = map (SymbolInfo.symbolOf entry_fsPath entry_name)
        (SymbolInfo.this_viewModel shownWithEntries) ++ added /\
    NoDup added.
Proof.
  split; [vm_compute; reflexivity|]. split; [discriminate|].
  destruct (update_extends_symbols Entry entry_fsPath entry_name laterEntries
              shownWithEntries updatedEntries)
    as [(added & Hmap & Hnd & _) _].
  - vm_compute. reflexivity.
  - discriminate.
  - exists added. split; [exact Hmap | exact Hnd].
Defined.

Lemma update_leaves_other_entries_witness :
  SymbolInfo.updateSymbolInfo entry_fsPath entry_name laterEntries
    shownWithEntries = Some updatedEntries /\
  nth_error (SymbolInfo.this_viewModel shownWithEntries) 1
    = Some ((lit "a.ts", lit "g"), 1) /\
  nth_error (SymbolInfo.this_viewModel updatedEntries) 1
    = Some ((lit "a.ts", lit "g"), 1).
Proof.
  split; [vm_compute; reflexivity|]. split; [reflexivity|].
  apply (update_leaves_other_entries Entry entry_fsPath entry_name laterEntries
           shownWithEntries updatedEntries 1 ((lit "a.ts", lit "g"), 1)).
  - vm_compute. reflexivity.
  - reflexivity.
  - intros s [<-|[<-|[<-|[]]]]; reflexivity.
Defined.

Lemma rows_mirror_viewModel_witness :
  SymbolInfo.this_list
    (fold_left (SymbolInfo.perform entry_fsPath entry_name) listHistory
       (SymbolInfo.created Entry)) = Some listCalls /\
  SymbolInfo.rows listCalls = laterEntries.
Proof.
  split; [vm_compute; reflexivity|].
  apply (rows_mirror_viewModel Entry entry_fsPath entry_name listHistory
           listCalls).
  vm_compute. reflexivity.
Defined.

Lemma drag_records_last_selection_witness :
  CSEventHandler.dragged (lines 1 1)
    [(lit "a.ts", lines 1 2); (lit "b.ts", lines 1 3)] = true /\
  fold_left (CSEventHandler.perform (fun _ : unit => lit "definition"))
    (map (CSEventHandler.select unit)
       [(lit "a.ts", lines 1 1); (lit "a.ts", lines 1 2);
        (lit "b.ts", lines 1 3)])
    [CSEventHandler.OpenFile (lit "a.ts")]
  = [CSEventHandler.OpenFile (lit "a.ts");
     CSEventHandler.Selection (lit "b.ts")
       (CSEventHandler.selectionToSidecarRange (lines 1 3))].
Proof.
  split; [reflexivity|].
  apply (drag_records_last_selection unit (fun _ : unit => lit "definition")
           [CSEventHandler.OpenFile (lit "a.ts")] (lit "a.ts", lines 1 1)
           [(lit "a.ts", lines 1 2); (lit "b.ts", lines 1 3)]).
  - intros event H. injection H as <-. reflexivity.
  - reflexivity.
Defined.

Lemma command_settles_at_first_exit_witness :
  forallb (fun event : RunCommand.ChildEvent unit =>
             negb (RunCommand.isExit event))
    [RunCommand.StdoutData (lit "ab"); RunCommand.StderrData (lit "w");
     RunCommand.StdoutData (lit "c")] = true /\
  RunCommand.isExit (@RunCommand.Close unit (Some 1%Z)) = true /\
  RunCommand.settled
    (RunCommand.runCommandAsync
       ([RunCommand.StdoutData (lit "ab"); RunCommand.StderrData (lit "w");
         RunCommand.StdoutData (lit "c")]
          ++ @RunCommand.Close unit (Some 1%Z)
          :: [RunCommand.Close (Some 0%Z)]))
  = Some (RunCommand.Rejected
            (RunCommand.ExitedWithCode unit (Some 1%Z) (lit "w"))).
Proof.
  split; [reflexivity|]. split; [reflexivity|].
  apply (command_settles_at_first_exit unit
           [RunCommand.StdoutData (lit "ab"); RunCommand.StderrData (lit "w");
            RunCommand.StdoutData (lit "c")]
           (RunCommand.Close (Some 1%Z)) [RunCommand.Close (Some 0%Z)]);
    reflexivity.
Defined.

Lemma command_resolves_on_code_zero_witness :
  RunCommand.settled
    (RunCommand.runCommandAsync
       [RunCommand.StdoutData (lit "ab"); @RunCommand.Close unit (Some 0%Z);
        RunCommand.StdoutData (lit "c")])
  = Some (RunCommand.Resolved
            {| RunCommand.result_stdout := lit "ab";
               RunCommand.result_stderr := [];
               RunCommand.exitCode := Some 0%Z |}) /\
  exists before after,
    [RunCommand.StdoutData (lit "ab"); @RunCommand.Close unit (Some 0%Z);
     RunCommand.StdoutData (lit "c")]
    = before ++ RunCommand.Close (Some 0%Z) :: after /\
    forallb (fun event : RunCommand.ChildEvent unit =>
             negb (RunCommand.isExit event)) before = true /\
    {| RunCommand.result_stdout := lit "ab";
       RunCommand.result_stderr := [];
       RunCommand.exitCode := Some 0%Z |}
    = {| RunCommand.result_stdout := RunCommand.outputOf before;
         RunCommand.result_stderr := RunCommand.errorOutputOf before;
         RunCommand.exitCode := Some 0%Z |}.
Proof.
  split; [reflexivity|].
  apply (command_resolves_on_code_zero unit
           [RunCommand.StdoutData (lit "ab"); RunCommand.Close (Some 0%Z);
            RunCommand.StdoutData (lit "c")]).
  reflexivity.
Defined.

Lemma unbroken_text_has_no_extra_lines_witness :
  forallb (fun c => negb (ExplanationWidget.isLineTerminator c))
    (lit "one long line") = true /\
  ExplanationWidget.split (lit "one long line") [] = [lit "one long line"] /\
  ExplanationWidget.getExtraLines
    {| ExplanationWidget.query := None;
       ExplanationWidget.response := Some (lit "one long line") |} = 0.
Proof.
  split; [reflexivity|].
  apply (unbroken_text_has_no_extra_lines None (lit "one long line")).
  reflexivity.
Defined.
